(** * NVSentinel: signal classifier, gang discovery, in-memory store and
      HealthEvent lifecycle

    A shallow embedding of the parts of NVSentinel that its specification
    makes claims about, followed by the theorems that settle those claims.

    - [nvml]: the XID classifier of the NVML health monitor (tables,
      [GetXidSeverity], [isIgnoredXid], [xidToString], [ParseIgnoredXids]).
    - [gang]: the [GangDiscoverer] interface and [CompositeGangDiscoverer].
    - [memory]: the in-memory object store behind the embedded Device API.
    - [healthevents]: the HealthEvent phase machine and its controllers.

    Go maps are finite maps ([gmap]); indexing a Go map at a missing key
    yields the zero value of the element type, which is written out. *)

From Stdlib Require Import NArith ZArith Ascii Lia ZifyBool ZifyN.
From stdpp Require Import gmap strings list fin_maps sorting.

Local Open Scope N_scope.

(** ** Go runtime conventions shared by the modules *)

(** [m[k]] on a [map[K]bool]: the zero value [false] when [k] is missing. *)
Definition index_bool `{Countable K} (m : gmap K bool) (k : K) : bool :=
  default false (m !! k).

(** A Go slice value: [None] is the nil slice, [Some l] a non-nil slice
    holding [l]. *)
Definition slice (A : Type) : Type := option (list A).

(** [len(s)] and the elements ranged over, both defined on the nil slice. *)
Definition slice_elems {A} (s : slice A) : list A := default [] s.

(** [append(s, x)]: appending to nil allocates. *)
Definition slice_append {A} (s : slice A) (x : A) : slice A :=
  Some (slice_elems s ++ [x]).

(** ** Go standard library functions called by the classifier

    [strings.FieldsFunc] and [strconv.ParseUint] are modelled after their
    Go implementations.  A Go string is a sequence of bytes, here [string]
    (a list of [ascii]).  [FieldsFunc] ranges over runes; the two separators
    the classifier uses are ASCII, and no byte of a multi-byte UTF-8
    encoding (nor of an invalid one, decoded as U+FFFD) equals an ASCII
    byte, so ranging over bytes yields the same fields. *)

Module gostrings.

(** The loop of [FieldsFunc].  Go records the start index of the open span
    ([start >= 0]) and cuts [s[start:end]] when a separator closes it; the
    model carries the bytes of the open span instead of its start index
    ([None] is [start < 0]). *)
Fixpoint FieldsFunc_loop (f : ascii -> bool) (s : string) (start : option string)
  : list string :=
  match s with
  | EmptyString =>
      (* Last field might end at EOF. *)
      match start with
      | Some span => [span]
      | None => []
      end
  | String r rest =>
      if f r then
        match start with
        | Some span => span :: FieldsFunc_loop f rest None
        | None => FieldsFunc_loop f rest None
        end
      else
        match start with
        | Some span => FieldsFunc_loop f rest (Some (span +:+ String r EmptyString))
        | None => FieldsFunc_loop f rest (Some (String r EmptyString))
        end
  end.

Definition FieldsFunc (s : string) (f : ascii -> bool) : list string :=
  FieldsFunc_loop f s None.

End gostrings.

Module strconv.

Inductive NumError : Set :=
| ErrSyntax
| ErrRange.

Definition maxUint64 : N := 2 ^ 64 - 1.

(** Arithmetic on [uint64] wraps around. *)
Definition wrap64 (n : N) : N := n mod 2 ^ 64.

(** [lower(c) = c | ('x' - 'X')]. *)
Definition lower (c : N) : N := N.lor c 32.

(** The loop of [ParseUint] for an explicit base between 2 and 36 (the
    prefix and underscore handling of base 0 is not reached by the
    classifier, which passes base 10).  The Go function returns a value
    next to the error; callers here only inspect the error, so a failed
    parse is [inr]. *)
Fixpoint ParseUint_loop (base cutoff maxVal : N) (s : string) (n : N)
  : N + NumError :=
  match s with
  | EmptyString => inl n
  | String ch rest =>
      let c := N_of_ascii ch in
      let digit :=
        if (48 <=? c) && (c <=? 57) then Some (c - 48)
        else if (97 <=? lower c) && (lower c <=? 122) then Some (lower c - 97 + 10)
        else None in
      match digit with
      | None => inr ErrSyntax
      | Some d =>
          if base <=? d then inr ErrSyntax
          else if cutoff <=? n then inr ErrRange   (* n*base overflows *)
          else
            let n' := wrap64 (n * base) in
            let n1 := wrap64 (n' + d) in
            if (n1 <? n') || (maxVal <? n1) then inr ErrRange  (* n+d overflows *)
            else ParseUint_loop base cutoff maxVal rest n1
      end
  end.

Definition ParseUint (s : string) (base bitSize : N) : N + NumError :=
  match s with
  | EmptyString => inr ErrSyntax
  | _ =>
      let cutoff := maxUint64 / base + 1 in
      let maxVal := wrap64 (N.shiftl 1 bitSize - 1) in
      ParseUint_loop base cutoff maxVal s 0
  end.

End strconv.

(** ** package nvml: XID classification *)

Module nvml.

(** [uint64] error codes.  The classifier only compares and looks them up;
    arithmetic on them occurs in [ParseUint] alone, where the wrap-around
    at [2^64] is explicit. *)
Abbreviation uint64 := N (only parsing).

Definition defaultIgnoredXids : gmap N bool :=
  list_to_map
    [ (13,  true);   (* Graphics Engine Exception *)
      (31,  true);   (* GPU memory page fault *)
      (43,  true);   (* GPU stopped processing *)
      (45,  true);   (* Preemptive cleanup, due to previous errors *)
      (68,  true);   (* Video processor exception *)
      (109, true) ]. (* Context Switch Timeout Error *)

Definition criticalXids : gmap N bool :=
  list_to_map
    [ (48,  true);   (* Double Bit ECC Error *)
      (63,  true);   (* Row remapping failure *)
      (64,  true);   (* Uncontained ECC error *)
      (74,  true);   (* NVLink error *)
      (79,  true);   (* GPU has fallen off the bus *)
      (94,  true);   (* Contained ECC error (severe) *)
      (95,  true);   (* Uncontained ECC error *)
      (119, true);   (* GSP error *)
      (120, true) ]. (* GSP firmware error *)

Definition XidDescriptions : gmap N string :=
  list_to_map
    [ (13,  "Graphics Engine Exception"%string);
      (31,  "GPU memory page fault"%string);
      (43,  "GPU stopped processing"%string);
      (45,  "Preemptive cleanup"%string);
      (68,  "Video processor exception"%string);
      (109, "Context Switch Timeout"%string);
      (48,  "Double Bit ECC Error"%string);
      (63,  "Row remapping failure"%string);
      (64,  "Uncontained ECC error"%string);
      (74,  "NVLink error"%string);
      (79,  "GPU has fallen off the bus"%string);
      (94,  "Contained ECC error"%string);
      (95,  "Uncontained ECC error"%string);
      (8,   "GPU not accessible"%string);
      (32,  "Invalid or corrupted push buffer stream"%string);
      (38,  "Driver firmware error"%string);
      (56,  "Display engine error"%string);
      (57,  "Error programming video memory interface"%string);
      (62,  "Internal micro-controller halt (non-fatal)"%string);
      (69,  "Graphics engine accessor error"%string);
      (119, "GSP error"%string);
      (120, "GSP firmware error"%string) ].

Definition IsDefaultIgnored (xid : uint64) : bool :=
  index_bool defaultIgnoredXids xid.

Definition IsCritical (xid : uint64) : bool :=
  index_bool criticalXids xid.

(** The loop over [additionalIgnored] of [isIgnoredXid]. *)
Fixpoint isIgnoredXid_loop (xid : uint64) (additionalIgnored : list uint64) : bool :=
  match additionalIgnored with
  | [] => false
  | ignoredXid :: rest =>
      if xid =? ignoredXid then true else isIgnoredXid_loop xid rest
  end.

Definition isIgnoredXid (xid : uint64) (additionalIgnored : list uint64) : bool :=
  if index_bool defaultIgnoredXids xid then true
  else isIgnoredXid_loop xid additionalIgnored.

Definition IsCriticalXid (xid : uint64) : bool :=
  index_bool criticalXids xid.

Definition xidToString (xid : uint64) : string :=
  match XidDescriptions !! xid with
  | Some desc => desc
  | None => "Unknown XID"%string
  end.

Inductive XidSeverity : Set :=
| XidSeverityUnknown
| XidSeverityIgnored
| XidSeverityWarning
| XidSeverityCritical.

Definition GetXidSeverity (xid : uint64) : XidSeverity :=
  if index_bool defaultIgnoredXids xid then XidSeverityIgnored
  else if index_bool criticalXids xid then XidSeverityCritical
  else XidSeverityWarning.

(** [XidSeverity] is an [int]; the constructors above are its four named
    constants, which [iota] numbers from 0. *)
Definition XidSeverity_int (s : XidSeverity) : Z :=
  match s with
  | XidSeverityUnknown => 0
  | XidSeverityIgnored => 1
  | XidSeverityWarning => 2
  | XidSeverityCritical => 3
  end%Z.

(** [String] is a method of every [XidSeverity] value, named constant or
    not: its [switch] compares with the four constants and has a
    [default] case. *)
Definition XidSeverity_String (s : Z) : string :=
  (if (s =? XidSeverity_int XidSeverityUnknown)%Z then "unknown"
   else if (s =? XidSeverity_int XidSeverityIgnored)%Z then "ignored"
   else if (s =? XidSeverity_int XidSeverityWarning)%Z then "warning"
   else if (s =? XidSeverity_int XidSeverityCritical)%Z then "critical"
   else "unknown")%string.

(** The separator predicate passed to [strings.FieldsFunc]. *)
Definition isXidSeparator (r : ascii) : bool :=
  Ascii.eqb r "," || Ascii.eqb r " ".

(** The loop over [tokens] of [ParseIgnoredXids]; an unparsable token is
    skipped by [continue]. *)
Fixpoint ParseIgnoredXids_loop (tokens : list string) (result : slice uint64)
  : slice uint64 :=
  match tokens with
  | [] => result
  | tok :: rest =>
      match strconv.ParseUint tok 10 64 with
      | inr _ => ParseIgnoredXids_loop rest result
      | inl v => ParseIgnoredXids_loop rest (slice_append result v)
      end
  end.

Definition ParseIgnoredXids (input : string) : slice uint64 :=
  match input with
  | EmptyString => None
  | _ =>
      let tokens := gostrings.FieldsFunc input isXidSeparator in
      let result := ParseIgnoredXids_loop tokens None in
      if (N.of_nat (length (slice_elems result)) =? 0) then None else result
  end.

End nvml.

(** ** package gang: gang discovery for preflight checks *)

Module gang.

Inductive PodPhase : Set :=
| PodPending
| PodRunning
| PodSucceeded
| PodFailed
| PodUnknown.

(** The fields of [corev1.Pod] the discoverers read.  [Labels] and
    [Annotations] are Go maps that may be nil ([None]). *)
Record Pod : Type := {
  pod_Name : string;
  pod_Namespace : string;
  pod_Labels : option (gmap string string);
  pod_Annotations : option (gmap string string);
  pod_NodeName : string;        (* Spec.NodeName *)
  pod_Phase : PodPhase;         (* Status.Phase *)
  pod_PodIP : string            (* Status.PodIP *)
}.

Record PeerInfo : Type := {
  PodName : string;
  PodIP : string;
  NodeName : string;
  Namespace : string
}.

Record GangInfo : Type := {
  GangID : string;
  ExpectedMinCount : nat;
  Peers : list PeerInfo
}.

(** Go errors are carried as their message. *)
Abbreviation error := string (only parsing).

Definition KueueWorkloadNameLabel : string := "kueue.x-k8s.io/workload-name".
Definition VolcanoPodGroupAnnotation : string := "volcano.sh/pod-group".

Section Discoverers.

(** [Ctx] stands for the [context.Context] of a call together with the
    cluster state the Kubernetes client observes during it. *)
Context {Ctx : Type}.

(** The [GangDiscoverer] interface: a value of the interface type is the
    record of its methods. *)
Record GangDiscoverer : Type := {
  Name : string;
  CanHandle : Pod -> bool;
  ExtractGangID : Pod -> string;
  DiscoverPeers : Ctx -> Pod -> option GangInfo * option error
}.

(** [kubeClient.CoreV1().Pods(namespace).List(ctx, LabelSelector: key=value)]. *)
Definition PodLister : Type := Ctx -> string -> string -> string -> list Pod + error.

(** *** KueueDiscoverer *)

Definition Kueue_CanHandle (pod : Pod) : bool :=
  match pod_Labels pod with
  | None => false
  | Some labels => bool_decide (is_Some (labels !! KueueWorkloadNameLabel))
  end.

Definition Kueue_ExtractGangID (pod : Pod) : string :=
  match pod_Labels pod with
  | None => ""
  | Some labels =>
      let workloadName := default "" (labels !! KueueWorkloadNameLabel) in
      if decide (workloadName = "") then ""
      else "kueue-" +:+ pod_Namespace pod +:+ "-" +:+ workloadName
  end.

(** The loop over [pods.Items]: pods neither running nor pending are skipped. *)
Fixpoint Kueue_peers (items : list Pod) : list PeerInfo :=
  match items with
  | [] => []
  | p :: rest =>
      match pod_Phase p with
      | PodRunning | PodPending =>
          {| PodName := pod_Name p; PodIP := pod_PodIP p;
             NodeName := pod_NodeName p; Namespace := pod_Namespace p |}
          :: Kueue_peers rest
      | _ => Kueue_peers rest
      end
  end.

Definition Kueue_DiscoverPeers (kubeClient : PodLister) (ctx : Ctx) (pod : Pod)
  : option GangInfo * option error :=
  if negb (Kueue_CanHandle pod) then (None, None)
  else
    let workloadName :=
      default "" (default ∅ (pod_Labels pod) !! KueueWorkloadNameLabel) in
    let gangID := Kueue_ExtractGangID pod in
    match kubeClient ctx (pod_Namespace pod) KueueWorkloadNameLabel workloadName with
    | inr err =>
        (None, Some ("failed to list pods with selector " +:+ KueueWorkloadNameLabel
                       +:+ "=" +:+ workloadName +:+ ": " +:+ err))
    | inl items =>
        let peers := Kueue_peers items in
        match peers with
        | [] => (None, None)
        | _ => (Some {| GangID := gangID;
                        ExpectedMinCount := length peers;
                        Peers := peers |}, None)
        end
    end.

Definition KueueDiscoverer (kubeClient : PodLister) : GangDiscoverer := {|
  Name := "kueue";
  CanHandle := Kueue_CanHandle;
  ExtractGangID := Kueue_ExtractGangID;
  DiscoverPeers := Kueue_DiscoverPeers kubeClient
|}.

(** *** CompositeGangDiscoverer *)

Record CompositeGangDiscoverer : Type := {
  discoverers : list GangDiscoverer
}.

Definition NewCompositeGangDiscoverer (ds : list GangDiscoverer)
  : CompositeGangDiscoverer :=
  {| discoverers := ds |}.

Definition Composite_Name (c : CompositeGangDiscoverer) : string := "composite".

Fixpoint Composite_CanHandle_loop (ds : list GangDiscoverer) (pod : Pod) : bool :=
  match ds with
  | [] => false
  | d :: rest =>
      if CanHandle d pod then true else Composite_CanHandle_loop rest pod
  end.

Definition Composite_CanHandle (c : CompositeGangDiscoverer) (pod : Pod) : bool :=
  Composite_CanHandle_loop (discoverers c) pod.

Fixpoint Composite_ExtractGangID_loop (ds : list GangDiscoverer) (pod : Pod) : string :=
  match ds with
  | [] => ""
  | d :: rest =>
      if CanHandle d pod then
        let gangID := ExtractGangID d pod in
        if decide (gangID <> "") then gangID
        else Composite_ExtractGangID_loop rest pod
      else Composite_ExtractGangID_loop rest pod
  end.

Definition Composite_ExtractGangID (c : CompositeGangDiscoverer) (pod : Pod) : string :=
  Composite_ExtractGangID_loop (discoverers c) pod.

Fixpoint Composite_DiscoverPeers_loop (ds : list GangDiscoverer) (ctx : Ctx) (pod : Pod)
  : option GangInfo * option error :=
  match ds with
  | [] => (None, None)  (* No discoverer can handle this pod, it's a singleton *)
  | d :: rest =>
      if CanHandle d pod then DiscoverPeers d ctx pod
      else Composite_DiscoverPeers_loop rest ctx pod
  end.

Definition Composite_DiscoverPeers (c : CompositeGangDiscoverer) (ctx : Ctx) (pod : Pod)
  : option GangInfo * option error :=
  Composite_DiscoverPeers_loop (discoverers c) ctx pod.

Fixpoint Composite_ActiveDiscoverer_loop (ds : list GangDiscoverer) (pod : Pod)
  : option GangDiscoverer :=
  match ds with
  | [] => None
  | d :: rest =>
      if CanHandle d pod then Some d else Composite_ActiveDiscoverer_loop rest pod
  end.

Definition Composite_ActiveDiscoverer (c : CompositeGangDiscoverer) (pod : Pod)
  : option GangDiscoverer :=
  Composite_ActiveDiscoverer_loop (discoverers c) pod.

End Discoverers.

Arguments GangDiscoverer : clear implicits.
Arguments CompositeGangDiscoverer : clear implicits.
Arguments PodLister : clear implicits.

End gang.

(** ** package memory: the in-memory object store

    [store.go] is not among the sources at hand; the package is known
    through [factory.go], its tests and the specification. *)

Module memory.

(** Stored objects are opaque encoded bytes. *)
Abbreviation Obj := string (only parsing).

Inductive StorageError : Set :=
| AlreadyExists
| NotFound
| Conflict.

Inductive EventType : Set :=
| Added
| Modified
| Deleted
| Error.

Record Event : Type := {
  ev_type : EventType;
  ev_key : string;
  ev_object : Obj;
  ev_rv : N
}.

Record Watcher : Type := {
  w_prefix : string;
  w_queue : list Event;   (* events sent on the channel, oldest first *)
  w_open : bool           (* false once cancelled or disconnected *)
}.

(** Modelled from the spec: the state of the store whose implementation
    ([store.go]) is missing.  Section 3.3 and 5: a map from hierarchical
    key strings to values, each carrying the revision of its last write,
    and one global revision counter, both behind a single mutex; watcher
    channels are per watcher.  The revision is an 8-byte counter that the
    spec declares monotonically increasing; it is a natural number here. *)
Record Store : Type := {
  data : gmap string (Obj * N);
  rev : N;
  watchers : list Watcher;
  watchBuffer : nat       (* capacity of a watcher's channel *)
}.

(** Modelled from the spec: [NewStore] of the missing [store.go]; a fresh
    store is empty and at revision 0 ([TestStore_GetCurrentResourceVersion]). *)
Definition NewStore (bufferSize : nat) : Store :=
  {| data := ∅; rev := 0; watchers := []; watchBuffer := bufferSize |}.

(** Modelled from the spec: notification of the missing [store.go]
    (section 4.2, Ordering): non-blocking per watcher; a watcher of a
    matching prefix whose buffer is full is disconnected with a terminal
    error event. *)
Definition deliver (bufferSize : nat) (ev : Event) (w : Watcher) : Watcher :=
  if w_open w && String.prefix (w_prefix w) (ev_key ev) then
    if bool_decide (length (w_queue w) < bufferSize)%nat then
      {| w_prefix := w_prefix w; w_queue := w_queue w ++ [ev]; w_open := true |}
    else
      {| w_prefix := w_prefix w;
         w_queue := w_queue w ++ [ {| ev_type := Error; ev_key := ev_key ev;
                                      ev_object := ""; ev_rv := ev_rv ev |} ];
         w_open := false |}
  else w.

Definition notifyWatchers (s : Store) (ev : Event) : list Watcher :=
  map (deliver (watchBuffer s) ev) (watchers s).

(** Modelled from the spec: the write path shared by the operations of the
    missing [store.go]: [rv = next_rv()] increments the global counter, the
    value is stored under the new revision and the watchers are notified. *)
Definition write (s : Store) (ty : EventType) (key : string) (obj : Obj) : Store * N :=
  let rv := rev s + 1 in
  let ev := {| ev_type := ty; ev_key := key; ev_object := obj; ev_rv := rv |} in
  ({| data := <[key := (obj, rv)]> (data s);
      rev := rv;
      watchers := notifyWatchers s ev;
      watchBuffer := watchBuffer s |}, rv).

(** Modelled from the spec: [Create] of the missing [store.go] (section
    4.2): fails with [AlreadyExists] if the key is present; otherwise
    assigns [rv = next_rv()], stores, notifies watchers with [Added].  The
    result is the revision set on the output object. *)
Definition Create (key : string) (obj : Obj) (s : Store) : Store * (N + StorageError) :=
  match data s !! key with
  | Some _ => (s, inr AlreadyExists)
  | None => let '(s', rv) := write s Added key obj in (s', inl rv)
  end.

(** Modelled from the spec: [Get] of the missing [store.go]: fails with
    [NotFound] if absent; returns value and rv. *)
Definition Get (key : string) (s : Store) : Obj * N + StorageError :=
  match data s !! key with
  | Some entry => inl entry
  | None => inr NotFound
  end.

(** Modelled from the spec: [GetList] of the missing [store.go]: all
    [(key, val)] with [key] starting with [prefix], plus the store's
    current rv as list-rv. *)
Definition GetList (prefix : string) (s : Store) : list (string * (Obj * N)) * N :=
  (filter (fun kv => String.prefix prefix kv.1 = true) (map_to_list (data s)), rev s).

(** The mutator handed to [GuaranteedUpdate] ([storage.UpdateFunc]): it
    receives the current object and its revision and returns the object to
    store or an error. *)
Definition UpdateFunc : Type := Obj -> N -> Obj + StorageError.

(** Modelled from the spec: [GuaranteedUpdate] of the missing [store.go]
    (section 4.2): re-read, apply mutator, write back under a single
    critical section; if the mutator's returned object equals the current
    one, no write is performed but success is returned; rv is bumped on an
    actual write; watchers are notified with [Modified].  A missing key is
    [NotFound] unless [ignoreNotFound], in which case the mutator receives
    the zero object at revision 0 (the contract of [storage.Interface]). *)
Definition GuaranteedUpdate (key : string) (tryUpdate : UpdateFunc)
    (ignoreNotFound : bool) (s : Store) : Store * (Obj * N + StorageError) :=
  match data s !! key with
  | None =>
      if ignoreNotFound then
        match tryUpdate "" 0 with
        | inr err => (s, inr err)
        | inl updated =>
            let '(s', rv) := write s Modified key updated in (s', inl (updated, rv))
        end
      else (s, inr NotFound)
  | Some (current, rv) =>
      match tryUpdate current rv with
      | inr err => (s, inr err)
      | inl updated =>
          if decide (updated = current) then (s, inl (current, rv))
          else let '(s', rv') := write s Modified key updated in (s', inl (updated, rv'))
      end
  end.

(** Modelled from the spec: [Delete] of the missing [store.go]: fails with
    [NotFound] if absent; returns the deleted value; notifies [Deleted].
    A delete is a write, so it takes the next revision. *)
Definition Delete (key : string) (s : Store) : Store * (Obj + StorageError) :=
  match data s !! key with
  | None => (s, inr NotFound)
  | Some (obj, _) =>
      let rv := rev s + 1 in
      let ev := {| ev_type := Deleted; ev_key := key; ev_object := obj; ev_rv := rv |} in
      ({| data := delete key (data s);
          rev := rv;
          watchers := notifyWatchers s ev;
          watchBuffer := watchBuffer s |}, inl obj)
  end.

(** Modelled from the spec: [Watch] of the missing [store.go]: a new,
    independent watcher for writes under [prefix] that occur after the
    watch begins; the result is the index of its channel. *)
Definition Watch (prefix : string) (s : Store) : Store * nat :=
  ({| data := data s; rev := rev s;
      watchers := watchers s ++ [ {| w_prefix := prefix; w_queue := []; w_open := true |} ];
      watchBuffer := watchBuffer s |}, length (watchers s)).

(** Modelled from the spec: cancellation closes the watcher's channel. *)
Definition closeWatcher (w : Watcher) : Watcher :=
  {| w_prefix := w_prefix w; w_queue := w_queue w; w_open := false |}.

Definition StopWatch (i : nat) (s : Store) : Store :=
  {| data := data s; rev := rev s;
     watchers := alter closeWatcher i (watchers s);
     watchBuffer := watchBuffer s |}.

(** Modelled from the spec: [Stats] returns the object count and
    [GetCurrentResourceVersion] the store's rv. *)
Definition Stats (s : Store) : nat := size (data s).

Definition GetCurrentResourceVersion (s : Store) : N := rev s.

(** *** Operations as data, for histories of calls *)

Inductive Op : Type :=
| OpCreate (key : string) (obj : Obj)
| OpGet (key : string)
| OpGetList (prefix : string)
| OpGuaranteedUpdate (key : string) (tryUpdate : UpdateFunc) (ignoreNotFound : bool)
| OpDelete (key : string)
| OpWatch (prefix : string)
| OpStopWatch (i : nat)
| OpStats
| OpCurrentRevision.

Definition apply (op : Op) (s : Store) : Store :=
  match op with
  | OpCreate key obj => (Create key obj s).1
  | OpGuaranteedUpdate key f inf => (GuaranteedUpdate key f inf s).1
  | OpDelete key => (Delete key s).1
  | OpWatch prefix => (Watch prefix s).1
  | OpStopWatch i => StopWatch i s
  | OpGet _ | OpGetList _ | OpStats | OpCurrentRevision => s
  end.

(** A call writes when it changes the stored data. *)
Definition writes (op : Op) (s : Store) : bool :=
  bool_decide (data (apply op s) <> data s).

Definition run (ops : list Op) (s : Store) : Store :=
  foldl (fun st op => apply op st) s ops.

(** *** Optimistic updaters *)

(** Modelled from the spec: the compare-and-swap on [resourceVersion]
    that every mutation uses (sections 3.1(5), 5 and 6.4), built on
    [GuaranteedUpdate]: an update carrying a stale revision is rejected
    with [Conflict], otherwise the mutation is applied to the current
    object. *)
Definition casUpdate (readRv : N) (mutate : Obj -> Obj) : UpdateFunc :=
  fun current rv => if rv =? readRv then inl (mutate current) else inr Conflict.

(** An updater has either to (re-)read the key, or holds the image it read,
    or has written. *)
Inductive UpdaterPhase : Type :=
| MustRead
| HasRead (image : Obj) (readRv : N)
| Written (rv : N).

Record Updater : Type := {
  u_phase : UpdaterPhase;
  u_reads : list N;       (* revisions read so far, oldest first *)
  u_conflicts : nat       (* Conflict errors observed so far *)
}.

(** Modelled from the spec: one atomic step of an optimistic updater
    (section 5): a conflict is retried by re-reading and re-applying the
    mutation function; the read-modify-write image is never reused across
    retries. *)
Definition updaterStep (key : string) (mutate : Obj -> Obj) (u : Updater) (s : Store)
  : Updater * Store :=
  match u_phase u with
  | MustRead =>
      match Get key s with
      | inl (obj, rv) =>
          ({| u_phase := HasRead obj rv; u_reads := u_reads u ++ [rv];
              u_conflicts := u_conflicts u |}, s)
      | inr _ => (u, s)
      end
  | HasRead _ readRv =>
      match GuaranteedUpdate key (casUpdate readRv mutate) false s with
      | (s', inl (_, rv)) =>
          ({| u_phase := Written rv; u_reads := u_reads u;
              u_conflicts := u_conflicts u |}, s')
      | (s', inr Conflict) =>
          ({| u_phase := MustRead; u_reads := u_reads u;
              u_conflicts := S (u_conflicts u) |}, s')
      | (s', inr _) => (u, s')
      end
  | Written _ => (u, s)
  end.

(** Two updaters of one key over a shared store; a schedule names, step by
    step, which of them runs next ([true] the first, [false] the second).
    [GuaranteedUpdate] being atomic, the interleavings of two concurrent
    updaters are the schedules. *)
Record Race : Type := {
  r_store : Store;
  r_first : Updater;
  r_second : Updater
}.

Definition raceStep (key : string) (f g : Obj -> Obj) (r : Race) (who : bool) : Race :=
  if who then
    let '(u, s) := updaterStep key f (r_first r) (r_store r) in
    {| r_store := s; r_first := u; r_second := r_second r |}
  else
    let '(u, s) := updaterStep key g (r_second r) (r_store r) in
    {| r_store := s; r_first := r_first r; r_second := u |}.

Definition raceRun (key : string) (f g : Obj -> Obj) (schedule : list bool) (r : Race) : Race :=
  foldl (raceStep key f g) r schedule.

(** Both updaters have read the key at the same revision. *)
Definition bothRead (s : Store) (obj : Obj) (R : N) : Race :=
  {| r_store := s;
     r_first := {| u_phase := HasRead obj R; u_reads := [R]; u_conflicts := 0 |};
     r_second := {| u_phase := HasRead obj R; u_reads := [R]; u_conflicts := 0 |} |}.

End memory.

(** ** package healthevents: the HealthEvent lifecycle engine

    The API types and the controllers are not among the sources at hand;
    the end-to-end tests of the drain and remediation controllers and the
    controllers' metrics are.  Names of phases and actions are those the
    tests use ([nvsentinelv1alpha1.PhaseQuarantined],
    [nvsentinelv1alpha1.ActionContactSupport], ...). *)

Module healthevents.

(** [PhaseEmpty] is the empty string, treated as [PhaseNew]. *)
Inductive Phase : Set :=
| PhaseEmpty
| PhaseNew
| PhaseQuarantined
| PhaseDraining
| PhaseDrained
| PhaseRemediated
| PhaseResolved.

Global Instance Phase_eq_dec : EqDecision Phase.
Proof. solve_decision. Defined.

Inductive RecommendedAction : Set :=
| ActionNoAction
| ActionRestartVM
| ActionResetGPU
| ActionContactSupport.

Record Overrides : Set := {
  quarantine_skip : bool;
  drain_skip : bool;
  remediation_skip : bool
}.

Inductive ConditionType : Set :=
| NodeQuarantined
| PodsDrained
| Remediated
| Resolved.

Global Instance ConditionType_eq_dec : EqDecision ConditionType.
Proof. solve_decision. Defined.

Inductive ConditionStatus : Set :=
| ConditionTrue
| ConditionFalse
| ConditionUnknown.

Global Instance ConditionStatus_eq_dec : EqDecision ConditionStatus.
Proof. solve_decision. Defined.

(** Instants are counted in seconds. *)
Abbreviation Time := N (only parsing).

Record Condition : Type := {
  cond_type : ConditionType;
  cond_status : ConditionStatus;
  cond_reason : string;
  lastTransitionTime : Time
}.

Record HealthEventSpec : Type := {
  source : string;
  nodeName : string;
  componentClass : string;
  checkName : string;
  isFatal : bool;
  isHealthy : bool;
  errorCodes : list N;
  recommendedAction : RecommendedAction;
  overrides : option Overrides;
  detectedAt : Time;
  message : string
}.

Record HealthEventStatus : Type := {
  phase : Phase;
  conditions : list Condition;
  resolvedAt : option Time;
  lastUpdated : Time
}.

Record HealthEvent : Type := {
  name : string;
  uid : string;
  spec : HealthEventSpec;
  status : HealthEventStatus
}.

Inductive RebootPhase : Set :=
| RebootPending
| RebootInProgress
| RebootCompleted
| RebootFailed.

Record RebootNode : Type := {
  rn_nodeName : string;
  owningHealthEventUID : string;
  createdAt : Time;
  rn_phase : RebootPhase
}.

(** *** Phase machine and conditions library (component H) *)

(** Modelled from the spec: the transition graph of section 4.9, whose
    implementation is missing:
      ""/New -> Quarantined;  Quarantined -> Draining | Drained;
      Draining -> Drained;  Drained -> Remediated;
      any non-terminal -> Resolved;  Remediated -> Resolved;
    [Resolved] is terminal. *)
Definition validTransition (from to : Phase) : bool :=
  match from, to with
  | PhaseResolved, _ => false
  | _, PhaseResolved => true
  | (PhaseEmpty | PhaseNew), PhaseQuarantined => true
  | PhaseQuarantined, (PhaseDraining | PhaseDrained) => true
  | PhaseDraining, PhaseDrained => true
  | PhaseDrained, PhaseRemediated => true
  | _, _ => false
  end.

(** Position of a phase in the order of section 3.1. *)
Definition phaseRank (p : Phase) : nat :=
  match p with
  | PhaseEmpty | PhaseNew => 0
  | PhaseQuarantined => 1
  | PhaseDraining => 2
  | PhaseDrained => 3
  | PhaseRemediated => 4
  | PhaseResolved => 5
  end.

Inductive StatusError : Set :=
| InvalidTransition.

(** Modelled from the spec: setting a condition (section 3.1, invariant 2):
    each condition type appears at most once; [lastTransitionTime] is
    updated only when the status changes. *)
Fixpoint setCondition (conds : list Condition) (ty : ConditionType)
    (st : ConditionStatus) (reason : string) (now : Time) : list Condition :=
  match conds with
  | [] => [ {| cond_type := ty; cond_status := st; cond_reason := reason;
               lastTransitionTime := now |} ]
  | c :: rest =>
      if decide (cond_type c = ty) then
        {| cond_type := ty; cond_status := st; cond_reason := reason;
           lastTransitionTime :=
             if decide (cond_status c = st) then lastTransitionTime c else now |}
        :: rest
      else c :: setCondition rest ty st reason now
  end.

Fixpoint findCondition (conds : list Condition) (ty : ConditionType) : option Condition :=
  match conds with
  | [] => None
  | c :: rest => if decide (cond_type c = ty) then Some c else findCondition rest ty
  end.

(** Modelled from the spec: the status update every controller issues
    (sections 4.4 and 4.9): a rejected transition fails the whole update
    with [InvalidTransition]; an update that keeps the phase only
    refreshes conditions.  [lastUpdated] is set on every status write. *)
Definition updateStatus (e : HealthEvent) (to : Phase) (conds : list Condition)
    (resolved : option Time) (now : Time) : HealthEvent + StatusError :=
  let from := phase (status e) in
  if bool_decide (from = to) || validTransition from to then
    inl {| name := name e; uid := uid e; spec := spec e;
           status := {| phase := to; conditions := conds;
                        resolvedAt := resolved; lastUpdated := now |} |}
  else inr InvalidTransition.

(** *** The world a HealthEvent lives in *)

Record Config : Type := {
  resolvedRetention : Time     (* ttl.resolvedRetention, default 24 h *)
}.

Definition defaultConfig : Config := {| resolvedRetention := 86400 |}.

(** One HealthEvent (absent once deleted), its node and the RebootNode
    records, which are keyed by a name derived from the event UID. *)
Record World : Type := {
  event : option HealthEvent;
  nodeUnschedulable : bool;
  cordonedBySentinel : bool;     (* the controller-owned annotation written by D *)
  otherOpenEvents : nat;         (* open HealthEvents of other faults on the node *)
  evictablePods : nat;           (* pods on the node that drain would evict *)
  rebootNodes : gmap string RebootNode;
  now : Time
}.

Definition setEvent (w : World) (e : option HealthEvent) : World :=
  {| event := e; nodeUnschedulable := nodeUnschedulable w;
     cordonedBySentinel := cordonedBySentinel w;
     otherOpenEvents := otherOpenEvents w; evictablePods := evictablePods w;
     rebootNodes := rebootNodes w; now := now w |}.

Definition setNode (w : World) (unschedulable owned : bool) : World :=
  {| event := event w; nodeUnschedulable := unschedulable;
     cordonedBySentinel := owned;
     otherOpenEvents := otherOpenEvents w; evictablePods := evictablePods w;
     rebootNodes := rebootNodes w; now := now w |}.

Definition setRebootNodes (w : World) (rns : gmap string RebootNode) : World :=
  {| event := event w; nodeUnschedulable := nodeUnschedulable w;
     cordonedBySentinel := cordonedBySentinel w;
     otherOpenEvents := otherOpenEvents w; evictablePods := evictablePods w;
     rebootNodes := rns; now := now w |}.

(** Issue a status update for the event; a failed update leaves the
    record as it was (the controller re-reads and retries later). *)
Definition writeStatus (w : World) (e : HealthEvent) (to : Phase)
    (ty : ConditionType) (st : ConditionStatus) (reason : string) : World :=
  let conds := setCondition (conditions (status e)) ty st reason (now w) in
  let resolved := if decide (to = PhaseResolved) then
                    match resolvedAt (status e) with
                    | Some t => Some t
                    | None => Some (now w)
                    end
                  else resolvedAt (status e) in
  match updateStatus e to conds resolved (now w) with
  | inl e' => setEvent w (Some e')
  | inr _ => w
  end.

Definition override (e : HealthEvent) (flag : Overrides -> bool) : bool :=
  match overrides (spec e) with
  | Some o => flag o
  | None => false
  end.

(** *** Quarantine controller (D) *)

(** Modelled from the spec: the reconcile function of the missing
    quarantine controller (section 4.5).  [nodeFound] is what the node
    lookup answered. *)
Definition reconcileQuarantine (nodeFound : bool) (w : World) : World :=
  match event w with
  | None => w
  | Some e =>
      match phase (status e) with
      | PhaseEmpty | PhaseNew =>
          if isFatal (spec e) && negb (override e quarantine_skip) then
            if nodeFound then
              (* cordoning an already-cordoned node is a no-op *)
              let w' := if nodeUnschedulable w then w else setNode w true true in
              writeStatus w' e PhaseQuarantined NodeQuarantined ConditionTrue "Quarantined"
            else
              writeStatus w e (phase (status e)) NodeQuarantined ConditionFalse "NodeMissing"
          else
            writeStatus w e PhaseQuarantined NodeQuarantined ConditionFalse "Skipped"
      | _ => w
      end
  end.

(** *** Drain controller (E) *)

(** Modelled from the spec: the reconcile function of the missing drain
    controller (section 4.6).  [blocked] tells whether an eviction was
    rejected by a PodDisruptionBudget. *)
Definition reconcileDrain (blocked : bool) (w : World) : World :=
  match event w with
  | None => w
  | Some e =>
      match phase (status e) with
      | PhaseQuarantined =>
          if override e drain_skip || bool_decide (evictablePods w = 0%nat) then
            writeStatus w e PhaseDrained PodsDrained ConditionTrue "Skipped"
          else
            writeStatus w e PhaseDraining PodsDrained ConditionUnknown "InProgress"
      | PhaseDraining =>
          if bool_decide (evictablePods w = 0%nat) then
            writeStatus w e PhaseDrained PodsDrained ConditionTrue "Drained"
          else if blocked then
            writeStatus w e PhaseDraining PodsDrained ConditionUnknown "Blocked"
          else w
      | _ => w
      end
  end.

(** *** Remediation controller (F) *)

(** The RebootNode name derived from the event UID. *)
Definition rebootNodeName (e : HealthEvent) : string := "reboot-" +:+ uid e.

(** Modelled from the spec: the skip test of section 4.7. *)
Definition remediationSkipped (e : HealthEvent) : bool :=
  match recommendedAction (spec e) with
  | ActionNoAction | ActionContactSupport => true
  | _ => override e remediation_skip
  end.

(** Modelled from the spec: the reconcile function of the missing
    remediation controller (section 4.7). *)
Definition reconcileRemediation (w : World) : World :=
  match event w with
  | None => w
  | Some e =>
      match phase (status e) with
      | PhaseDrained =>
          if remediationSkipped e then
            writeStatus w e PhaseDrained Remediated ConditionFalse "Skipped"
          else
            match rebootNodes w !! rebootNodeName e with
            | None =>
                let rn := {| rn_nodeName := nodeName (spec e);
                             owningHealthEventUID := uid e;
                             createdAt := now w;
                             rn_phase := RebootPending |} in
                let w' := setRebootNodes w (<[rebootNodeName e := rn]> (rebootNodes w)) in
                writeStatus w' e PhaseDrained Remediated ConditionUnknown "InProgress"
            | Some rn =>
                match rn_phase rn with
                | RebootCompleted =>
                    writeStatus w e PhaseRemediated Remediated ConditionTrue "Completed"
                | RebootFailed =>
                    writeStatus w e PhaseDrained Remediated ConditionFalse "Failed"
                | _ =>
                    writeStatus w e PhaseDrained Remediated ConditionUnknown "InProgress"
                end
            end
      | _ => w
      end
  end.

(** *** Publisher (C) *)

(** A producer signal carries the spec fields of a HealthEvent. *)
Definition Signal : Type := HealthEventSpec.

(** Modelled from the spec: the de-duplication signature of section 4.3,
    over (source, nodeName, checkName, sorted(errorCodes)); the tuple
    stands for its hash. *)
Definition signature (s : HealthEventSpec) : string * string * string * list N :=
  (source s, nodeName s, checkName s, merge_sort N.le (errorCodes s)).

Fixpoint appendDedup (codes new : list N) : list N :=
  match new with
  | [] => codes
  | c :: rest =>
      if decide (c ∈ codes) then appendDedup codes rest
      else appendDedup (codes ++ [c]) rest
  end.

(** Modelled from the spec: creation of a HealthEvent by the missing
    publisher (section 4.3, step 5): phase "", no conditions. *)
Definition newHealthEvent (sig : Signal) (evName evUid : string) (t : Time) : HealthEvent :=
  {| name := evName; uid := evUid; spec := sig;
     status := {| phase := PhaseEmpty; conditions := []; resolvedAt := None;
                  lastUpdated := t |} |}.

(** Modelled from the spec: what a signal does to an existing event
    (section 4.3, steps 3 and 4).  A healthy signal resolves every open
    event of the node with matching source and check (or all of the
    node's if the check name is empty); a repeated unhealthy signal
    refreshes [lastUpdated] and the error codes and does not change the
    phase; any other signal concerns another event. *)
Definition publish (sig : Signal) (w : World) : World :=
  match event w with
  | None => w
  | Some e =>
      if decide (phase (status e) = PhaseResolved) then w
      else if isHealthy sig then
        if bool_decide (nodeName sig = nodeName (spec e)) &&
           (bool_decide (checkName sig = "") ||
            (bool_decide (source sig = source (spec e)) &&
             bool_decide (checkName sig = checkName (spec e))))
        then writeStatus w e PhaseResolved Resolved ConditionTrue "Healthy"
        else w
      else if decide (signature sig = signature (spec e)) then
        let sp := spec e in
        setEvent w (Some
          {| name := name e; uid := uid e;
             spec := {| source := source sp; nodeName := nodeName sp;
                        componentClass := componentClass sp;
                        checkName := checkName sp; isFatal := isFatal sp;
                        isHealthy := isHealthy sp;
                        errorCodes := appendDedup (errorCodes sp) (errorCodes sig);
                        recommendedAction := recommendedAction sp;
                        overrides := overrides sp; detectedAt := detectedAt sp;
                        message := message sp |};
             status := {| phase := phase (status e);
                          conditions := conditions (status e);
                          resolvedAt := resolvedAt (status e);
                          lastUpdated := now w |} |})
      else w
  end.

(** *** TTL / resolution controller (G) *)

(** Modelled from the spec: the reconcile function of the missing TTL
    controller (section 4.8): a resolved event is deleted once the
    retention has elapsed since [resolvedAt]; when the event is gone or
    resolved and no other open event targets the node, a node cordoned by
    NVSentinel alone is uncordoned. *)
Definition reconcileTTL (cfg : Config) (w : World) : World :=
  let w1 :=
    match event w with
    | Some e =>
        match phase (status e), resolvedAt (status e) with
        | PhaseResolved, Some t =>
            if bool_decide (t + resolvedRetention cfg <= now w)
            then setEvent w None else w
        | _, _ => w
        end
    | None => w
    end in
  let settled :=
    match event w1 with
    | None => true
    | Some e => bool_decide (phase (status e) = PhaseResolved)
    end in
  if settled && bool_decide (otherOpenEvents w1 = 0%nat) && cordonedBySentinel w1
  then setNode w1 false false
  else w1.

(** *** Operational histories *)

(** What can happen to a HealthEvent: a controller reconciles, a producer
    signal arrives, or the environment moves (a pod leaves the node, the
    external reboot executor reports, time passes). *)
Inductive Action : Type :=
| ReconcileQuarantine (nodeFound : bool)
| ReconcileDrain (blocked : bool)
| ReconcileRemediation
| ReconcileTTL
| Publish (sig : Signal)
| PodEvicted
| RebootReport (rnName : string) (p : RebootPhase)
| Tick (seconds : N).

Definition step (cfg : Config) (w : World) (a : Action) : World :=
  match a with
  | ReconcileQuarantine nodeFound => reconcileQuarantine nodeFound w
  | ReconcileDrain blocked => reconcileDrain blocked w
  | ReconcileRemediation => reconcileRemediation w
  | ReconcileTTL => reconcileTTL cfg w
  | Publish sig => publish sig w
  | PodEvicted =>
      {| event := event w; nodeUnschedulable := nodeUnschedulable w;
         cordonedBySentinel := cordonedBySentinel w;
         otherOpenEvents := otherOpenEvents w;
         evictablePods := pred (evictablePods w);
         rebootNodes := rebootNodes w; now := now w |}
  | RebootReport rnName p =>
      setRebootNodes w
        (alter (fun rn => {| rn_nodeName := rn_nodeName rn;
                             owningHealthEventUID := owningHealthEventUID rn;
                             createdAt := createdAt rn; rn_phase := p |})
               rnName (rebootNodes w))
  | Tick seconds =>
      {| event := event w; nodeUnschedulable := nodeUnschedulable w;
         cordonedBySentinel := cordonedBySentinel w;
         otherOpenEvents := otherOpenEvents w; evictablePods := evictablePods w;
         rebootNodes := rebootNodes w; now := now w + seconds |}
  end.

Definition run (cfg : Config) (history : list Action) (w : World) : World :=
  foldl (step cfg) w history.

(** The phase of the event, while the record exists. *)
Definition phaseOf (w : World) : option Phase :=
  phase ∘ status <$> event w.

(** The world right after the publisher created [e]. *)
Definition created (e : HealthEvent) (pods : nat) (t : Time) : World :=
  {| event := Some e; nodeUnschedulable := false; cordonedBySentinel := false;
     otherOpenEvents := 0%nat; evictablePods := pods; rebootNodes := ∅; now := t |}.

End healthevents.

(** ** Notions the theorems are stated with *)

(** The codes of the two classification tables and the codes that only
    the description table knows. *)
Definition ignoredCodes : list N := [13; 31; 43; 45; 68; 109].
Definition criticalCodes : list N := [48; 63; 64; 74; 79; 94; 95; 119; 120].
Definition describedOnlyCodes : list N := [8; 32; 38; 56; 57; 62; 69].

(** A token parses as an unsigned integer when it is a non-empty run of
    decimal digits whose value fits 64 bits. *)
Definition isDigit (ch : ascii) : bool :=
  (48 <=? N_of_ascii ch) && (N_of_ascii ch <=? 57).

Fixpoint allDigits (s : string) : bool :=
  match s with
  | EmptyString => true
  | String ch rest => isDigit ch && allDigits rest
  end.

Fixpoint decimalValue (acc : N) (s : string) : N :=
  match s with
  | EmptyString => acc
  | String ch rest => decimalValue (acc * 10 + (N_of_ascii ch - 48)) rest
  end.

Definition parsesAsUint64 (tok : string) : option N :=
  match tok with
  | EmptyString => None
  | _ => if allDigits tok && (decimalValue 0 tok <? 2 ^ 64)
         then Some (decimalValue 0 tok) else None
  end.

(** Splitting a string on separators: [Fields sep s toks] holds when
    [toks] are, in order, the maximal non-empty runs of non-separator
    bytes of [s]. *)
Fixpoint sepFree (sep : ascii -> bool) (s : string) : bool :=
  match s with
  | EmptyString => true
  | String ch rest => negb (sep ch) && sepFree sep rest
  end.

Definition atBoundary (sep : ascii -> bool) (s : string) : bool :=
  match s with
  | EmptyString => true
  | String ch _ => sep ch
  end.

Inductive Fields (sep : ascii -> bool) : string -> list string -> Prop :=
| Fields_end : Fields sep "" []
| Fields_sep ch s toks :
    sep ch = true -> Fields sep s toks -> Fields sep (String ch s) toks
| Fields_tok tok s toks :
    tok <> ""%string -> sepFree sep tok = true -> atBoundary sep s = true ->
    Fields sep s toks -> Fields sep (tok +:+ s) (tok :: toks).

(** The number of calls of a history that write, counted along the run. *)
Fixpoint countWrites (ops : list memory.Op) (s : memory.Store) : N :=
  match ops with
  | [] => 0
  | op :: rest =>
      (if memory.writes op s then 1 else 0) + countWrites rest (memory.apply op s)
  end.

(** The race of two optimistic updaters in closed form.  Both have read
    [key] at revision [R], holding [v], in a store [s]; the one scheduled
    first ([who]) wins: it writes the store's next revision, [rev s + 1],
    without a conflict.  The other one then needs three steps of its own:
    it observes [Conflict], re-reads the winner's revision, and re-applies
    its mutation; that writes revision [rev s + 2] when the mutation
    changes the winner's object ([retried] differs from [won]) and writes
    nothing otherwise.  [raceExpected] is the state this predicts after a
    schedule, the loser's progress being the number of steps it was given
    after the winner's write. *)
Definition loserSteps (who : bool) (rest : list bool) : nat :=
  length (filter (fun b => b <> who) rest).

Definition loserAt (v : string) (R S : N) (won retried : string)
    (s1 s2 : memory.Store) (n : nat) : memory.Updater * memory.Store :=
  match n with
  | 0%nat => ({| memory.u_phase := memory.HasRead v R;
                 memory.u_reads := [R]; memory.u_conflicts := 0 |}, s1)
  | 1%nat => ({| memory.u_phase := memory.MustRead;
                 memory.u_reads := [R]; memory.u_conflicts := 1 |}, s1)
  | 2%nat => ({| memory.u_phase := memory.HasRead won (S + 1);
                 memory.u_reads := [R; S + 1]; memory.u_conflicts := 1 |}, s1)
  | _ =>
      if decide (retried = won)
      then ({| memory.u_phase := memory.Written (S + 1);
               memory.u_reads := [R; S + 1]; memory.u_conflicts := 1 |}, s1)
      else ({| memory.u_phase := memory.Written (S + 2);
               memory.u_reads := [R; S + 1]; memory.u_conflicts := 1 |}, s2)
  end.

Definition raceExpected (s : memory.Store) (key : string) (v : string) (R : N)
    (f g : string -> string) (schedule : list bool) : memory.Race :=
  match schedule with
  | [] => memory.bothRead s v R
  | who :: rest =>
      let fw := if who then f else g in
      let fl := if who then g else f in
      let s1 := (memory.write s memory.Modified key (fw v)).1 in
      let s2 := (memory.write s1 memory.Modified key (fl (fw v))).1 in
      let winner := {| memory.u_phase := memory.Written (memory.rev s + 1);
                       memory.u_reads := [R]; memory.u_conflicts := 0 |} in
      let '(loser, st) :=
        loserAt v R (memory.rev s) (fw v) (fl (fw v)) s1 s2 (loserSteps who rest) in
      if who then {| memory.r_store := st; memory.r_first := winner;
                     memory.r_second := loser |}
      else {| memory.r_store := st; memory.r_first := loser;
              memory.r_second := winner |}
  end.

(** A mutation in the manner of the one in [TestStore_GuaranteedUpdate],
    which sets a label on the object: objects being opaque here, the
    label is a marker in front of the object.  Setting the label on an
    object that has it changes nothing. *)
Definition setLabel (obj : string) : string :=
  if String.prefix "labelled:" obj then obj else ("labelled:" +:+ obj)%string.

(** Every stored revision is at most the store's counter. *)
Definition revisionsBounded (s : memory.Store) : Prop :=
  forall key obj rv, memory.data s !! key = Some (obj, rv) -> rv <= memory.rev s.

Section LifecycleNotions.
Import healthevents.

(** One step of a history, seen from the phase: the record is gone, or
    its phase is kept, or it moved along an edge of the transition graph.
    A deleted record does not come back. *)
Definition phaseStep (w w' : World) : Prop :=
  match phaseOf w, phaseOf w' with
  | _, None => True
  | None, Some _ => False
  | Some p, Some p' => p' = p \/ validTransition p p' = true
  end.


(** Which action may move an event to a phase (section 3.1, invariant 4):
    each controller owns the transitions out of its precondition phase, and
    only a healthy signal resolves. *)
Definition transitionOwner (a : Action) (e : HealthEvent)
    (w : World) (to : Phase) : Prop :=
  match to with
  | PhaseQuarantined =>
      exists nodeFound, a = ReconcileQuarantine nodeFound
  | PhaseDraining | PhaseDrained =>
      exists blocked, a = ReconcileDrain blocked
  | PhaseRemediated =>
      a = ReconcileRemediation /\
      remediationSkipped e = false /\
      exists rn,
        rebootNodes w !! rebootNodeName e = Some rn /\
        rn_phase rn = RebootCompleted
  | PhaseResolved =>
      exists sig, a = Publish sig /\ isHealthy sig = true
  | _ => False
  end.

(** What one step does to an existing record: it deletes it, or keeps its
    identity and its remediation policy, keeps its phase or moves it along
    an edge of the graph that the acting component owns, and keeps its
    conditions or sets one of them. *)
Definition stepOutcome (a : Action) (w : World) (e : HealthEvent)
    (o : option HealthEvent) : Prop :=
  match o with
  | None => True
  | Some e' =>
      uid e' = uid e /\
      remediationSkipped e' = remediationSkipped e /\
      (phase (status e') = phase (status e) \/
       (validTransition (phase (status e)) (phase (status e')) = true /\
        transitionOwner a e w (phase (status e')))) /\
      (conditions (status e') = conditions (status e) \/
       exists ty st reason t,
         conditions (status e') = setCondition (conditions (status e)) ty st reason t /\
         (ty = Remediated -> remediationSkipped e = true ->
          st = ConditionFalse /\ reason = "Skipped"%string))
  end.


(** Scenario S2: a fatal signal with an unsupported code, for which the
    producer recommends contacting support, and a history that takes the
    event through quarantine and drain, lets the remediation controller
    reconcile, and ends with a healthy signal. *)
Definition s2Signal : Signal :=
  {| source := "e2e"; nodeName := "n1"; componentClass := "GPU";
     checkName := "GpuXidError"; isFatal := true; isHealthy := false;
     errorCodes := [145]; recommendedAction := ActionContactSupport;
     overrides := None; detectedAt := 0; message := "XID error occurred" |}.

Definition s2Healthy : Signal :=
  {| source := "e2e"; nodeName := "n1"; componentClass := "GPU";
     checkName := "GpuXidError"; isFatal := false; isHealthy := true;
     errorCodes := []; recommendedAction := ActionNoAction;
     overrides := None; detectedAt := 0; message := "" |}.

Definition s2Drained : list Action :=
  [ ReconcileQuarantine true; ReconcileDrain false; ReconcileRemediation;
    PodEvicted; ReconcileDrain false ].

Definition s2History : list Action :=
  s2Drained ++
  [ ReconcileRemediation; RebootReport "reboot-u1" RebootCompleted;
    ReconcileRemediation; Tick 60; ReconcileRemediation; Publish s2Healthy ].

End LifecycleNotions.

(** ** package nvml: the copy of the default set *)

(** [DefaultIgnoredXidsList] copies [defaultIgnoredXids] entry by entry in a
    [range] loop.  Go ranges over a map in an unspecified order; [entries]
    is the order in which one execution of the loop visits the map. *)
Definition DefaultIgnoredXidsList_range (entries : list (N * bool)) : gmap N bool :=
  foldl (fun out kv => <[kv.1 := kv.2]> out) ∅ entries.

(** ** package gang, continued *)

Module gang_members.
Import gang.

Section Members.
Context {Ctx : Type}.

(** [*CompositeGangDiscoverer] implements [GangDiscoverer]: a composite
    can itself be a member of a composite. *)
Definition Composite_asDiscoverer (c : CompositeGangDiscoverer Ctx) : GangDiscoverer Ctx := {|
  Name := Composite_Name c;
  CanHandle := Composite_CanHandle c;
  ExtractGangID := Composite_ExtractGangID c;
  DiscoverPeers := Composite_DiscoverPeers c
|}.

End Members.

(** The [PeerInfo] the discoverers build from a listed pod. *)
Definition peerOf (p : Pod) : PeerInfo :=
  {| PodName := pod_Name p; PodIP := pod_PodIP p;
     NodeName := pod_NodeName p; Namespace := pod_Namespace p |}.

(** A pod counts as a gang member while it is running or pending. *)
Definition isLive (p : Pod) : Prop :=
  pod_Phase p = PodRunning \/ pod_Phase p = PodPending.

(** The value of the Kueue workload-name label, when the pod has one. *)
Definition kueueWorkload (pod : Pod) : option string :=
  pod_Labels pod ≫= (.!! KueueWorkloadNameLabel).

Global Instance PodPhase_eq_dec : EqDecision PodPhase.
Proof. solve_decision. Defined.

Global Instance isLive_dec p : Decision (isLive p).
Proof. unfold isLive. apply _. Defined.

(** GangInfo as the Volcano and label discoverers fill it: there
    [ExpectedMinCount] is an [int] taken from a PodGroup or a label, which
    need not be a length. *)
Record GangInfoInt : Type := {
  gi_GangID : string;
  gi_ExpectedMinCount : Z;
  gi_Peers : list PeerInfo
}.

Definition VolcanoQueueNameAnnotation : string := "volcano.sh/queue-name".
Definition DefaultGangIDLabel : string := "app.kubernetes.io/gang-id".
Definition DefaultGangSizeLabel : string := "app.kubernetes.io/gang-size".

(** [m[k]] on a possibly nil [map[string]string]: the empty string when
    the map is nil or the key is missing. *)
Definition index_string (m : option (gmap string string)) (k : string) : string :=
  default ""%string (m ≫= (.!! k)).

(** A listed pod is a peer for the Volcano discoverer of package gang when
    its annotations are not nil, its pod-group annotation reads
    [podGroupName], and it is running or pending. *)
Definition inPodGroup (podGroupName : string) (p : Pod) : Prop :=
  is_Some (pod_Annotations p) /\
  index_string (pod_Annotations p) VolcanoPodGroupAnnotation = podGroupName /\
  isLive p.

Global Instance inPodGroup_dec podGroupName p : Decision (inPodGroup podGroupName p).
Proof. unfold inPodGroup. apply _. Defined.

Section Clients.
Context {Ctx : Type}.

(** [kubeClient.CoreV1().Pods(namespace).List(ctx, metav1.ListOptions{})]. *)
Definition NamespaceLister : Type := Ctx -> string -> list Pod + string.

(** What [unstructured.NestedInt64(obj, "spec", "minMember")] finds in a
    fetched PodGroup: a value, nothing, or a field of another type. *)
Inductive MinMemberField : Type :=
| MinMemberValue (minMember : Z)
| MinMemberAbsent
| MinMemberInvalid (err : string).

(** [dynamicClient.Resource(VolcanoPodGroupGVR).Namespace(ns).Get(ctx, name)],
    the fetched object being represented by its [spec.minMember] field; a
    nil client is [None]. *)
Definition PodGroupClient : Type :=
  option (Ctx -> string -> string -> MinMemberField + string).

(** *** VolcanoDiscoverer of package gang *)

Definition Volcano_CanHandle (pod : Pod) : bool :=
  match pod_Annotations pod with
  | None => false
  | Some annotations => bool_decide (is_Some (annotations !! VolcanoPodGroupAnnotation))
  end.

Definition Volcano_ExtractGangID (pod : Pod) : string :=
  match pod_Annotations pod with
  | None => ""
  | Some annotations =>
      let podGroupName := default ""%string (annotations !! VolcanoPodGroupAnnotation) in
      if decide (podGroupName = ""%string) then ""
      else "volcano-" +:+ pod_Namespace pod +:+ "-" +:+ podGroupName
  end%string.

(** [getPodGroupMinMember] returns an [int] next to its error; the value
    is 0 whenever there is an error. *)
Definition getPodGroupMinMember (dynamicClient : PodGroupClient) (ctx : Ctx)
    (namespace name : string) : Z * option string :=
  match dynamicClient with
  | None => (0%Z, Some "dynamic client not configured"%string)
  | Some get =>
      match get ctx namespace name with
      | inr err =>
          (0%Z, Some ("failed to get PodGroup " +:+ namespace +:+ "/" +:+ name
                        +:+ ": " +:+ err)%string)
      | inl (MinMemberInvalid err) =>
          (0%Z, Some ("failed to extract minMember from PodGroup: " +:+ err)%string)
      | inl MinMemberAbsent => (0%Z, None)
      | inl (MinMemberValue minMember) => (minMember, None)
      end
  end.

(** The loop over [pods.Items] of [DiscoverPeers]. *)
Fixpoint Volcano_peers (podGroupName : string) (items : list Pod) : list PeerInfo :=
  match items with
  | [] => []
  | p :: rest =>
      match pod_Annotations p with
      | None => Volcano_peers podGroupName rest
      | Some annotations =>
          if decide (default ""%string (annotations !! VolcanoPodGroupAnnotation)
                     <> podGroupName)
          then Volcano_peers podGroupName rest
          else
            match pod_Phase p with
            | PodRunning | PodPending =>
                {| PodName := pod_Name p; PodIP := pod_PodIP p;
                   NodeName := pod_NodeName p; Namespace := pod_Namespace p |}
                :: Volcano_peers podGroupName rest
            | _ => Volcano_peers podGroupName rest
            end
      end
  end.

Definition Volcano_DiscoverPeers (kubeClient : NamespaceLister)
    (dynamicClient : PodGroupClient) (ctx : Ctx) (pod : Pod)
  : option GangInfoInt * option string :=
  if negb (Volcano_CanHandle pod) then (None, None)
  else
    let podGroupName := index_string (pod_Annotations pod) VolcanoPodGroupAnnotation in
    let gangID := Volcano_ExtractGangID pod in
    (* a failed PodGroup lookup is logged, the count is then 0 *)
    let expectedCount :=
      (getPodGroupMinMember dynamicClient ctx (pod_Namespace pod) podGroupName).1 in
    match kubeClient ctx (pod_Namespace pod) with
    | inr err =>
        (None, Some ("failed to list pods in namespace " +:+ pod_Namespace pod
                       +:+ ": " +:+ err)%string)
    | inl items =>
        let peers := Volcano_peers podGroupName items in
        match peers with
        | [] => (None, None)
        | _ =>
            let expectedCount :=
              if decide (expectedCount = 0%Z) then Z.of_nat (length peers)
              else expectedCount in
            (Some {| gi_GangID := gangID; gi_ExpectedMinCount := expectedCount;
                     gi_Peers := peers |}, None)
        end
    end.

End Clients.

Arguments NamespaceLister : clear implicits.
Arguments PodGroupClient : clear implicits.

End gang_members.

(** ** strconv.Atoi, called by the label discoverer

    Modelled after the Go implementation on a 64-bit target ([intSize] is
    64): a fast path for strings shorter than 19 bytes and [ParseInt]
    otherwise.  [int] and [int64] are integers with the wrap-around at
    [2^63] written out. *)

Module strconv_int.

Definition toInt64 (z : Z) : Z := ((z + 2 ^ 63) mod 2 ^ 64 - 2 ^ 63)%Z.

(** [ParseInt(s, base, bitSize)]; a [bitSize] of 0 stands for [IntSize],
    which [ParseUint] substitutes as well. *)
Definition ParseInt (s : string) (base bitSize : N) : Z + strconv.NumError :=
  match s with
  | EmptyString => inr strconv.ErrSyntax
  | String first rest =>
      (* Pick off leading sign. *)
      let neg := Ascii.eqb first "-" in
      let digits := if Ascii.eqb first "+" || Ascii.eqb first "-" then rest else s in
      let bitSize := if bitSize =? 0 then 64 else bitSize in
      (* Convert unsigned and check range. *)
      match strconv.ParseUint digits base bitSize with
      | inr strconv.ErrSyntax => inr strconv.ErrSyntax
      | parsed =>
          let un := match parsed with
                    | inl v => v
                    | inr _ => strconv.wrap64 (N.shiftl 1 bitSize - 1)
                    end in
          let cutoff := strconv.wrap64 (N.shiftl 1 (bitSize - 1)) in
          if negb neg && (cutoff <=? un) then inr strconv.ErrRange
          else if neg && (cutoff <? un) then inr strconv.ErrRange
          else
            let n := toInt64 (Z.of_N un) in
            inl (if neg then toInt64 (- n) else n)
      end
  end.

(** The digit loop of the fast path: [ch -= '0'] is a byte subtraction. *)
Fixpoint Atoi_loop (s : string) (n : Z) : Z + strconv.NumError :=
  match s with
  | EmptyString => inl n
  | String ch rest =>
      let ch := (N_of_ascii ch + 256 - 48) mod 256 in
      if 9 <? ch then inr strconv.ErrSyntax
      else Atoi_loop rest (toInt64 (n * 10 + Z.of_N ch))
  end.

Definition Atoi (s : string) : Z + strconv.NumError :=
  let sLen := String.length s in
  match s with
  | String first rest =>
      if bool_decide (sLen < 19)%nat then
        (* Fast path for small integers that fit int type. *)
        let signed := Ascii.eqb first "-" || Ascii.eqb first "+" in
        let digits := if signed then rest else s in
        if signed && bool_decide (String.length digits < 1)%nat
        then inr strconv.ErrSyntax
        else
          match Atoi_loop digits 0 with
          | inr err => inr err
          | inl n => inl (if Ascii.eqb first "-" then toInt64 (- n) else n)
          end
      else
        (* Slow path for invalid, big, or underscored integers. *)
        ParseInt s 10 0
  | EmptyString => ParseInt s 10 0
  end.

End strconv_int.

(** ** package gang, continued: the label discoverer *)

Module gang_labels.
Import gang gang_members.

Record LabelDiscovererConfig : Type := {
  GangIDLabel : string;
  GangSizeLabel : string
}.

Definition DefaultLabelDiscovererConfig : LabelDiscovererConfig :=
  {| GangIDLabel := DefaultGangIDLabel; GangSizeLabel := DefaultGangSizeLabel |}.

Section Labels.
Context {Ctx : Type}.

Record LabelDiscoverer : Type := {
  kubeClient : PodLister Ctx;
  config : LabelDiscovererConfig
}.

Definition NewLabelDiscoverer (client : PodLister Ctx) (cfg : LabelDiscovererConfig)
  : LabelDiscoverer :=
  let cfg := if decide (GangIDLabel cfg = ""%string)
             then {| GangIDLabel := DefaultGangIDLabel;
                     GangSizeLabel := GangSizeLabel cfg |}
             else cfg in
  let cfg := if decide (GangSizeLabel cfg = ""%string)
             then {| GangIDLabel := GangIDLabel cfg;
                     GangSizeLabel := DefaultGangSizeLabel |}
             else cfg in
  {| kubeClient := client; config := cfg |}.

Definition Label_CanHandle (l : LabelDiscoverer) (pod : Pod) : bool :=
  match pod_Labels pod with
  | None => false
  | Some labels => bool_decide (is_Some (labels !! GangIDLabel (config l)))
  end.

Definition Label_ExtractGangID (l : LabelDiscoverer) (pod : Pod) : string :=
  match pod_Labels pod with
  | None => ""
  | Some labels =>
      let gangID := default ""%string (labels !! GangIDLabel (config l)) in
      if decide (gangID = ""%string) then ""
      else "labels-" +:+ pod_Namespace pod +:+ "-" +:+ gangID
  end%string.

(** The expected size read from the pod's size label: 0 unless the label
    is a positive integer. *)
Definition Label_expectedCount (l : LabelDiscoverer) (pod : Pod) : Z :=
  let sizeStr := index_string (pod_Labels pod) (GangSizeLabel (config l)) in
  if decide (sizeStr <> ""%string) then
    match strconv_int.Atoi sizeStr with
    | inl size => if (0 <? size)%Z then size else 0%Z
    | inr _ => 0%Z
    end
  else 0%Z.

(** The loop over [pods.Items] of [DiscoverPeers]. *)
Fixpoint Label_peers (items : list Pod) : list PeerInfo :=
  match items with
  | [] => []
  | p :: rest =>
      match pod_Phase p with
      | PodRunning | PodPending =>
          {| PodName := pod_Name p; PodIP := pod_PodIP p;
             NodeName := pod_NodeName p; Namespace := pod_Namespace p |}
          :: Label_peers rest
      | _ => Label_peers rest
      end
  end.

Definition Label_DiscoverPeers (l : LabelDiscoverer) (ctx : Ctx) (pod : Pod)
  : option GangInfoInt * option string :=
  if negb (Label_CanHandle l pod) then (None, None)
  else
    let gangLabelValue := index_string (pod_Labels pod) (GangIDLabel (config l)) in
    let gangID := Label_ExtractGangID l pod in
    let expectedCount := Label_expectedCount l pod in
    match kubeClient l ctx (pod_Namespace pod) (GangIDLabel (config l)) gangLabelValue with
    | inr err =>
        (None, Some ("failed to list pods with selector " +:+ GangIDLabel (config l)
                       +:+ "=" +:+ gangLabelValue +:+ ": " +:+ err)%string)
    | inl items =>
        let peers := Label_peers items in
        match peers with
        | [] => (None, None)
        | _ =>
            let expectedCount :=
              if decide (expectedCount = 0%Z) then Z.of_nat (length peers)
              else expectedCount in
            (Some {| gi_GangID := gangID; gi_ExpectedMinCount := expectedCount;
                     gi_Peers := peers |}, None)
        end
    end.

End Labels.

Arguments LabelDiscoverer : clear implicits.

End gang_labels.

(** An optionally signed decimal numeral that fits [int64], read as an
    integer. *)
Definition parsesAsInt64 (s : string) : option Z :=
  match s with
  | EmptyString => None
  | String first rest =>
      let digits := if Ascii.eqb first "+" || Ascii.eqb first "-" then rest else s in
      match digits with
      | EmptyString => None
      | _ =>
          if allDigits digits then
            let v := Z.of_N (decimalValue 0 digits) in
            if Ascii.eqb first "-"
            then (if (v <=? 2 ^ 63)%Z then Some (- v)%Z else None)
            else (if (v <? 2 ^ 63)%Z then Some v else None)
          else None
      end
  end.

(** ** package discoverer: the Volcano discoverer of the preset-based
    generation *)

Module discoverer.
Import gang gang_members.

Definition SchedulingGroupNameAnnotation : string := "scheduling.k8s.io/group-name".
Definition VolcanoJobNameLabel : string := "volcano.sh/job-name".

(** [getPodGroupName]: the pod-group annotation, else the group-name
    annotation, else the job-name label; an empty value counts as absent. *)
Definition getPodGroupName (pod : Pod) : string :=
  let fromAnnotations :=
    match pod_Annotations pod with
    | Some annotations =>
        let name := default ""%string (annotations !! VolcanoPodGroupAnnotation) in
        if decide (name <> ""%string) then name
        else
          let name := default ""%string (annotations !! SchedulingGroupNameAnnotation) in
          if decide (name <> ""%string) then name else ""%string
    | None => ""%string
    end in
  if decide (fromAnnotations <> ""%string) then fromAnnotations
  else
    match pod_Labels pod with
    | Some labels =>
        let name := default ""%string (labels !! VolcanoJobNameLabel) in
        if decide (name <> ""%string) then name else ""%string
    | None => ""%string
    end.

Definition CanHandle (pod : Pod) : bool :=
  bool_decide (getPodGroupName pod <> ""%string).

Definition ExtractGangID (pod : Pod) : string :=
  let podGroupName := getPodGroupName pod in
  if decide (podGroupName = ""%string) then ""%string
  else ("volcano-" +:+ pod_Namespace pod +:+ "-" +:+ podGroupName)%string.

(** The loop over [pods.Items] of [DiscoverPeers]. *)
Fixpoint peersOf (podGroupName : string) (items : list Pod) : list PeerInfo :=
  match items with
  | [] => []
  | p :: rest =>
      if decide (getPodGroupName p <> podGroupName) then peersOf podGroupName rest
      else
        match pod_Phase p with
        | PodRunning | PodPending =>
            {| PodName := pod_Name p; PodIP := pod_PodIP p;
               NodeName := pod_NodeName p; Namespace := pod_Namespace p |}
            :: peersOf podGroupName rest
        | _ => peersOf podGroupName rest
        end
  end.

(** A listed pod is a peer when its pod-group name is [podGroupName] and
    it is running or pending. *)
Definition inNamedGroup (podGroupName : string) (p : Pod) : Prop :=
  getPodGroupName p = podGroupName /\ isLive p.

Global Instance inNamedGroup_dec podGroupName p : Decision (inNamedGroup podGroupName p).
Proof. unfold inNamedGroup. apply _. Defined.

Section Clients.
Context {Ctx : Type}.

Definition DiscoverPeers (kubeClient : NamespaceLister Ctx)
    (dynamicClient : PodGroupClient Ctx) (ctx : Ctx) (pod : Pod)
  : option GangInfoInt * option string :=
  let podGroupName := getPodGroupName pod in
  if decide (podGroupName = ""%string) then (None, None)
  else
    let gangID := ExtractGangID pod in
    let expectedCount :=
      (getPodGroupMinMember dynamicClient ctx (pod_Namespace pod) podGroupName).1 in
    match kubeClient ctx (pod_Namespace pod) with
    | inr err =>
        (None, Some ("failed to list pods in namespace " +:+ pod_Namespace pod
                       +:+ ": " +:+ err)%string)
    | inl items =>
        let peers := peersOf podGroupName items in
        match peers with
        | [] => (None, None)
        | _ =>
            let expectedCount :=
              if decide (expectedCount = 0%Z) then Z.of_nat (length peers)
              else expectedCount in
            (Some {| gi_GangID := gangID; gi_ExpectedMinCount := expectedCount;
                     gi_Peers := peers |}, None)
        end
    end.

End Clients.

End discoverer.

(** ** package discoverer: the workloadRef discoverer *)

Module workloadref.
Import gang gang_members.

(** [corev1.WorkloadReference], the fields read. *)
Record WorkloadReference : Type := {
  wr_Name : string;
  wr_PodGroup : string
}.

(** A pod with its [Spec.WorkloadRef], which may be nil ([None]). *)
Record WorkloadPod : Type := {
  wp_Pod :> Pod;
  wp_WorkloadRef : option WorkloadReference
}.

(** A pod group of a fetched Workload: its name and the [MinCount] of its
    gang policy, [Policy.Gang] being possibly nil ([None]). *)
Record WorkloadPodGroup : Type := {
  pg_Name : string;
  pg_Gang : option Z
}.

Definition getWorkloadRefName (pod : WorkloadPod) : string :=
  match wp_WorkloadRef pod with
  | Some ref => wr_Name ref
  | None => ""%string
  end.

Definition getWorkloadRefPodGroup (pod : WorkloadPod) : string :=
  match wp_WorkloadRef pod with
  | Some ref => wr_PodGroup ref
  | None => ""%string
  end.

Definition CanHandle (pod : WorkloadPod) : bool :=
  bool_decide (getWorkloadRefName pod <> ""%string).

Definition ExtractGangID (pod : WorkloadPod) : string :=
  let workloadName := getWorkloadRefName pod in
  let podGroup := getWorkloadRefPodGroup pod in
  if decide (workloadName = ""%string) then ""%string
  else if decide (podGroup <> ""%string)
  then ("kubernetes-" +:+ pod_Namespace pod +:+ "-" +:+ workloadName
          +:+ "-" +:+ podGroup)%string
  else ("kubernetes-" +:+ pod_Namespace pod +:+ "-" +:+ workloadName)%string.

(** The loop over [workload.Spec.PodGroups] of [getWorkloadMinCount]. *)
Fixpoint getWorkloadMinCount_loop (podGroup : string) (podGroups : list WorkloadPodGroup)
  : Z :=
  match podGroups with
  | [] => 0%Z
  | pg :: rest =>
      if decide (podGroup <> ""%string /\ pg_Name pg <> podGroup)
      then getWorkloadMinCount_loop podGroup rest
      else
        match pg_Gang pg with
        | Some minCount => minCount
        | None => getWorkloadMinCount_loop podGroup rest
        end
  end.

(** The loop over [pods.Items] of [DiscoverPeers]. *)
Fixpoint peersOf (workloadName podGroup : string) (items : list WorkloadPod)
  : list PeerInfo :=
  match items with
  | [] => []
  | p :: rest =>
      let pWorkloadName := getWorkloadRefName p in
      let pPodGroup := getWorkloadRefPodGroup p in
      if decide (pWorkloadName <> workloadName) then peersOf workloadName podGroup rest
      else if decide (podGroup <> ""%string /\ pPodGroup <> podGroup)
      then peersOf workloadName podGroup rest
      else
        match pod_Phase p with
        | PodRunning | PodPending =>
            {| PodName := pod_Name p; PodIP := pod_PodIP p;
               NodeName := pod_NodeName p; Namespace := pod_Namespace p |}
            :: peersOf workloadName podGroup rest
        | _ => peersOf workloadName podGroup rest
        end
  end.

(** A listed pod is a peer when it names the same workload, belongs to
    [podGroup] if one is asked for, and is running or pending. *)
Definition inWorkload (workloadName podGroup : string) (p : WorkloadPod) : Prop :=
  getWorkloadRefName p = workloadName /\
  (podGroup = ""%string \/ getWorkloadRefPodGroup p = podGroup) /\
  isLive p.

Global Instance inWorkload_dec workloadName podGroup p :
  Decision (inWorkload workloadName podGroup p).
Proof. unfold inWorkload. apply _. Defined.

(** The pod groups that [getWorkloadMinCount] considers for [podGroup]:
    all of them when no pod group is asked for. *)
Definition groupMatches (podGroup : string) (pg : WorkloadPodGroup) : Prop :=
  podGroup = ""%string \/ pg_Name pg = podGroup.

Global Instance groupMatches_dec podGroup pg : Decision (groupMatches podGroup pg).
Proof. unfold groupMatches. apply _. Defined.

Section Clients.
Context {Ctx : Type}.

(** [kubeClient.CoreV1().Pods(namespace).List(ctx, metav1.ListOptions{})]. *)
Definition WorkloadPodLister : Type := Ctx -> string -> list WorkloadPod + string.

(** [kubeClient.SchedulingV1alpha1().Workloads(namespace).Get(ctx, name)],
    the fetched Workload being represented by its [Spec.PodGroups]. *)
Definition WorkloadClient : Type := Ctx -> string -> string -> list WorkloadPodGroup + string.

Definition getWorkloadMinCount (workloads : WorkloadClient) (ctx : Ctx)
    (namespace name podGroup : string) : Z * option string :=
  match workloads ctx namespace name with
  | inr err =>
      (0%Z, Some ("failed to get Workload " +:+ namespace +:+ "/" +:+ name
                    +:+ ": " +:+ err)%string)
  | inl podGroups => (getWorkloadMinCount_loop podGroup podGroups, None)
  end.

Definition DiscoverPeers (kubeClient : WorkloadPodLister) (workloads : WorkloadClient)
    (ctx : Ctx) (pod : WorkloadPod) : option GangInfoInt * option string :=
  if negb (CanHandle pod) then (None, None)
  else
    let workloadName := getWorkloadRefName pod in
    let podGroup := getWorkloadRefPodGroup pod in
    let gangID := ExtractGangID pod in
    (* a failed Workload lookup is logged, the count is then 0 *)
    let expectedMinCount :=
      (getWorkloadMinCount workloads ctx (pod_Namespace pod) workloadName podGroup).1 in
    match kubeClient ctx (pod_Namespace pod) with
    | inr err =>
        (None, Some ("failed to list pods in namespace " +:+ pod_Namespace pod
                       +:+ ": " +:+ err)%string)
    | inl items =>
        let peers := peersOf workloadName podGroup items in
        match peers with
        | [] => (None, None)
        | _ =>
            let expectedMinCount :=
              if decide (expectedMinCount = 0%Z) then Z.of_nat (length peers)
              else expectedMinCount in
            (Some {| gi_GangID := gangID; gi_ExpectedMinCount := expectedMinCount;
                     gi_Peers := peers |}, None)
        end
    end.

End Clients.

Arguments WorkloadPodLister : clear implicits.
Arguments WorkloadClient : clear implicits.

End workloadref.

(** ** package azure: the provider ID of a node

    [strings.Split(s, sep)] for a one-byte separator: the pieces of [s]
    between the occurrences of the separator, in order; a string without
    separator is its own single piece. *)

Module azure.

Fixpoint Split (s : string) (sep : ascii) : list string :=
  match s with
  | EmptyString => [EmptyString]
  | String ch rest =>
      if Ascii.eqb ch sep then EmptyString :: Split rest sep
      else
        match Split rest sep with
        | piece :: pieces => String ch piece :: pieces
        | [] => [String ch EmptyString]
        end
  end.

(** The loop over [parts] of [parseAzureProviderID]: [parts[i+1]] exists
    exactly when something follows [part]. *)
Fixpoint parseAzureProviderID_loop (parts : list string) (resourceGroup vmName : string)
  : string * string :=
  match parts with
  | [] => (resourceGroup, vmName)
  | part :: rest =>
      let resourceGroup :=
        match rest with
        | next :: _ => if decide (part = "resourceGroups"%string) then next else resourceGroup
        | [] => resourceGroup
        end in
      let vmName :=
        match rest with
        | next :: _ => if decide (part = "virtualMachines"%string) then next else vmName
        | [] => vmName
        end in
      parseAzureProviderID_loop rest resourceGroup vmName
  end.

Definition parseAzureProviderID (providerID : string) : (string * string) + string :=
  let parts := Split providerID "/" in
  if bool_decide (length parts < 9)%nat
  then inr ("invalid provider ID format: " +:+ providerID)%string
  else
    let '(resourceGroup, vmName) := parseAzureProviderID_loop parts "" "" in
    if bool_decide (resourceGroup = ""%string) || bool_decide (vmName = ""%string)
    then inr ("could not extract resource group or VM name from provider ID: "
                +:+ providerID)%string
    else inl (resourceGroup, vmName).

(** The resource ID that [createMaintenanceEvent] writes into an event. *)
Definition eventResourceID (resourceGroup vmName : string) : string :=
  ("/subscriptions/" +:+ "unknown" +:+ "/resourceGroups/" +:+ resourceGroup
     +:+ "/providers/Microsoft.Compute/virtualMachines/" +:+ vmName)%string.

End azure.

(** What follows the occurrences of [key] in [parts], in order. *)
Definition followers (key : string) (parts : list string) : list string :=
  omap (fun pair : string * string => if decide (pair.1 = key) then Some pair.2 else None)
       (zip parts (tail parts)).

(** The number of bytes of [s] equal to [sep]. *)
Fixpoint countByte (sep : ascii) (s : string) : nat :=
  match s with
  | EmptyString => 0
  | String ch rest => (if Ascii.eqb ch sep then 1 else 0) + countByte sep rest
  end.

(** [s] holds no byte [sep]. *)
Fixpoint freeOf (sep : ascii) (s : string) : bool :=
  match s with
  | EmptyString => true
  | String ch rest => negb (Ascii.eqb ch sep) && freeOf sep rest
  end.

(** * Theorems *)

(** ** Signal classifier *)

Section Classifier.
Import nvml.

(** Indexing a [map[uint64]bool] literal without duplicate keys. *)
Lemma index_bool_list_to_map (l : list (N * bool)) (k : N) :
  NoDup l.*1 -> index_bool (list_to_map l : gmap N bool) k = true <-> (k, true) ∈ l.
Proof.
  intros Hnd. unfold index_bool.
  destruct (list_to_map l !! k) as [b|] eqn:E; simpl.
  - apply elem_of_list_to_map in E; [|done]. split.
    + by intros ->.
    + intros Hin. apply (elem_of_list_to_map_1 (M := gmap N)) in Hin; [|done].
      apply elem_of_list_to_map in E; [|done]. congruence.
  - apply not_elem_of_list_to_map in E. split; [done|].
    intros Hin. destruct E. apply list_elem_of_fmap. by exists (k, true).
Qed.

Ltac members := rewrite ?elem_of_cons, ?elem_of_nil in *.

Lemma defaultIgnored_spec (c : N) :
  index_bool defaultIgnoredXids c = true <-> c ∈ ignoredCodes.
Proof.
  unfold defaultIgnoredXids. rewrite index_bool_list_to_map by (by compute_done).
  unfold ignoredCodes. members. intuition congruence.
Qed.

Lemma critical_spec (c : N) :
  index_bool criticalXids c = true <-> c ∈ criticalCodes.
Proof.
  unfold criticalXids. rewrite index_bool_list_to_map by (by compute_done).
  unfold criticalCodes. members. intuition congruence.
Qed.

Lemma tables_disjoint (c : N) : c ∈ ignoredCodes -> c ∈ criticalCodes -> False.
Proof.
  unfold ignoredCodes, criticalCodes. members.
  intros Hi Hc. repeat destruct Hi as [->|Hi]; try done;
    repeat destruct Hc as [Hc|Hc]; done.
Qed.

Lemma isIgnoredXid_loop_spec (c : N) (A : list N) :
  isIgnoredXid_loop c A = true <-> c ∈ A.
Proof.
  induction A as [|a A IH]; simpl.
  - rewrite elem_of_nil. split; [discriminate | tauto].
  - rewrite elem_of_cons. destruct (N.eqb_spec c a) as [->|Hne].
    + tauto.
    + rewrite IH. tauto.
Qed.

(** C2. For every error code [c], [GetXidSeverity] answers Ignored exactly
    on the codes 13, 31, 43, 45, 68, 109, Critical exactly on the codes
    48, 63, 64, 74, 79, 94, 95, 119, 120, and Warning on every other code
    (and on no code of the two lists). *)
Theorem GetXidSeverity_classification (c : N) :
  (GetXidSeverity c = XidSeverityIgnored <-> c ∈ [13; 31; 43; 45; 68; 109]) /\
  (GetXidSeverity c = XidSeverityCritical <->
     c ∈ [48; 63; 64; 74; 79; 94; 95; 119; 120]) /\
  (GetXidSeverity c = XidSeverityWarning <->
     (c ∉ [13; 31; 43; 45; 68; 109]) /\ (c ∉ [48; 63; 64; 74; 79; 94; 95; 119; 120])).
Proof.
  change [13; 31; 43; 45; 68; 109] with ignoredCodes.
  change [48; 63; 64; 74; 79; 94; 95; 119; 120] with criticalCodes.
  pose proof (defaultIgnored_spec c) as Hi.
  pose proof (critical_spec c) as Hc.
  pose proof (tables_disjoint c) as Hd.
  unfold GetXidSeverity.
  destruct (index_bool defaultIgnoredXids c), (index_bool criticalXids c);
    repeat split; try done; try tauto; try (intros; exfalso; intuition congruence).
  all: intuition congruence.
Qed.

(** C10. The additional-ignored list [A] is consulted by [isIgnoredXid]
    alone: [isIgnoredXid c A] holds iff [c] is default-ignored or a member
    of [A], whereas [GetXidSeverity c], which takes no such list, answers
    Ignored iff [c] is default-ignored; so a code that is ignored only
    through [A] is still classified Warning or Critical. *)
Theorem severity_independent_of_additional_ignored (c : N) (A : list N) :
  (isIgnoredXid c A = true <-> IsDefaultIgnored c = true \/ c ∈ A) /\
  (GetXidSeverity c = XidSeverityIgnored <-> IsDefaultIgnored c = true) /\
  (IsDefaultIgnored c = false ->
     GetXidSeverity c = XidSeverityWarning \/ GetXidSeverity c = XidSeverityCritical) /\
  (c ∈ A -> IsDefaultIgnored c = false ->
     isIgnoredXid c A = true /\ GetXidSeverity c <> XidSeverityIgnored).
Proof.
  pose proof (isIgnoredXid_loop_spec c A) as Hloop.
  unfold isIgnoredXid, GetXidSeverity, IsDefaultIgnored.
  destruct (index_bool defaultIgnoredXids c), (index_bool criticalXids c);
    repeat split; intros; try tauto; try discriminate; try (intuition congruence).
Qed.

(** The description table has no duplicate keys. *)
Lemma XidDescriptions_lookup (c : N) (d : string) :
  XidDescriptions !! c = Some d ->
  (c ∈ ignoredCodes \/ c ∈ criticalCodes) \/
  (c ∈ describedOnlyCodes /\ d <> "Unknown XID"%string).
Proof.
  unfold XidDescriptions. intros E.
  apply elem_of_list_to_map in E; [|by compute_done].
  unfold ignoredCodes, criticalCodes, describedOnlyCodes. members.
  repeat (destruct E as [E|E]; [injection E as -> ->; tauto || (right; split; [tauto | discriminate]) |]).
  done.
Qed.

Lemma XidDescriptions_missing (c : N) :
  XidDescriptions !! c = None -> c ∉ describedOnlyCodes.
Proof.
  unfold XidDescriptions. intros E Hin.
  apply not_elem_of_list_to_map in E. apply E. clear E.
  unfold describedOnlyCodes in Hin. members. simpl. members.
  intuition congruence.
Qed.

(** C8 as stated fails: code 8 is in neither classification table, is
    classified Warning, and is described as "GPU not accessible"; code 1 is
    in no table at all and is described as "Unknown XID".  Neither
    description is "Unknown". *)
Lemma unknown_description_counterexample :
  ~ (forall c : N,
       IsDefaultIgnored c = false -> IsCritical c = false ->
       GetXidSeverity c = XidSeverityWarning /\ xidToString c = "Unknown"%string) /\
  (IsDefaultIgnored 8 = false /\ IsCritical 8 = false /\
   GetXidSeverity 8 = XidSeverityWarning /\
   xidToString 8 = "GPU not accessible"%string) /\
  (IsDefaultIgnored 1 = false /\ IsCritical 1 = false /\
   GetXidSeverity 1 = XidSeverityWarning /\
   xidToString 1 = "Unknown XID"%string).
Proof.
  split; [|by vm_compute].
  intros H. destruct (H 8) as [_ Hd]; [done..|]. vm_compute in Hd. discriminate.
Qed.

(** C8, amended. A code missing from both classification tables is
    classified Warning; its description is "Unknown XID" exactly when the
    description table has no entry for it either, that is unless it is one
    of 8, 32, 38, 56, 57, 62, 69. *)
Theorem unclassified_code_is_warning (c : N) :
  IsDefaultIgnored c = false -> IsCritical c = false ->
  GetXidSeverity c = XidSeverityWarning /\
  (xidToString c = "Unknown XID"%string <-> c ∉ [8; 32; 38; 56; 57; 62; 69]).
Proof.
  change [8; 32; 38; 56; 57; 62; 69] with describedOnlyCodes.
  unfold IsDefaultIgnored, IsCritical. intros Hi Hc. split.
  - unfold GetXidSeverity. by rewrite Hi, Hc.
  - unfold xidToString.
    destruct (XidDescriptions !! c) as [d|] eqn:E.
    + apply XidDescriptions_lookup in E as [[Hin|Hin]|[Hin Hd]].
      * apply defaultIgnored_spec in Hin. congruence.
      * apply critical_spec in Hin. congruence.
      * tauto.
    + apply XidDescriptions_missing in E. tauto.
Qed.

Lemma unclassified_code_is_warning_witness :
  GetXidSeverity 145 = XidSeverityWarning /\
  (xidToString 145 = "Unknown XID"%string <-> 145 ∉ [8; 32; 38; 56; 57; 62; 69]).
Proof. apply (unclassified_code_is_warning 145); reflexivity. Defined.

End Classifier.

(** ** Parsing the operator's list of ignored codes *)

Section Parser.

(** [strconv.ParseUint] against the decimal reading of a token: the loop
    with its two overflow checks accepts exactly the digit strings whose
    value is below [2^64]. *)
Lemma decimalValue_ge acc s : acc <= decimalValue acc s.
Proof.
  revert acc. induction s as [|ch s IH]; intros acc; simpl; [lia|].
  etrans; [|apply IH]. lia.
Qed.

Lemma N_of_ascii_bound ch : N_of_ascii ch < 256.
Proof. apply N_ascii_bounded. Qed.

Lemma ParseUint_loop_spec s : forall n v,
  n < 2 ^ 64 ->
  strconv.ParseUint_loop 10 (strconv.maxUint64 / 10 + 1) (strconv.wrap64 (N.shiftl 1 64 - 1)) s n = inl v <->
  allDigits s = true /\ decimalValue n s = v /\ v < 2 ^ 64.
Proof.
  change (strconv.maxUint64 / 10 + 1) with 1844674407370955162.
  change (strconv.wrap64 (N.shiftl 1 64 - 1)) with 18446744073709551615.
  change (2 ^ 64) with 18446744073709551616.
  induction s as [|ch s IH]; intros n v Hn; simpl.
  - split; [intros [= <-]; auto | intros (_ & -> & _); auto].
  - unfold isDigit. pose proof (N_of_ascii_bound ch) as Hb.
    set (c := N_of_ascii ch) in *.
    destruct ((48 <=? c) && (c <=? 57)) eqn:Hd; simpl.
    + assert (Hd' : 48 <= c <= 57) by lia.
      replace (10 <=? c - 48) with false by lia.
      destruct (N.leb_spec 1844674407370955162 n) as [Hcut|Hcut].
      * split; [discriminate|]. intros (_ & <- & Hv).
        pose proof (decimalValue_ge (n * 10 + (c - 48)) s). lia.
      * unfold strconv.wrap64. change (2 ^ 64) with 18446744073709551616.
        rewrite (N.mod_small (n * 10)) by lia.
        destruct (N.ltb_spec (n * 10 + (c - 48)) 18446744073709551616) as [Hsm|Hbig].
        -- rewrite (N.mod_small (n * 10 + (c - 48))) by lia.
           replace (n * 10 + (c - 48) <? n * 10) with false by lia.
           replace (18446744073709551615 <? n * 10 + (c - 48)) with false by lia.
           simpl. apply IH. lia.
        -- assert (Hm : (n * 10 + (c - 48)) mod 18446744073709551616 < n * 10).
           { assert ((n * 10 + (c - 48)) mod 18446744073709551616 = n * 10 + (c - 48) - 18446744073709551616).
             { symmetry. apply N.mod_unique with 1; lia. }
             lia. }
           replace (_ <? n * 10) with true by lia. simpl.
           split; [discriminate|]. intros (_ & <- & Hv).
           pose proof (decimalValue_ge (n * 10 + (c - 48)) s). lia.
    + destruct ((97 <=? strconv.lower c) && (strconv.lower c <=? 122)) eqn:Hl.
      * replace (10 <=? strconv.lower c - 97 + 10) with true by lia.
        split; [discriminate | intros ([=] & _)].
      * split; [discriminate | intros ([=] & _)].
Qed.

Lemma ParseUint_decimal (tok : string) (v : N) :
  strconv.ParseUint tok 10 64 = inl v <-> parsesAsUint64 tok = Some v.
Proof.
  destruct tok as [|ch tok]; [split; discriminate|].
  unfold strconv.ParseUint, parsesAsUint64.
  rewrite ParseUint_loop_spec by done.
  generalize (String ch tok). intros s.
  destruct (allDigits s); simpl.
  - destruct (N.ltb_spec (decimalValue 0 s) (2 ^ 64)).
    + split; [intros (_ & <- & _); done | intros [= <-]; done].
    + split; [intros (_ & <- & ?); lia | discriminate].
  - split; [intros ([=] & _) | discriminate].
Qed.

Local Arguments String.append : simpl nomatch.

Lemma append_assoc (a b c : string) : (a +:+ b) +:+ c = a +:+ (b +:+ c).
Proof. induction a as [|ch a IH]; simpl; [done|]. by rewrite IH. Qed.

Lemma append_empty_r (a : string) : a +:+ "" = a.
Proof. induction a as [|ch a IH]; simpl; [done|]. by rewrite IH. Qed.

Lemma sepFree_snoc sep span ch :
  sepFree sep span = true -> sep ch = false ->
  sepFree sep (span +:+ String ch "") = true.
Proof.
  intros Hs Hc. induction span as [|c span IH]; simpl in *.
  - by rewrite Hc.
  - apply andb_true_iff in Hs as [-> Hs]. simpl. auto.
Qed.

Lemma FieldsFunc_loop_Fields sep s :
  Fields sep s (gostrings.FieldsFunc_loop sep s None) /\
  (forall span, span <> ""%string -> sepFree sep span = true ->
     Fields sep (span +:+ s) (gostrings.FieldsFunc_loop sep s (Some span))).
Proof.
  induction s as [|ch s [IHn IHs]]; simpl.
  - split; [constructor|]. intros span Hne Hfree.
    by apply Fields_tok; [..|constructor].
  - destruct (sep ch) eqn:Hch.
    + split; [by constructor|]. intros span Hne Hfree.
      apply Fields_tok; [done..| |by constructor]. done.
    + assert (Hone : Fields sep (String ch s)
                (gostrings.FieldsFunc_loop sep s (Some (String ch "")))).
      { apply (IHs (String ch "")); [done|]. simpl. by rewrite Hch. }
      split; [done|]. intros span Hne Hfree.
      replace (span +:+ String ch s) with ((span +:+ String ch "") +:+ s)
        by (by rewrite append_assoc).
      apply IHs; [by destruct span | by apply sepFree_snoc].
Qed.

Lemma Fields_token_unique sep t1 : forall t2 s1 s2,
  sepFree sep t1 = true -> sepFree sep t2 = true ->
  atBoundary sep s1 = true -> atBoundary sep s2 = true ->
  t1 +:+ s1 = t2 +:+ s2 -> t1 = t2 /\ s1 = s2.
Proof.
  induction t1 as [|c1 t1 IH]; intros [|c2 t2] s1 s2 H1 H2 B1 B2 E; simpl in *.
  - done.
  - subst s1. simpl in B1. apply andb_true_iff in H2 as [H2 _]. by rewrite B1 in H2.
  - subst s2. simpl in B2. apply andb_true_iff in H1 as [H1 _]. by rewrite B2 in H1.
  - injection E as -> E.
    apply andb_true_iff in H1 as [_ H1]. apply andb_true_iff in H2 as [_ H2].
    destruct (IH t2 s1 s2) as [-> ->]; done.
Qed.

Lemma Fields_functional sep s toks1 :
  Fields sep s toks1 -> forall toks2, Fields sep s toks2 -> toks1 = toks2.
Proof.
  induction 1 as [|ch s toks1 Hch _ IH|tok s toks1 Hne Hfree Hb _ IH];
    intros toks2 H2.
  - inversion H2 as [| |tok' s' toks' Hne' _ _ _ E]; [done|].
    destruct tok'; [done|discriminate].
  - inversion H2 as [|ch' s' toks' _ H2' E|tok' s' toks' Hne' Hfree' _ _ E]; subst.
    + by apply IH.
    + destruct tok' as [|c' tok']; [done|]. simpl in E. injection E as -> _.
      simpl in Hfree'. by rewrite Hch in Hfree'.
  - inversion H2 as [E|ch' s' toks' Hch' _ E|tok' s' toks' Hne' Hfree' Hb' H2' E]; subst.
    + destruct tok; [done|discriminate].
    + destruct tok as [|c tok]; [done|]. simpl in E. injection E as -> _.
      simpl in Hfree. by rewrite Hch' in Hfree.
    + destruct (Fields_token_unique sep tok tok' s s') as [-> ->]; [done..|].
      f_equal. by apply IH.
Qed.

Lemma ParseIgnoredXids_loop_elems tokens : forall result,
  slice_elems (nvml.ParseIgnoredXids_loop tokens result) =
  slice_elems result ++ omap parsesAsUint64 tokens.
Proof.
  induction tokens as [|tok tokens IH]; intros result; simpl.
  - by rewrite app_nil_r.
  - destruct (strconv.ParseUint tok 10 64) as [v|err] eqn:E.
    + apply ParseUint_decimal in E. rewrite E, IH. simpl. by rewrite <- app_assoc.
    + destruct (parsesAsUint64 tok) as [v|] eqn:E'; [|by rewrite IH].
      apply ParseUint_decimal in E'. congruence.
Qed.

Lemma ParseIgnoredXids_loop_nil tokens : forall result,
  nvml.ParseIgnoredXids_loop tokens result = None ->
  result = None /\ omap parsesAsUint64 tokens = [].
Proof.
  induction tokens as [|tok tokens IH]; intros result; simpl; [done|].
  destruct (strconv.ParseUint tok 10 64) as [v|err] eqn:E.
  - intros H. by apply IH in H as [[=] _].
  - intros H. apply IH in H as [-> H]. split; [done|].
    destruct (parsesAsUint64 tok) as [v|] eqn:E'; [|done].
    apply ParseUint_decimal in E'. congruence.
Qed.

(** C7. [ParseIgnoredXids] splits its input on commas and spaces: the
    tokens are the maximal runs of other bytes, and they are the only list
    [Fields] relates to the input.  It returns, in input order, the values
    of exactly those tokens that parse as unsigned 64-bit integers (the
    others are dropped without an error), and it returns the nil slice when
    no token parses, in particular on the empty input. *)
Theorem ParseIgnoredXids_spec (input : string) :
  (forall ch, nvml.isXidSeparator ch = true <-> ch = ","%char \/ ch = " "%char) /\
  nvml.ParseIgnoredXids "" = None /\
  exists tokens,
    Fields nvml.isXidSeparator input tokens /\
    (forall tokens', Fields nvml.isXidSeparator input tokens' -> tokens' = tokens) /\
    slice_elems (nvml.ParseIgnoredXids input) = omap parsesAsUint64 tokens /\
    (nvml.ParseIgnoredXids input = None <-> omap parsesAsUint64 tokens = []).
Proof.
  split.
  { intros ch. unfold nvml.isXidSeparator.
    rewrite orb_true_iff, !Ascii.eqb_eq. done. }
  split; [done|].
  exists (gostrings.FieldsFunc input nvml.isXidSeparator).
  pose proof (FieldsFunc_loop_Fields nvml.isXidSeparator input) as [HF _].
  fold (gostrings.FieldsFunc input nvml.isXidSeparator) in HF.
  split; [done|]. split.
  { intros tokens' H'. symmetry. by eapply Fields_functional. }
  assert (Helems : slice_elems (nvml.ParseIgnoredXids input) =
            omap parsesAsUint64 (gostrings.FieldsFunc input nvml.isXidSeparator)).
  { destruct input as [|ch input]; [done|].
    unfold nvml.ParseIgnoredXids.
    pose proof (ParseIgnoredXids_loop_elems
      (gostrings.FieldsFunc (String ch input) nvml.isXidSeparator) None) as Hl.
    simpl slice_elems at 2 in Hl. simpl app in Hl.
    destruct (N.eqb_spec (N.of_nat (length (slice_elems (nvml.ParseIgnoredXids_loop
      (gostrings.FieldsFunc (String ch input) nvml.isXidSeparator) None)))) 0) as [Hz|Hz].
    - rewrite <- Hl. simpl.
      destruct (slice_elems _); [done|discriminate].
    - done. }
  split; [done|].
  split.
  - intros Hn. by rewrite <- Helems, Hn.
  - intros Hn. rewrite <- Helems in Hn.
    destruct input as [|ch input]; [done|].
    unfold nvml.ParseIgnoredXids in *.
    destruct (N.eqb_spec (N.of_nat (length (slice_elems (nvml.ParseIgnoredXids_loop
      (gostrings.FieldsFunc (String ch input) nvml.isXidSeparator) None)))) 0) as [Hz|Hz];
      [done|].
    rewrite Hn in Hz. done.
Qed.

End Parser.

(** ** Composite gang discoverer *)

Section Composite.
Import gang.
Context {Ctx : Type}.
Implicit Types (ds : list (GangDiscoverer Ctx)) (pod : Pod) (ctx : Ctx).

Lemma Composite_CanHandle_loop_spec ds pod :
  Composite_CanHandle_loop ds pod = true <->
  exists d, d ∈ ds /\ CanHandle d pod = true.
Proof.
  induction ds as [|d ds IH]; simpl.
  - split; [discriminate|]. intros (d & Hin & _). by apply elem_of_nil in Hin.
  - destruct (CanHandle d pod) eqn:Hd.
    + split; [|done]. intros _. exists d. split; [left|done].
    + rewrite IH. split; intros (d' & Hin & Hd').
      * exists d'. split; [by right|done].
      * apply elem_of_cons in Hin as [->|Hin]; [congruence|]. by exists d'.
Qed.

Lemma Composite_DiscoverPeers_loop_spec ds ctx pod :
  (exists before d after,
      ds = before ++ d :: after /\
      (forall d', d' ∈ before -> CanHandle d' pod = false) /\
      CanHandle d pod = true /\
      Composite_DiscoverPeers_loop ds ctx pod = DiscoverPeers d ctx pod) \/
  ((forall d, d ∈ ds -> CanHandle d pod = false) /\
   Composite_DiscoverPeers_loop ds ctx pod = (None, None)).
Proof.
  induction ds as [|d ds IH]; simpl.
  - right. split; [|done]. intros d Hin. by apply elem_of_nil in Hin.
  - destruct (CanHandle d pod) eqn:Hd.
    + left. exists [], d, ds. repeat split; [|done].
      intros d' Hin. by apply elem_of_nil in Hin.
    + destruct IH as [(before & d0 & after & -> & Hb & Hd0 & Heq)|[Hall Heq]].
      * left. exists (d :: before), d0, after. repeat split; [|done..].
        intros d' Hin. apply elem_of_cons in Hin as [->|Hin]; auto.
      * right. split; [|done].
        intros d' Hin. apply elem_of_cons in Hin as [->|Hin]; auto.
Qed.

(** C9. For every pod and every ordered list [ds] of member discoverers,
    the composite's [CanHandle] is true iff some member's [CanHandle] is,
    and [DiscoverPeers] is the answer of the first member, in construction
    order, whose [CanHandle] is true; when no member can handle the pod it
    is [(nil, nil)]: no gang, no error. *)
Theorem composite_first_capable_member ds ctx pod :
  let c := NewCompositeGangDiscoverer ds in
  (Composite_CanHandle c pod = true <->
     exists d, d ∈ ds /\ CanHandle d pod = true) /\
  ((exists before d after,
       ds = before ++ d :: after /\
       (forall d', d' ∈ before -> CanHandle d' pod = false) /\
       CanHandle d pod = true /\
       Composite_DiscoverPeers c ctx pod = DiscoverPeers d ctx pod) \/
   ((forall d, d ∈ ds -> CanHandle d pod = false) /\
    Composite_CanHandle c pod = false /\
    Composite_DiscoverPeers c ctx pod = (None, None))).
Proof.
  intros c. unfold c, Composite_CanHandle, Composite_DiscoverPeers,
    NewCompositeGangDiscoverer; simpl.
  split; [apply Composite_CanHandle_loop_spec|].
  destruct (Composite_DiscoverPeers_loop_spec ds ctx pod) as [H|[Hall Heq]];
    [by left|right].
  repeat split; [done| |done].
  destruct (Composite_CanHandle_loop ds pod) eqn:E; [|done].
  apply Composite_CanHandle_loop_spec in E as (d & Hin & Hd).
  rewrite (Hall d Hin) in Hd. discriminate.
Qed.

End Composite.

(** A composite of two Kueue discoverers over different clients, on a pod
    that carries the Kueue label: the first member answers. *)
Example composite_kueue_first :
  let labelled := {| gang.pod_Name := "worker-0"; gang.pod_Namespace := "ml";
                     gang.pod_Labels := Some {[ gang.KueueWorkloadNameLabel := "job-a"%string ]};
                     gang.pod_Annotations := None; gang.pod_NodeName := "node-1";
                     gang.pod_Phase := gang.PodRunning; gang.pod_PodIP := "10.0.0.1" |} in
  let one : gang.PodLister unit := fun _ _ _ _ => inl [labelled] in
  let none : gang.PodLister unit := fun _ _ _ _ => inr "unavailable"%string in
  let c := gang.NewCompositeGangDiscoverer
             [gang.KueueDiscoverer one; gang.KueueDiscoverer none] in
  gang.Composite_CanHandle c labelled = true /\
  gang.Composite_DiscoverPeers c () labelled =
    (Some {| gang.GangID := "kueue-ml-job-a"; gang.ExpectedMinCount := 1;
             gang.Peers := [ {| gang.PodName := "worker-0"; gang.PodIP := "10.0.0.1";
                                gang.NodeName := "node-1"; gang.Namespace := "ml" |} ] |},
     None).
Proof. by vm_compute. Qed.

(** ** In-memory object store *)

Section StoreContract.
Import memory.
Implicit Types (s : Store) (key : string) (obj : Obj).

Lemma write_data s ty key obj :
  data (write s ty key obj).1 = <[key := (obj, rev s + 1)]> (data s).
Proof. done. Qed.

Lemma write_rev s ty key obj : rev (write s ty key obj).1 = rev s + 1.
Proof. done. Qed.

Lemma write_lookup s ty key obj :
  data (write s ty key obj).1 !! key = Some (obj, rev s + 1).
Proof. rewrite write_data. apply lookup_insert_eq. Qed.

(** C3. [Create] fails, with [AlreadyExists] and without touching the
    store, exactly when the key is present, and succeeds otherwise; [Get]
    and [Delete] fail, with [NotFound], exactly when the key is absent; a
    successful [Delete] returns the value that was stored under the key,
    after which the key is absent. *)
Theorem store_error_contract s key obj :
  match data s !! key with
  | Some (stored, rv) =>
      Create key obj s = (s, inr AlreadyExists) /\
      Get key s = inl (stored, rv) /\
      (Delete key s).2 = inl stored /\
      Get key (Delete key s).1 = inr NotFound
  | None =>
      (exists rv, (Create key obj s).2 = inl rv) /\
      (Create key obj (Create key obj s).1).2 = inr AlreadyExists /\
      Get key s = inr NotFound /\
      Delete key s = (s, inr NotFound)
  end.
Proof.
  destruct (data s !! key) as [[stored rv]|] eqn:E.
  - unfold Create, Get, Delete. rewrite E. repeat split; simpl.
    by rewrite lookup_delete_eq.
  - assert (HC : Create key obj s = ((write s Added key obj).1, inl (rev s + 1))).
    { unfold Create. by rewrite E. }
    rewrite HC. unfold Get, Delete. rewrite E. simpl. repeat split.
    + by eexists.
    + unfold Create. simpl. by rewrite lookup_insert_eq.
Qed.

Lemma apply_rev op s :
  rev (apply op s) = rev s + (if writes op s then 1 else 0).
Proof.
  unfold writes.
  destruct op as [key obj|key|prefix|key f inf|key|prefix|i| |]; simpl;
    try (rewrite bool_decide_eq_false_2 by (intros H; by apply H); lia).
  - unfold Create. destruct (data s !! key) as [entry|] eqn:E; simpl.
    + rewrite bool_decide_eq_false_2 by (intros H; by apply H). lia.
    + rewrite bool_decide_eq_true_2; [done|].
      intros H. apply (f_equal (.!! key)) in H.
      rewrite lookup_insert_eq, E in H. discriminate.
  - unfold GuaranteedUpdate.
    destruct (data s !! key) as [[current rv]|] eqn:E; simpl.
    + destruct (f current rv) as [updated|err]; simpl.
      * destruct (decide (updated = current)) as [->|Hne]; simpl.
        -- rewrite bool_decide_eq_false_2 by (intros H; by apply H). lia.
        -- rewrite bool_decide_eq_true_2; [done|].
           intros H. apply (f_equal (.!! key)) in H.
           rewrite lookup_insert_eq, E in H. congruence.
      * rewrite bool_decide_eq_false_2 by (intros H; by apply H). lia.
    + destruct inf; simpl.
      * destruct (f "" 0) as [updated|err]; simpl.
        -- rewrite bool_decide_eq_true_2; [done|].
           intros H. apply (f_equal (.!! key)) in H.
           rewrite lookup_insert_eq, E in H. discriminate.
        -- rewrite bool_decide_eq_false_2 by (intros H; by apply H). lia.
      * rewrite bool_decide_eq_false_2 by (intros H; by apply H). lia.
  - unfold Delete. destruct (data s !! key) as [[stored rv]|] eqn:E; simpl.
    + rewrite bool_decide_eq_true_2; [done|].
      intros H. apply (f_equal (.!! key)) in H.
      rewrite lookup_delete_eq, E in H. discriminate.
    + rewrite bool_decide_eq_false_2 by (intros H; by apply H). lia.
Qed.

Lemma run_rev ops : forall s, rev (run ops s) = rev s + countWrites ops s.
Proof.
  induction ops as [|op ops IH]; intros s; simpl; [lia|].
  unfold run in *. simpl. rewrite IH, apply_rev. lia.
Qed.

(** C4. The revision counter of a fresh store is 0; every call moves it by
    exactly one if it writes and leaves it alone otherwise, so that after
    any history it equals the number of writes and never decreases; the
    first [Create] on a fresh store yields resourceVersion 1, and every
    successful [Create] or writing [GuaranteedUpdate] stores the object
    under the new value of the counter. *)
Theorem revision_counter_counts_writes :
  (forall b, GetCurrentResourceVersion (NewStore b) = 0) /\
  (forall op s, rev (apply op s) = rev s + (if writes op s then 1 else 0)) /\
  (forall ops b, rev (run ops (NewStore b)) = countWrites ops (NewStore b)) /\
  (forall ops s, rev s <= rev (run ops s)) /\
  (forall b key obj,
     (Create key obj (NewStore b)).2 = inl 1 /\
     Get key (Create key obj (NewStore b)).1 = inl (obj, 1)) /\
  (forall s key obj rv,
     (Create key obj s).2 = inl rv ->
     rv = rev s + 1 /\ rev (Create key obj s).1 = rv /\
     data (Create key obj s).1 !! key = Some (obj, rv)) /\
  (forall s key f inf updated rv,
     (GuaranteedUpdate key f inf s).2 = inl (updated, rv) ->
     data (GuaranteedUpdate key f inf s).1 !! key = Some (updated, rv) /\
     (writes (OpGuaranteedUpdate key f inf) s = true ->
      rv = rev s + 1 /\ rev (GuaranteedUpdate key f inf s).1 = rv)).
Proof.
  split; [done|]. split; [apply apply_rev|].
  split; [intros; by rewrite run_rev|].
  split; [intros; rewrite run_rev; lia|].
  split.
  { intros b key obj. unfold Create, Get. simpl. rewrite lookup_empty. simpl.
    by rewrite lookup_insert_eq. }
  split.
  - intros s key obj rv. unfold Create.
    destruct (data s !! key) eqn:E; simpl; [discriminate|].
    intros [= <-]. by rewrite lookup_insert_eq.
  - intros s key f inf updated rv.
    unfold writes. simpl apply.
    unfold GuaranteedUpdate.
    destruct (data s !! key) as [[current rv0]|] eqn:E; simpl.
    + destruct (f current rv0) as [upd|err]; simpl; [|discriminate].
      destruct (decide (upd = current)) as [->|Hne]; simpl.
      * intros [= <- <-]. split; [done|].
        rewrite bool_decide_eq_false_2 by (intros H; by apply H). discriminate.
      * intros [= <- <-]. by rewrite lookup_insert_eq.
    + destruct inf; simpl; [|discriminate].
      destruct (f "" 0) as [upd|err]; simpl; [|discriminate].
      intros [= <- <-]. by rewrite lookup_insert_eq.
Qed.

End StoreContract.

(** ** Optimistic concurrency on the in-memory store *)

Section Race.
Import memory.
Implicit Types (s st : Store) (key : string).

Lemma GuaranteedUpdate_cas_fresh st key cur rv m :
  data st !! key = Some (cur, rv) -> m cur <> cur ->
  GuaranteedUpdate key (casUpdate rv m) false st =
    ((write st Modified key (m cur)).1, inl (m cur, rev st + 1)).
Proof.
  intros E Hm. unfold GuaranteedUpdate, casUpdate. rewrite E, N.eqb_refl.
  by destruct (decide (m cur = cur)).
Qed.

Lemma GuaranteedUpdate_cas_unchanged st key cur rv m :
  data st !! key = Some (cur, rv) -> m cur = cur ->
  GuaranteedUpdate key (casUpdate rv m) false st = (st, inl (cur, rv)).
Proof.
  intros E Hm. unfold GuaranteedUpdate, casUpdate. rewrite E, N.eqb_refl.
  by destruct (decide (m cur = cur)).
Qed.

Lemma GuaranteedUpdate_cas_stale st key cur rv r m :
  data st !! key = Some (cur, rv) -> rv <> r ->
  GuaranteedUpdate key (casUpdate r m) false st = (st, inr Conflict).
Proof.
  intros E Hne. unfold GuaranteedUpdate, casUpdate. rewrite E.
  by destruct (N.eqb_spec rv r).
Qed.

(** An updater observes [Conflict] exactly when the revision it read is
    not the one the key currently holds. *)
Lemma cas_conflict_iff st key cur rv r m :
  data st !! key = Some (cur, rv) ->
  (GuaranteedUpdate key (casUpdate r m) false st).2 = inr Conflict <-> r <> rv.
Proof.
  intros E. unfold GuaranteedUpdate, casUpdate. rewrite E.
  destruct (N.eqb_spec rv r) as [->|Hne]; simpl.
  - destruct (decide (m cur = cur)); simpl; split; (discriminate || done).
  - split; [intros _ ?; by subst|done].
Qed.

Lemma raceRun_snoc key f g schedule who r :
  raceRun key f g (schedule ++ [who]) r =
  raceStep key f g (raceRun key f g schedule r) who.
Proof. unfold raceRun. by rewrite foldl_app. Qed.

Lemma loserSteps_snoc who rest b :
  loserSteps who (rest ++ [b]) =
  (if decide (b = who) then loserSteps who rest else S (loserSteps who rest)).
Proof.
  unfold loserSteps. rewrite filter_app, length_app.
  destruct (decide (b = who)) as [->|Hne].
  - rewrite filter_cons_False by (by intros ?). simpl. lia.
  - rewrite filter_cons_True by done. simpl. lia.
Qed.

(** *** Stored revisions never exceed the counter *)

Lemma write_revisionsBounded s ty key obj :
  revisionsBounded s -> revisionsBounded (write s ty key obj).1.
Proof.
  intros Hs k o rv. simpl. intros [[_ [= <- <-]]|[_ Hk]]%lookup_insert_Some; [lia|].
  apply Hs in Hk. lia.
Qed.

Lemma apply_revisionsBounded op s :
  revisionsBounded s -> revisionsBounded (apply op s).
Proof.
  intros Hs.
  destruct op as [key obj|key|prefix|key f inf|key|prefix|i| |]; simpl; try done.
  - unfold Create. destruct (data s !! key); [done|]. by apply write_revisionsBounded.
  - unfold GuaranteedUpdate. destruct (data s !! key) as [[current rv]|].
    + destruct (f current rv) as [updated|err]; [|done].
      destruct (decide (updated = current)); [done|]. by apply write_revisionsBounded.
    + destruct inf; [|done]. destruct (f ""%string 0) as [updated|err]; [|done].
      by apply write_revisionsBounded.
  - unfold Delete. destruct (data s !! key) as [[obj rv]|]; [|done].
    intros k o r. simpl. intros [_ Hk]%lookup_delete_Some. apply Hs in Hk. lia.
Qed.

Lemma run_revisionsBounded ops bufferSize :
  revisionsBounded (run ops (NewStore bufferSize)).
Proof.
  assert (H : forall s, revisionsBounded s -> revisionsBounded (run ops s)).
  { induction ops as [|op ops IH]; intros s Hs; [done|].
    unfold run in *. simpl. by apply IH, apply_revisionsBounded. }
  apply H. intros k o rv. simpl. by rewrite lookup_empty.
Qed.

Lemma loserAt_outcome key v R S won retried s1 s2 n :
  data s1 !! key = Some (won, S + 1) -> rev s1 = S + 1 ->
  data s2 !! key = Some (retried, S + 2) -> rev s2 = S + 2 ->
  let loser := (loserAt v R S won retried s1 s2 n).1 in
  let st := (loserAt v R S won retried s1 s2 n).2 in
  ((n < 3)%nat ->
     (forall rv, u_phase loser <> Written rv) /\
     data st !! key = Some (won, S + 1) /\ rev st = S + 1) /\
  ((3 <= n)%nat ->
     u_reads loser = [R; S + 1] /\ u_conflicts loser = 1%nat /\
     (retried <> won ->
        u_phase loser = Written (S + 2) /\
        data st !! key = Some (retried, S + 2) /\ rev st = S + 2) /\
     (retried = won ->
        u_phase loser = Written (S + 1) /\
        data st !! key = Some (won, S + 1) /\ rev st = S + 1)).
Proof.
  intros H1 Hr1 H2 Hr2. destruct n as [|[|[|n]]]; simpl.
  1-3: split; [intros _; by split_and!|intros; lia].
  split; [intros; lia|intros _].
  destruct (decide (retried = won)); simpl; by split_and!.
Qed.

Lemma raceExpected_parts s key v R f g who rest :
  let r := raceExpected s key v R f g (who :: rest) in
  let fw := if who then f else g in
  let fl := if who then g else f in
  let s1 := (write s Modified key (fw v)).1 in
  let s2 := (write s1 Modified key (fl (fw v))).1 in
  let at_ := loserAt v R (rev s) (fw v) (fl (fw v)) s1 s2 (loserSteps who rest) in
  (if who then r_first r else r_second r) =
    {| u_phase := Written (rev s + 1); u_reads := [R]; u_conflicts := 0 |} /\
  (if who then r_second r else r_first r) = at_.1 /\
  r_store r = at_.2.
Proof.
  simpl. destruct (loserAt _ _ _ _ _ _ _ _) as [loser st]. by destruct who.
Qed.

Section Schedules.
Context (s : Store) (key : string) (v : string) (R : N) (f g : string -> string).
Hypothesis Hkey : data s !! key = Some (v, R).
Hypothesis HR : R <= rev s.
Hypothesis Hf : f v <> v.
Hypothesis Hg : g v <> v.

Lemma race_first_step who :
  raceStep key f g (bothRead s v R) who = raceExpected s key v R f g [who].
Proof.
  unfold raceStep, bothRead, updaterStep; simpl.
  destruct who; simpl;
    rewrite (GuaranteedUpdate_cas_fresh s key v) by done; reflexivity.
Qed.

(** One step of the losing updater, whose mutation is [fl], after the
    winner has written [fw v]. *)
Lemma loser_step (fw fl : string -> string) (n : nat) :
  let s1 := (write s Modified key (fw v)).1 in
  let s2 := (write s1 Modified key (fl (fw v))).1 in
  let at_ n := loserAt v R (rev s) (fw v) (fl (fw v)) s1 s2 n in
  updaterStep key fl (at_ n).1 (at_ n).2 = at_ (S n).
Proof.
  intros s1 s2 at_. subst at_.
  assert (H1 : data s1 !! key = Some (fw v, rev s + 1)) by apply write_lookup.
  assert (Hr1 : rev s1 = rev s + 1) by done.
  assert (Hconflict :
    GuaranteedUpdate key (casUpdate R fl) false s1 = (s1, inr Conflict))
    by (apply (GuaranteedUpdate_cas_stale s1 key (fw v) (rev s + 1)); [done|lia]).
  assert (Hget : Get key s1 = inl (fw v, rev s + 1)) by (unfold Get; by rewrite H1).
  destruct n as [|[|[|n]]]; unfold updaterStep; simpl.
  - by rewrite Hconflict.
  - by rewrite Hget.
  - destruct (decide (fl (fw v) = fw v)) as [He|Hne].
    + by rewrite (GuaranteedUpdate_cas_unchanged s1 key (fw v)).
    + rewrite (GuaranteedUpdate_cas_fresh s1 key (fw v)) by done.
      rewrite Hr1. by replace (rev s + 1 + 1) with (rev s + 2) by lia.
  - by destruct (decide (fl (fw v) = fw v)).
Qed.

Lemma race_next_step who rest b :
  raceStep key f g (raceExpected s key v R f g (who :: rest)) b =
  raceExpected s key v R f g (who :: rest ++ [b]).
Proof.
  unfold raceExpected. rewrite loserSteps_snoc.
  pose proof (loser_step (if who then f else g) (if who then g else f)
                (loserSteps who rest)) as Hstep.
  cbv zeta in Hstep.
  destruct (decide (b = who)) as [->|Hne].
  - (* the winner is scheduled again: it has written, nothing moves *)
    destruct (loserAt _ _ _ _ _ _ _ (loserSteps who rest)) as [loser st].
    by destruct who.
  - (* the loser takes its next step *)
    assert (Hb : b = negb who) by (by destruct b, who).
    subst b. clear Hne. rewrite <- Hstep. clear Hstep.
    destruct (loserAt _ _ _ _ _ _ _ (loserSteps who rest)) as [loser st].
    destruct who; unfold raceStep; simpl;
      by destruct (updaterStep _ _ loser st).
Qed.

Lemma raceRun_expected schedule :
  raceRun key f g schedule (bothRead s v R) = raceExpected s key v R f g schedule.
Proof.
  induction schedule as [|b schedule IH] using rev_ind; [done|].
  rewrite raceRun_snoc, IH. destruct schedule as [|who rest].
  - apply race_first_step.
  - apply race_next_step.
Qed.

(** In every state of the race the key is present; once the winner has
    written, it holds the store's current revision. *)
Lemma raceExpected_key schedule :
  exists cur rv,
    data (r_store (raceExpected s key v R f g schedule)) !! key = Some (cur, rv) /\
    (schedule <> [] \/ rev s = R ->
     rv = rev (r_store (raceExpected s key v R f g schedule))).
Proof.
  destruct schedule as [|who rest]; simpl.
  { exists v, R. split; [done|]. by intros [?|?]. }
  destruct (loserSteps who rest) as [|[|[|n]]]; simpl;
    try destruct (decide (_ = _)); destruct who; simpl;
    eexists _, _; (split; [apply lookup_insert_eq|done]).
Qed.

End Schedules.

(** C5, as amended.  Two optimistic updaters of [key] have both read
    revision [R] in a store reached by any history of calls, and both
    mutate the object.  [GuaranteedUpdate] being atomic, their concurrent
    runs are the schedules.  After every schedule the race is in the
    state [raceExpected] predicts: the updater scheduled first succeeds
    without a conflict and writes the store's next revision,
    [rev s + 1]; the other one has not written before it was given three
    steps, and once it was, it has observed exactly one [Conflict], has
    read the revisions [R] and [rev s + 1], and has re-applied its
    mutation on top of the winner's object: that writes revision
    [rev s + 2] when it changes the object, and succeeds without a write,
    at revision [rev s + 1], when it does not.  The outcome of scenario
    S5, [R + 1] then [R + 2], is had exactly when the key holds the
    store's current revision and the loser's mutation changes the
    winner's object.  Throughout, an updater observes [Conflict] exactly
    when the revision it read differs from the key's current revision,
    which is the store's current revision once the winner has written. *)
Theorem optimistic_update_race bufferSize ops key v R f g schedule :
  let s := run ops (NewStore bufferSize) in
  data s !! key = Some (v, R) -> f v <> v -> g v <> v ->
  let final := raceRun key f g schedule (bothRead s v R) in
  R <= rev s /\
  final = raceExpected s key v R f g schedule /\
  (forall who rest, schedule = who :: rest ->
     let winner := if who then r_first final else r_second final in
     let loser := if who then r_second final else r_first final in
     let fw := if who then f else g in
     let fl := if who then g else f in
     winner = {| u_phase := Written (rev s + 1); u_reads := [R]; u_conflicts := 0 |} /\
     ((loserSteps who rest < 3)%nat ->
        (forall rv, u_phase loser <> Written rv) /\
        data (r_store final) !! key = Some (fw v, rev s + 1) /\
        rev (r_store final) = rev s + 1) /\
     ((3 <= loserSteps who rest)%nat ->
        u_reads loser = [R; rev s + 1] /\ u_conflicts loser = 1%nat /\
        (fl (fw v) <> fw v ->
           u_phase loser = Written (rev s + 2) /\
           data (r_store final) !! key = Some (fl (fw v), rev s + 2) /\
           rev (r_store final) = rev s + 2) /\
        (fl (fw v) = fw v ->
           u_phase loser = Written (rev s + 1) /\
           data (r_store final) !! key = Some (fw v, rev s + 1) /\
           rev (r_store final) = rev s + 1) /\
        (u_phase winner = Written (R + 1) /\ u_phase loser = Written (R + 2) <->
         rev s = R /\ fl (fw v) <> fw v))) /\
  (exists cur rv,
     data (r_store final) !! key = Some (cur, rv) /\
     (schedule <> [] \/ rev s = R -> rv = rev (r_store final)) /\
     forall r m,
       (GuaranteedUpdate key (casUpdate r m) false (r_store final)).2 = inr Conflict
       <-> r <> rv).
Proof.
  intros s Hkey Hf Hg final.
  assert (HR : R <= rev s)
    by (by apply (run_revisionsBounded ops bufferSize key v R)).
  assert (Hfinal : final = raceExpected s key v R f g schedule)
    by (by apply raceRun_expected).
  split; [done|]. split; [done|]. split.
  - intros who rest -> winner loser fw fl.
    destruct (raceExpected_parts s key v R f g who rest) as (Hw & Hl & Hst).
    cbv zeta in Hw, Hl, Hst. fold fw fl in Hl, Hst.
    subst winner loser. rewrite Hfinal, Hw, Hl, Hst. clear Hfinal Hw Hl Hst.
    set (s1 := (write s Modified key (fw v)).1).
    set (s2 := (write s1 Modified key (fl (fw v))).1).
    assert (H1 : data s1 !! key = Some (fw v, rev s + 1)) by apply write_lookup.
    assert (H2 : data s2 !! key = Some (fl (fw v), rev s + 2)).
    { replace (rev s + 2) with (rev s1 + 1) by (subst s1; simpl; lia).
      apply write_lookup. }
    assert (Hr2 : rev s2 = rev s + 2) by (subst s2 s1; simpl; lia).
    destruct (loserAt_outcome key v R (rev s) (fw v) (fl (fw v)) s1 s2
                (loserSteps who rest) H1 eq_refl H2 Hr2) as [Hlt Hge].
    split; [done|]. split; [done|].
    intros Hn. destruct (Hge Hn) as (Hreads & Hconf & Hchg & Hsame).
    split; [done|]. split; [done|]. split; [done|]. split; [done|].
    split.
    + intros [[= Hw] Hl]. split; [lia|]. intros He.
      destruct (Hsame He) as (Hp & _). rewrite Hp in Hl. injection Hl. lia.
    + intros [HeqR Hne]. destruct (Hchg Hne) as (Hp & _). rewrite Hp. simpl.
      rewrite HeqR. by split.
  - rewrite Hfinal.
    destruct (raceExpected_key s key v R f g Hkey schedule) as (cur & rv & Hcur & Hrv).
    exists cur, rv. split; [done|]. split; [done|].
    intros r m. by apply (cas_conflict_iff _ _ cur).
Qed.

Lemma optimistic_update_race_witness :
  let key := "/gpus/default/gpu-0"%string in
  let s := run [OpCreate key "v0"] (NewStore 4) in
  let f := String "a" in
  let g := String "b" in
  raceRun key f g [false; true; true; false; true] (bothRead s "v0" 1) =
  raceExpected s key "v0" 1 f g [false; true; true; false; true].
Proof.
  intros key s f g.
  refine (proj1 (proj2 (optimistic_update_race 4 [OpCreate key "v0"%string] key
                          "v0" 1 f g [false; true; true; false; true] _ _ _))).
  - reflexivity.
  - discriminate.
  - discriminate.
Defined.

Lemma setLabel_idempotent (obj : string) : setLabel (setLabel obj) = setLabel obj.
Proof.
  unfold setLabel. destruct (String.prefix "labelled:" obj) eqn:E; [by rewrite E|].
  clear E. by destruct obj.
Qed.

(** C5 as stated fails, in three ways.  (1) The revisions written are the
    store's next ones, not the key's: in a store at revision 2 whose key
    gpu-0 was written at revision 1, two updaters that both read gpu-0 at
    revision 1 write revisions 3 and 4, not 2 and 3.  (2) A loser whose
    mutation leaves the winner's object unchanged writes nothing: two
    updaters that set the same label both succeed, and revision R + 2 is
    never written.  (3) Conflicts follow the key's revision, not the
    store's: an updater that read gpu-0 at revision 1 meets no conflict
    although the store's current revision is 2. *)
Lemma optimistic_update_race_counterexample :
  let gpu0 := "/gpus/default/gpu-0"%string in
  let gpu1 := "/gpus/default/gpu-1"%string in
  ~ (forall bufferSize ops key v R f g who rest,
       let s := run ops (NewStore bufferSize) in
       data s !! key = Some (v, R) -> f v <> v -> g v <> v ->
       (3 <= loserSteps who rest)%nat ->
       let final := raceRun key f g (who :: rest) (bothRead s v R) in
       let winner := if who then r_first final else r_second final in
       let loser := if who then r_second final else r_first final in
       u_phase winner = Written (R + 1) /\ u_phase loser = Written (R + 2)) /\
  ~ (forall bufferSize ops key v R f g who rest,
       let s := run ops (NewStore bufferSize) in
       data s !! key = Some (v, R) -> rev s = R -> f v <> v -> g v <> v ->
       (3 <= loserSteps who rest)%nat ->
       let final := raceRun key f g (who :: rest) (bothRead s v R) in
       let loser := if who then r_second final else r_first final in
       u_phase loser = Written (R + 2)) /\
  ~ (forall bufferSize ops key r m,
       let s := run ops (NewStore bufferSize) in
       is_Some (data s !! key) ->
       ((GuaranteedUpdate key (casUpdate r m) false s).2 = inr Conflict <-> r <> rev s)) /\
  (let s := run [OpCreate gpu0 "v0"; OpCreate gpu1 "w0"] (NewStore 4) in
   let final := raceRun gpu0 (String "a") (String "b") [true; false; false; false]
                  (bothRead s "v0" 1) in
   Get gpu0 s = inl ("v0"%string, 1) /\ rev s = 2 /\
   r_first final = {| u_phase := Written 3; u_reads := [1]; u_conflicts := 0 |} /\
   r_second final = {| u_phase := Written 4; u_reads := [1; 3]; u_conflicts := 1 |} /\
   (GuaranteedUpdate gpu0 (casUpdate 1 (String "a")) false s).2
     = inl ("av0"%string, 3)) /\
  (let s := run [OpCreate gpu0 "v0"] (NewStore 4) in
   let final := raceRun gpu0 setLabel setLabel [true; false; false; false]
                  (bothRead s "v0" 1) in
   Get gpu0 s = inl ("v0"%string, 1) /\ rev s = 1 /\
   r_first final = {| u_phase := Written 2; u_reads := [1]; u_conflicts := 0 |} /\
   r_second final = {| u_phase := Written 2; u_reads := [1; 2]; u_conflicts := 1 |} /\
   Get gpu0 (r_store final) = inl ("labelled:v0"%string, 2) /\
   rev (r_store final) = 2).
Proof.
  intros gpu0 gpu1. split_and!.
  - intros H.
    destruct (H 4%nat [OpCreate gpu0 "v0"; OpCreate gpu1 "w0"]%string gpu0 "v0"%string 1
                (String "a") (String "b") true [false; false; false]) as [Hw _];
      [reflexivity|discriminate|discriminate|vm_compute; lia|].
    vm_compute in Hw. discriminate.
  - intros H.
    pose proof (H 4%nat [OpCreate gpu0 "v0"]%string gpu0 "v0"%string 1
                  setLabel setLabel true [false; false; false]) as Hl.
    cbv zeta in Hl.
    assert (Hl' := Hl eq_refl eq_refl). clear Hl.
    assert (Hne : setLabel "v0"%string <> "v0"%string) by (vm_compute; discriminate).
    specialize (Hl' Hne Hne).
    assert (Hn : (3 <= loserSteps true [false; false; false])%nat) by (vm_compute; lia).
    specialize (Hl' Hn). vm_compute in Hl'. discriminate.
  - intros H.
    destruct (H 4%nat [OpCreate gpu0 "v0"; OpCreate gpu1 "w0"]%string gpu0 1 (String "a"))
      as [_ Hc]; [by eexists|].
    assert (Hne : 1 <> rev (run [OpCreate gpu0 "v0"; OpCreate gpu1 "w0"]%string (NewStore 4)))
      by (vm_compute; discriminate).
    specialize (Hc Hne). vm_compute in Hc. discriminate.
  - by vm_compute.
  - by vm_compute.
Qed.

(** The race of the witness, run: the second updater wins with revision 2,
    the first one conflicts once and writes revision 3. *)
Example race_run :
  let key := "/gpus/default/gpu-0"%string in
  let s := (Create key "v0" (NewStore 4)).1 in
  let final := raceRun key (String "a") (String "b")
                 [false; true; true; false; true] (bothRead s "v0" 1) in
  r_second final = {| u_phase := Written 2; u_reads := [1]; u_conflicts := 0 |} /\
  r_first final = {| u_phase := Written 3; u_reads := [1; 2]; u_conflicts := 1 |} /\
  Get key (r_store final) = inl ("abv0"%string, 3).
Proof. by vm_compute. Qed.

End Race.

(** ** HealthEvent lifecycle *)

Section Lifecycle.
Import healthevents.
Implicit Types (w : World) (e : HealthEvent) (p q : Phase) (a : Action).

(** The transition graph, edge by edge: a move to [PhaseResolved] from any
    other phase, or a forward move among the other phases, by one position
    or from [PhaseQuarantined] straight to [PhaseDrained]. *)
Lemma validTransition_spec p q :
  validTransition p q = true <->
  (q = PhaseResolved /\ p <> PhaseResolved) \/
  (p <> PhaseResolved /\ q <> PhaseResolved /\
   (phaseRank q = S (phaseRank p) \/ (p = PhaseQuarantined /\ q = PhaseDrained))).
Proof.
  destruct p, q; simpl; split; intros H;
    try discriminate; try reflexivity;
    try (left; split; [reflexivity|discriminate]);
    try (right; split; [discriminate|split; [discriminate|]]; (by left) || (by right));
    exfalso; destruct H as [[H1 H2]|(H1 & H2 & [H3|[H3 H4]])];
    try discriminate; try (by apply H1); try (by apply H2).
Qed.

Lemma validTransition_rank p q :
  validTransition p q = true -> (phaseRank p < phaseRank q)%nat.
Proof. destruct p, q; simpl; intros H; try discriminate; lia. Qed.

(** What a status write does to the record. *)
Lemma writeStatus_event w e to ty st reason :
  (writeStatus w e to ty st reason = w) \/
  (exists e',
     writeStatus w e to ty st reason = setEvent w (Some e') /\
     name e' = name e /\ uid e' = uid e /\ spec e' = spec e /\
     phase (status e') = to /\
     (to = phase (status e) \/ validTransition (phase (status e)) to = true) /\
     conditions (status e') =
       setCondition (conditions (status e)) ty st reason (now w)).
Proof.
  unfold writeStatus, updateStatus.
  destruct (bool_decide (phase (status e) = to) || validTransition (phase (status e)) to)
    eqn:Hok; [|by left].
  right. eexists. split; [reflexivity|]. simpl. repeat split.
  apply orb_true_iff in Hok as [Hok|Hok]; [left|by right].
  apply bool_decide_eq_true in Hok. done.
Qed.

Lemma remediationSkipped_spec e e' :
  spec e' = spec e -> remediationSkipped e' = remediationSkipped e.
Proof. intros H. unfold remediationSkipped, override. by rewrite H. Qed.


Lemma stepOutcome_same a w e : stepOutcome a w e (Some e).
Proof. simpl. auto. Qed.

Lemma stepOutcome_write a w e w' to ty st reason :
  event w' = Some e ->
  (to = phase (status e) \/ transitionOwner a e w to) ->
  (ty = Remediated -> remediationSkipped e = true ->
   st = ConditionFalse /\ reason = "Skipped"%string) ->
  stepOutcome a w e (event (writeStatus w' e to ty st reason)).
Proof.
  intros Hw' Hown Hpol.
  destruct (writeStatus_event w' e to ty st reason)
    as [->|(e' & -> & _ & Huid & Hspec & Hto & Hedge & Hconds)].
  - rewrite Hw'. apply stepOutcome_same.
  - simpl. split; [done|]. split; [by apply remediationSkipped_spec|]. split.
    + destruct Hedge as [Heq|Hv]; [left; congruence|].
      destruct Hown as [Heq|Hown]; [left; congruence|].
      right. by rewrite Hto.
    + right. by exists ty, st, reason, (now w').
Qed.

Lemma step_cases cfg w a e :
  event w = Some e -> stepOutcome a w e (event (step cfg w a)).
Proof.
  intros He.
  destruct a as [nodeFound|blocked| | |sig| |rnName rp|seconds]; simpl step;
    try (rewrite He; apply stepOutcome_same).
  - unfold reconcileQuarantine. rewrite He.
    destruct (phase (status e)) eqn:P;
      try (rewrite He; apply stepOutcome_same);
      destruct (isFatal (spec e) && negb (override e quarantine_skip));
      try destruct nodeFound; try destruct (nodeUnschedulable w);
      apply stepOutcome_write; try done; rewrite ?P; simpl; eauto.
  - unfold reconcileDrain. rewrite He.
    destruct (phase (status e)) eqn:P; try (rewrite He; apply stepOutcome_same).
    + destruct (override e drain_skip || bool_decide (evictablePods w = 0%nat));
        apply stepOutcome_write; try done; simpl; eauto.
    + destruct (bool_decide (evictablePods w = 0%nat));
        [apply stepOutcome_write; try done; simpl; eauto|].
      destruct blocked; [|rewrite He; apply stepOutcome_same].
      apply stepOutcome_write; try done; rewrite P; auto.
  - unfold reconcileRemediation. rewrite He.
    destruct (phase (status e)) eqn:P; try (rewrite He; apply stepOutcome_same).
    destruct (remediationSkipped e) eqn:Hskip;
      [apply stepOutcome_write; try done; rewrite P; auto|].
    destruct (rebootNodes w !! rebootNodeName e) as [rn|] eqn:Hrn.
    + destruct (rn_phase rn) eqn:Hph; apply stepOutcome_write;
        try done; try (intros _ ?; congruence); rewrite ?P; auto.
      right. simpl. eauto.
    + apply stepOutcome_write; try done; try (intros _ ?; congruence);
        rewrite ?P; auto.
  - unfold reconcileTTL. rewrite He.
    set (w1 := match phase (status e) with PhaseResolved => _ | _ => _ end).
    assert (Hw1 : w1 = w \/ w1 = setEvent w None).
    { unfold w1. destruct (phase (status e)); auto.
      destruct (resolvedAt (status e)); auto.
      destruct (bool_decide _); auto. }
    clearbody w1.
    destruct Hw1 as [->| ->]; simpl event at 2.
    + rewrite He. destruct (_ && _ && _); simpl; rewrite He; apply stepOutcome_same.
    + by destruct (_ && _).
  - unfold publish. rewrite He.
    destruct (decide (phase (status e) = PhaseResolved));
      [rewrite He; apply stepOutcome_same|].
    destruct (isHealthy sig) eqn:Hh.
    + destruct (_ && _); [|rewrite He; apply stepOutcome_same].
      apply stepOutcome_write; try done. right. simpl. eauto.
    + destruct (decide (signature sig = signature (spec e)));
        [|rewrite He; apply stepOutcome_same].
      simpl. auto.
  - simpl event. rewrite He. apply stepOutcome_same.
Qed.

Lemma step_none cfg w a : event w = None -> event (step cfg w a) = None.
Proof.
  intros He.
  destruct a as [nodeFound|blocked| | |sig| |rnName rp|seconds]; simpl; try done.
  - unfold reconcileQuarantine. by rewrite He.
  - unfold reconcileDrain. by rewrite He.
  - unfold reconcileRemediation. by rewrite He.
  - unfold reconcileTTL. rewrite He. rewrite He. by destruct (_ && _).
  - unfold publish. by rewrite He.
Qed.

Lemma step_phaseStep cfg w a : phaseStep w (step cfg w a).
Proof.
  unfold phaseStep, phaseOf.
  destruct (event w) as [e|] eqn:He; simpl.
  - pose proof (step_cases cfg w a e He) as H.
    destruct (event (step cfg w a)) as [e'|]; simpl; [|done].
    destruct H as (_ & _ & [Hp|[Hv _]] & _); [left|right]; done.
  - by rewrite (step_none cfg w a He).
Qed.

Lemma run_cons cfg a history w :
  run cfg (a :: history) w = run cfg history (step cfg w a).
Proof. done. Qed.


Lemma run_none cfg history : forall w, phaseOf w = None -> phaseOf (run cfg history w) = None.
Proof.
  induction history as [|a history IH]; intros w Hw; [done|].
  rewrite run_cons. apply IH.
  pose proof (step_phaseStep cfg w a) as H. unfold phaseStep in H.
  rewrite Hw in H. by destruct (phaseOf (step cfg w a)).
Qed.

Lemma run_phase_monotone cfg history : forall w p p',
  phaseOf w = Some p -> phaseOf (run cfg history w) = Some p' ->
  (phaseRank p <= phaseRank p')%nat /\ (p = PhaseResolved -> p' = PhaseResolved).
Proof.
  induction history as [|a history IH]; intros w p p' Hp Hp'.
  - simpl in Hp'. rewrite Hp in Hp'. injection Hp' as <-. auto.
  - rewrite run_cons in Hp'.
    pose proof (step_phaseStep cfg w a) as H. unfold phaseStep in H.
    rewrite Hp in H.
    destruct (phaseOf (step cfg w a)) as [q|] eqn:Hq.
    + destruct (IH _ _ _ Hq Hp') as [Hle Hres].
      destruct H as [->|Hv]; [auto|].
      pose proof (validTransition_rank _ _ Hv). split; [lia|].
      intros ->. by destruct q.
    + rewrite (run_none cfg history _ Hq) in Hp'. discriminate.
Qed.

(** C1. The phase of a HealthEvent moves only along the transition graph:
    an edge leads either to [PhaseResolved] from any other phase, or
    forward in the order ""/New, Quarantined, Draining, Drained,
    Remediated (by one position, or from Quarantined straight to
    Drained).  Every step of every operational history keeps the phase or
    follows an edge, and only a healthy producer signal follows an edge to
    [PhaseResolved]; hence over every history the position of the phase in
    the order never decreases, a resolved event stays resolved, and a
    deleted record does not come back. *)
Theorem phase_never_regresses :
  (forall p q,
     validTransition p q = true <->
     (q = PhaseResolved /\ p <> PhaseResolved) \/
     (p <> PhaseResolved /\ q <> PhaseResolved /\
      (phaseRank q = S (phaseRank p) \/ (p = PhaseQuarantined /\ q = PhaseDrained)))) /\
  (forall cfg w a, phaseStep w (step cfg w a)) /\
  (forall cfg w a e e',
     event w = Some e -> event (step cfg w a) = Some e' ->
     phase (status e') <> phase (status e) ->
     transitionOwner a e w (phase (status e'))) /\
  (forall cfg history w p p',
     phaseOf w = Some p -> phaseOf (run cfg history w) = Some p' ->
     (phaseRank p <= phaseRank p')%nat /\ (p = PhaseResolved -> p' = PhaseResolved)) /\
  (forall cfg history w,
     phaseOf w = None -> phaseOf (run cfg history w) = None).
Proof.
  split; [apply validTransition_spec|].
  split; [apply step_phaseStep|].
  split.
  - intros cfg w a e e' He He' Hne.
    pose proof (step_cases cfg w a e He) as H. rewrite He' in H.
    destruct H as (_ & _ & [Hp|[_ Hown]] & _); [congruence|done].
  - split; [intros; by eapply run_phase_monotone|].
    intros. by apply run_none.
Qed.

(** *** Events whose remediation is skipped *)












(** Scenario S2, run: the event reaches Drained, stays there while the
    remediation controller reconciles, carrying Remediated=False/Skipped,
    no RebootNode appears, and the healthy signal resolves it. *)
Example s2_run :
  let e := newHealthEvent s2Signal "he-1" "u1" 0 in
  let w := created e 1 0 in
  map (fun n => phaseOf (run defaultConfig (take n s2History) w)) (seq 0 12) =
    [ Some PhaseEmpty; Some PhaseQuarantined; Some PhaseDraining;
      Some PhaseDraining; Some PhaseDraining; Some PhaseDrained;
      Some PhaseDrained; Some PhaseDrained; Some PhaseDrained;
      Some PhaseDrained; Some PhaseDrained; Some PhaseResolved ] /\
  rebootNodes (run defaultConfig s2History w) = ∅ /\
  match event (run defaultConfig s2History w) with
  | Some e' => findCondition (conditions (status e')) Remediated
  | None => None
  end = Some {| cond_type := Remediated; cond_status := ConditionFalse;
                cond_reason := "Skipped"; lastTransitionTime := 0 |}.
Proof. by vm_compute. Qed.

End Lifecycle.

(** * Further properties of the code *)

(** ** Signal classifier *)

Section ClassifierMore.
Import nvml.

(** X1. No code is both default-ignored and critical, so the order of the
    two table lookups in [GetXidSeverity] is immaterial: the severity is
    Ignored exactly on the default-ignored codes and Critical exactly on
    the critical ones, [IsCriticalXid] and [IsCritical] agree, and
    [isIgnoredXid] without additional codes is [IsDefaultIgnored]. *)
Theorem classification_tables_disjoint (c : N) :
  IsDefaultIgnored c && IsCritical c = false /\
  (GetXidSeverity c = XidSeverityIgnored <-> IsDefaultIgnored c = true) /\
  (GetXidSeverity c = XidSeverityCritical <-> IsCritical c = true) /\
  IsCriticalXid c = IsCritical c /\
  isIgnoredXid c [] = IsDefaultIgnored c.
Proof.
  pose proof (defaultIgnored_spec c) as Hi.
  pose proof (critical_spec c) as Hc.
  pose proof (tables_disjoint c) as Hd.
  unfold GetXidSeverity, IsDefaultIgnored, IsCritical, IsCriticalXid, isIgnoredXid.
  destruct (index_bool defaultIgnoredXids c), (index_bool criticalXids c); simpl;
    try (exfalso; apply Hd; tauto);
    repeat split; done.
Qed.

(** X2. [GetXidSeverity] never answers [XidSeverityUnknown]: the string
    of its answer is one of "ignored", "warning", "critical" and never
    "unknown".  [String] gives the four named constants four distinct
    strings; [XidSeverity] being an [int], it is also defined on every
    other value, which it maps to "unknown" through its [default] case,
    so that over all values it is not injective: "unknown" is the string
    of [XidSeverityUnknown] and of every value that is no named constant,
    and of no other. *)
Theorem severity_string_never_unknown (c : N) :
  GetXidSeverity c <> XidSeverityUnknown /\
  XidSeverity_String (XidSeverity_int (GetXidSeverity c))
    ∈ ["ignored"; "warning"; "critical"]%string /\
  XidSeverity_String (XidSeverity_int (GetXidSeverity c)) <> "unknown"%string /\
  (forall s1 s2 : XidSeverity,
     XidSeverity_String (XidSeverity_int s1) = XidSeverity_String (XidSeverity_int s2) ->
     s1 = s2) /\
  (forall s : Z,
     XidSeverity_String s = "unknown"%string <->
     s = XidSeverity_int XidSeverityUnknown \/
     (forall named : XidSeverity, s <> XidSeverity_int named)) /\
  XidSeverity_String 4 = XidSeverity_String (XidSeverity_int XidSeverityUnknown).
Proof.
  assert (Hinj : forall s1 s2 : XidSeverity,
            XidSeverity_String (XidSeverity_int s1) = XidSeverity_String (XidSeverity_int s2) ->
            s1 = s2)
    by (intros [] []; simpl; (reflexivity || discriminate)).
  assert (Hunk : forall s : Z,
            XidSeverity_String s = "unknown"%string <->
            s = XidSeverity_int XidSeverityUnknown \/
            (forall named : XidSeverity, s <> XidSeverity_int named)).
  { intros s. unfold XidSeverity_String. simpl.
    destruct (Z.eqb_spec s 0) as [->|H0]; [by split; [left|]|].
    destruct (Z.eqb_spec s 1) as [->|H1].
    { split; [discriminate|]. intros [?|H]; [done|]. by destruct (H XidSeverityIgnored). }
    destruct (Z.eqb_spec s 2) as [->|H2].
    { split; [discriminate|]. intros [?|H]; [done|]. by destruct (H XidSeverityWarning). }
    destruct (Z.eqb_spec s 3) as [->|H3].
    { split; [discriminate|]. intros [?|H]; [done|]. by destruct (H XidSeverityCritical). }
    split; [|done]. intros _. right. by intros []. }
  unfold GetXidSeverity.
  destruct (index_bool defaultIgnoredXids c), (index_bool criticalXids c); simpl;
    repeat split; try done; try apply Hunk; rewrite ?elem_of_cons; auto.
Qed.

(** X3. Every code of the two classification tables has an entry in the
    description table: [xidToString] answers "Unknown XID" for none of
    them. *)
Theorem classified_codes_are_described (c : N) :
  IsDefaultIgnored c = true \/ IsCritical c = true ->
  xidToString c <> "Unknown XID"%string /\ is_Some (XidDescriptions !! c).
Proof.
  unfold IsDefaultIgnored, IsCritical. rewrite defaultIgnored_spec, critical_spec.
  unfold ignoredCodes, criticalCodes. rewrite !elem_of_cons, !elem_of_nil.
  intros H.
  repeat (destruct H as [H|H]; try done); subst c;
    (split; [by vm_compute|by eexists]).
Qed.

Lemma classified_codes_are_described_witness :
  xidToString 79 <> "Unknown XID"%string /\ is_Some (XidDescriptions !! 79).
Proof. apply (classified_codes_are_described 79). right. reflexivity. Defined.

Lemma range_copy_union (entries : list (N * bool)) : forall acc : gmap N bool,
  foldl (fun out kv => <[kv.1 := kv.2]> out) acc entries =
  list_to_map (reverse entries) ∪ acc.
Proof.
  induction entries as [|[k v] entries IH]; intros acc; simpl.
  - by rewrite (left_id_L ∅ (∪)).
  - rewrite IH, reverse_cons, list_to_map_app. simpl.
    rewrite <- (assoc_L (∪)). f_equal.
    by rewrite insert_union_singleton_l, insert_empty.
Qed.

(** X4. Whatever order the [range] loop visits the entries in,
    [DefaultIgnoredXidsList] returns a map with exactly the entries of
    [defaultIgnoredXids]: looking a code up in the copy answers as
    [IsDefaultIgnored] does. *)
Theorem DefaultIgnoredXidsList_copies (entries : list (N * bool)) :
  entries ≡ₚ map_to_list defaultIgnoredXids ->
  DefaultIgnoredXidsList_range entries = defaultIgnoredXids /\
  (forall c, index_bool (DefaultIgnoredXidsList_range entries) c = IsDefaultIgnored c).
Proof.
  intros Hperm.
  assert (Heq : DefaultIgnoredXidsList_range entries = defaultIgnoredXids).
  { unfold DefaultIgnoredXidsList_range. rewrite range_copy_union.
    rewrite (right_id_L ∅ (∪)).
    etrans; [|apply (list_to_map_to_list defaultIgnoredXids)].
    apply list_to_map_proper.
    - rewrite fmap_reverse, reverse_Permutation, Hperm.
      apply NoDup_fst_map_to_list.
    - by rewrite reverse_Permutation. }
  split; [done|]. intros c. by rewrite Heq.
Qed.

Lemma DefaultIgnoredXidsList_copies_witness :
  DefaultIgnoredXidsList_range
    [(109, true); (68, true); (45, true); (43, true); (31, true); (13, true)]
  = defaultIgnoredXids.
Proof.
  refine (proj1 (DefaultIgnoredXidsList_copies _ _)).
  symmetry.
  change [(109, true); (68, true); (45, true); (43, true); (31, true); (13, true)]
    with (reverse [(13, true); (31, true); (43, true); (45, true); (68, true); (109, true)]).
  rewrite reverse_Permutation.
  apply map_to_list_to_map. by compute_done.
Defined.

End ClassifierMore.

(** ** Parsing the operator's list of ignored codes *)

Section ParserMore.
Import nvml.

Local Arguments String.append : simpl nomatch.

Lemma ParseIgnoredXids_elems (input : string) :
  slice_elems (ParseIgnoredXids input) =
  omap parsesAsUint64 (gostrings.FieldsFunc input isXidSeparator).
Proof.
  destruct input as [|ch input]; [done|].
  unfold ParseIgnoredXids.
  pose proof (ParseIgnoredXids_loop_elems
    (gostrings.FieldsFunc (String ch input) isXidSeparator) None) as Hl.
  simpl in Hl. rewrite <- Hl.
  destruct (ParseIgnoredXids_loop _ None) as [[|v l]|]; done.
Qed.

Lemma parsesAsUint64_bound (tok : string) (v : N) :
  parsesAsUint64 tok = Some v -> v < 2 ^ 64.
Proof.
  unfold parsesAsUint64. destruct tok as [|ch tok]; [done|].
  generalize (String ch tok). intros s.
  destruct (allDigits s); simpl; [|done].
  destruct (N.ltb_spec (decimalValue 0 s) (2 ^ 64)); [|done].
  by intros [= <-].
Qed.

(** X5. Every value [ParseIgnoredXids] returns fits [uint64], and the
    function never returns an empty non-nil slice: the result is nil or has
    at least one element. *)
Theorem ParseIgnoredXids_values_fit (input : string) :
  Forall (fun v => v < 2 ^ 64) (slice_elems (ParseIgnoredXids input)) /\
  ParseIgnoredXids input <> Some [].
Proof.
  split.
  - rewrite ParseIgnoredXids_elems. apply Forall_forall.
    intros v Hv. apply list_elem_of_omap in Hv as (tok & _ & Htok).
    by eapply parsesAsUint64_bound.
  - destruct input as [|ch input]; [done|].
    unfold ParseIgnoredXids.
    destruct (ParseIgnoredXids_loop _ None) as [[|v l]|]; done.
Qed.

(** X6. The parser composed with the ignore test: with the list parsed
    from the operator's string, [isIgnoredXid] holds for a code iff the
    code is default-ignored or is the value of one of the string's tokens. *)
Theorem isIgnoredXid_of_parsed_list (c : N) (input : string) :
  isIgnoredXid c (slice_elems (ParseIgnoredXids input)) = true <->
  IsDefaultIgnored c = true \/
  exists tok, tok ∈ gostrings.FieldsFunc input isXidSeparator /\
              parsesAsUint64 tok = Some c.
Proof.
  unfold isIgnoredXid, IsDefaultIgnored.
  destruct (index_bool defaultIgnoredXids c); [tauto|].
  rewrite isIgnoredXid_loop_spec, ParseIgnoredXids_elems, list_elem_of_omap.
  split; [by right|]. by intros [?|?].
Qed.

Lemma atBoundary_app sep (s b : string) ch :
  sep ch = true -> atBoundary sep s = true ->
  atBoundary sep (s +:+ String ch b) = true.
Proof. intros Hch Hs. by destruct s. Qed.

Lemma Fields_app sep (a b : string) ch ta tb :
  sep ch = true -> Fields sep a ta -> Fields sep b tb ->
  Fields sep (a +:+ String ch b) (ta ++ tb).
Proof.
  intros Hch Ha Hb.
  induction Ha as [|c s toks Hc _ IH|tok s toks Hne Hfree Hbd _ IH]; simpl.
  - by constructor.
  - by constructor.
  - rewrite append_assoc. constructor; [done..| |done].
    by apply atBoundary_app.
Qed.

Lemma FieldsFunc_app (a b : string) ch :
  isXidSeparator ch = true ->
  gostrings.FieldsFunc (a +:+ String ch b) isXidSeparator =
  gostrings.FieldsFunc a isXidSeparator ++ gostrings.FieldsFunc b isXidSeparator.
Proof.
  intros Hch.
  pose proof (FieldsFunc_loop_Fields isXidSeparator a) as [Ha _].
  pose proof (FieldsFunc_loop_Fields isXidSeparator b) as [Hb _].
  pose proof (FieldsFunc_loop_Fields isXidSeparator (a +:+ String ch b)) as [Hab _].
  eapply Fields_functional; [exact Hab|]. by apply Fields_app.
Qed.

(** X7. Parsing distributes over joining with a separator: the codes
    parsed from [a], a comma or a space, and [b] are the codes of [a]
    followed by the codes of [b]; in particular leading and trailing
    separators change nothing. *)
Theorem ParseIgnoredXids_join (a b : string) :
  slice_elems (ParseIgnoredXids (a +:+ String "," b)) =
    slice_elems (ParseIgnoredXids a) ++ slice_elems (ParseIgnoredXids b) /\
  slice_elems (ParseIgnoredXids (a +:+ String " " b)) =
    slice_elems (ParseIgnoredXids a) ++ slice_elems (ParseIgnoredXids b) /\
  slice_elems (ParseIgnoredXids (String "," a)) = slice_elems (ParseIgnoredXids a) /\
  slice_elems (ParseIgnoredXids (a +:+ ",")) = slice_elems (ParseIgnoredXids a).
Proof.
  rewrite !ParseIgnoredXids_elems.
  rewrite !FieldsFunc_app by done. rewrite !omap_app.
  repeat split; try reflexivity.
  change (gostrings.FieldsFunc "" isXidSeparator) with (@nil string).
  simpl. by rewrite app_nil_r.
Qed.

End ParserMore.

(** ** Composite gang discoverer *)

Section CompositeMore.
Import gang gang_members.
Context {Ctx : Type}.
Implicit Types (ds : list (GangDiscoverer Ctx)) (pod : Pod) (ctx : Ctx).

Lemma ActiveDiscoverer_loop_spec ds pod :
  match Composite_ActiveDiscoverer_loop ds pod with
  | Some d =>
      exists before after,
        ds = before ++ d :: after /\
        (forall d', d' ∈ before -> CanHandle d' pod = false) /\
        CanHandle d pod = true
  | None => forall d, d ∈ ds -> CanHandle d pod = false
  end.
Proof.
  induction ds as [|d ds IH]; simpl.
  - intros d Hin. by apply elem_of_nil in Hin.
  - destruct (CanHandle d pod) eqn:Hd.
    + exists [], ds. repeat split; [|done]. intros d' Hin. by apply elem_of_nil in Hin.
    + destruct (Composite_ActiveDiscoverer_loop ds pod) as [d0|].
      * destruct IH as (before & after & -> & Hb & Hd0).
        exists (d :: before), after. repeat split; [|done].
        intros d' Hin. apply elem_of_cons in Hin as [->|Hin]; auto.
      * intros d' Hin. apply elem_of_cons in Hin as [->|Hin]; auto.
Qed.

Lemma DiscoverPeers_loop_active ds ctx pod :
  Composite_DiscoverPeers_loop ds ctx pod =
  match Composite_ActiveDiscoverer_loop ds pod with
  | Some d => DiscoverPeers d ctx pod
  | None => (None, None)
  end.
Proof.
  induction ds as [|d ds IH]; simpl; [done|]. by destruct (CanHandle d pod).
Qed.

Lemma CanHandle_loop_active ds pod :
  Composite_CanHandle_loop ds pod =
  bool_decide (is_Some (Composite_ActiveDiscoverer_loop ds pod)).
Proof.
  induction ds as [|d ds IH]; simpl; [done|].
  by destruct (CanHandle d pod).
Qed.

(** X8. The three loops of the composite agree on the member they pick:
    [ActiveDiscoverer] returns the first member, in construction order,
    that can handle the pod, or nil when none can; [CanHandle] is true
    exactly when [ActiveDiscoverer] is not nil; and [DiscoverPeers] is the
    answer of the active discoverer, [(nil, nil)] when there is none. *)
Theorem composite_active_discoverer ds ctx pod :
  let c := NewCompositeGangDiscoverer ds in
  match Composite_ActiveDiscoverer c pod with
  | Some d =>
      (exists before after,
         ds = before ++ d :: after /\
         (forall d', d' ∈ before -> CanHandle d' pod = false) /\
         CanHandle d pod = true) /\
      Composite_CanHandle c pod = true /\
      Composite_DiscoverPeers c ctx pod = DiscoverPeers d ctx pod
  | None =>
      (forall d, d ∈ ds -> CanHandle d pod = false) /\
      Composite_CanHandle c pod = false /\
      Composite_DiscoverPeers c ctx pod = (None, None)
  end.
Proof.
  intros c. unfold c, Composite_ActiveDiscoverer, Composite_CanHandle,
    Composite_DiscoverPeers, NewCompositeGangDiscoverer. simpl.
  pose proof (ActiveDiscoverer_loop_spec ds pod) as Hact.
  rewrite DiscoverPeers_loop_active, CanHandle_loop_active.
  destruct (Composite_ActiveDiscoverer_loop ds pod) as [d|]; by repeat split.
Qed.

Lemma ExtractGangID_loop_spec ds pod :
  (exists before d after,
      ds = before ++ d :: after /\
      (forall d', d' ∈ before ->
         CanHandle d' pod = false \/ ExtractGangID d' pod = ""%string) /\
      CanHandle d pod = true /\ ExtractGangID d pod <> ""%string /\
      Composite_ExtractGangID_loop ds pod = ExtractGangID d pod) \/
  ((forall d, d ∈ ds ->
      CanHandle d pod = false \/ ExtractGangID d pod = ""%string) /\
   Composite_ExtractGangID_loop ds pod = ""%string).
Proof.
  induction ds as [|d ds IH]; simpl.
  - right. split; [|done]. intros d Hin. by apply elem_of_nil in Hin.
  - assert (Hskip :
      CanHandle d pod = false \/ ExtractGangID d pod = ""%string ->
      (exists before d0 after,
          d :: ds = before ++ d0 :: after /\
          (forall d', d' ∈ before ->
             CanHandle d' pod = false \/ ExtractGangID d' pod = ""%string) /\
          CanHandle d0 pod = true /\ ExtractGangID d0 pod <> ""%string /\
          Composite_ExtractGangID_loop ds pod = ExtractGangID d0 pod) \/
      ((forall d0, d0 ∈ d :: ds ->
          CanHandle d0 pod = false \/ ExtractGangID d0 pod = ""%string) /\
       Composite_ExtractGangID_loop ds pod = ""%string)).
    { intros Hd.
      destruct IH as [(before & d0 & after & -> & Hb & Hd0 & Hne & Heq)|[Hall Heq]].
      - left. exists (d :: before), d0, after. repeat split; [|done..].
        intros d' Hin. apply elem_of_cons in Hin as [->|Hin]; auto.
      - right. split; [|done].
        intros d' Hin. apply elem_of_cons in Hin as [->|Hin]; auto. }
    destruct (CanHandle d pod) eqn:Hd; [|by apply Hskip; left].
    destruct (decide (ExtractGangID d pod <> ""%string)) as [Hne|He].
    + left. exists [], d, ds. repeat split; [|done..].
      intros d' Hin. by apply elem_of_nil in Hin.
    + apply Hskip. right. by destruct (decide (ExtractGangID d pod = ""%string)).
Qed.

(** X9. [ExtractGangID] of the composite is the gang ID of the first
    member that can handle the pod and extracts a non-empty ID; members
    that can handle the pod but extract the empty ID are passed over.  It
    is empty when there is no such member, so a non-empty gang ID implies
    that the composite can handle the pod.  When the active discoverer
    (the one [DiscoverPeers] uses) extracts a non-empty ID, that ID is the
    composite's. *)
Theorem composite_extract_gang_id ds pod :
  let c := NewCompositeGangDiscoverer ds in
  ((exists before d after,
       ds = before ++ d :: after /\
       (forall d', d' ∈ before ->
          CanHandle d' pod = false \/ ExtractGangID d' pod = ""%string) /\
       CanHandle d pod = true /\ ExtractGangID d pod <> ""%string /\
       Composite_ExtractGangID c pod = ExtractGangID d pod) \/
   ((forall d, d ∈ ds ->
       CanHandle d pod = false \/ ExtractGangID d pod = ""%string) /\
    Composite_ExtractGangID c pod = ""%string)) /\
  (Composite_ExtractGangID c pod <> ""%string -> Composite_CanHandle c pod = true) /\
  (forall d, Composite_ActiveDiscoverer c pod = Some d ->
     ExtractGangID d pod <> ""%string ->
     Composite_ExtractGangID c pod = ExtractGangID d pod).
Proof.
  intros c. unfold c, Composite_ExtractGangID, Composite_CanHandle,
    Composite_ActiveDiscoverer, NewCompositeGangDiscoverer. simpl.
  split; [apply ExtractGangID_loop_spec|]. split.
  - intros Hne.
    destruct (ExtractGangID_loop_spec ds pod)
      as [(before & d & after & -> & _ & Hd & _ & _)|[_ Heq]]; [|done].
    apply Composite_CanHandle_loop_spec. exists d. split; [|done].
    apply elem_of_app. right. left.
  - induction ds as [|d0 ds IH]; simpl; [done|].
    destruct (CanHandle d0 pod).
    + intros d [= <-] Hne. by destruct (decide (ExtractGangID d0 pod <> ""%string)).
    + apply IH.
Qed.

(** The methods of a composite over the members of several composites. *)
Lemma CanHandle_loop_app ds1 ds2 pod :
  Composite_CanHandle_loop (ds1 ++ ds2) pod =
  Composite_CanHandle_loop ds1 pod || Composite_CanHandle_loop ds2 pod.
Proof.
  induction ds1 as [|d ds1 IH]; simpl; [done|]. by destruct (CanHandle d pod).
Qed.

Lemma DiscoverPeers_loop_app ds1 ds2 ctx pod :
  Composite_DiscoverPeers_loop (ds1 ++ ds2) ctx pod =
  if Composite_CanHandle_loop ds1 pod then Composite_DiscoverPeers_loop ds1 ctx pod
  else Composite_DiscoverPeers_loop ds2 ctx pod.
Proof.
  induction ds1 as [|d ds1 IH]; simpl; [done|]. by destruct (CanHandle d pod).
Qed.

Lemma ExtractGangID_loop_app ds1 ds2 pod :
  Composite_ExtractGangID_loop (ds1 ++ ds2) pod =
  if decide (Composite_ExtractGangID_loop ds1 pod <> ""%string)
  then Composite_ExtractGangID_loop ds1 pod
  else Composite_ExtractGangID_loop ds2 pod.
Proof.
  induction ds1 as [|d ds1 IH]; simpl; [done|].
  destruct (CanHandle d pod); [|done].
  destruct (decide (ExtractGangID d pod <> ""%string)) as [Hne|He]; [|done].
  by rewrite decide_True.
Qed.

Lemma ExtractGangID_loop_empty_or_capable ds pod :
  Composite_CanHandle_loop ds pod = false ->
  Composite_ExtractGangID_loop ds pod = ""%string.
Proof.
  induction ds as [|d ds IH]; simpl; [done|].
  destruct (CanHandle d pod); [done|]. apply IH.
Qed.

(** X10. Composites nest transparently: a composite whose members are
    themselves composites answers [CanHandle], [ExtractGangID] and
    [DiscoverPeers] exactly as the flat composite over all their members,
    in order. *)
Theorem composite_of_composites_flattens
    (cs : list (CompositeGangDiscoverer Ctx)) ctx pod :
  let nested := NewCompositeGangDiscoverer (Composite_asDiscoverer <$> cs) in
  let flat := NewCompositeGangDiscoverer (cs ≫= discoverers) in
  Composite_CanHandle nested pod = Composite_CanHandle flat pod /\
  Composite_ExtractGangID nested pod = Composite_ExtractGangID flat pod /\
  Composite_DiscoverPeers nested ctx pod = Composite_DiscoverPeers flat ctx pod.
Proof.
  intros nested flat.
  unfold nested, flat, Composite_CanHandle, Composite_ExtractGangID,
    Composite_DiscoverPeers, NewCompositeGangDiscoverer. simpl.
  induction cs as [|c cs (IH1 & IH2 & IH3)]; [done|].
  rewrite fmap_cons, bind_cons.
  rewrite CanHandle_loop_app, ExtractGangID_loop_app, DiscoverPeers_loop_app.
  rewrite <- IH1, <- IH2, <- IH3.
  cbn [Composite_CanHandle_loop Composite_ExtractGangID_loop
       Composite_DiscoverPeers_loop Composite_asDiscoverer
       CanHandle ExtractGangID DiscoverPeers].
  unfold Composite_CanHandle, Composite_ExtractGangID, Composite_DiscoverPeers.
  destruct (Composite_CanHandle_loop (discoverers c) pod) eqn:Hc; simpl.
  - done.
  - repeat split.
    rewrite (ExtractGangID_loop_empty_or_capable _ _ Hc).
    by rewrite decide_False by (by intros ?).
Qed.

End CompositeMore.

(** ** Kueue discoverer *)

Section KueueMore.
Import gang gang_members.
Context {Ctx : Type}.
Implicit Types (pod : Pod) (ctx : Ctx) (kubeClient : PodLister Ctx).

(** X11. For the Kueue discoverer, [CanHandle] tests that the
    workload-name label is present, [ExtractGangID] that its value is not
    empty: the gang ID is "kueue-<namespace>-<workload>" for a non-empty
    workload name and empty otherwise, so a non-empty gang ID implies
    [CanHandle], while a pod whose label is present but empty can be
    handled and has the empty gang ID. *)
Theorem Kueue_gang_id pod :
  (Kueue_CanHandle pod = true <-> is_Some (kueueWorkload pod)) /\
  Kueue_ExtractGangID pod =
    match kueueWorkload pod with
    | Some workload =>
        if decide (workload = ""%string) then ""%string
        else ("kueue-" +:+ pod_Namespace pod +:+ "-" +:+ workload)%string
    | None => ""%string
    end /\
  (Kueue_ExtractGangID pod <> ""%string -> Kueue_CanHandle pod = true) /\
  (Kueue_CanHandle pod = true /\ Kueue_ExtractGangID pod = ""%string <->
   kueueWorkload pod = Some ""%string).
Proof.
  unfold Kueue_CanHandle, Kueue_ExtractGangID, kueueWorkload.
  destruct (pod_Labels pod) as [labels|]; simpl.
  - destruct (labels !! KueueWorkloadNameLabel) as [workload|] eqn:E; simpl.
    + destruct (decide (workload = ""%string)) as [->|Hne].
      * split_and!; [by eauto|done|done|]. split; [done|by eauto].
      * split_and!; [by eauto|done|done|].
        split; [intros [_ ?]; discriminate|intros [= ->]; done].
    + split_and!; [|done|done|].
      * split; [discriminate|by intros [? [=]]].
      * split; [by intros [[=] _]|discriminate].
  - split_and!; [|done|done|].
    + split; [discriminate|by intros [? [=]]].
    + split; [by intros [[=] _]|discriminate].
Qed.

Lemma Kueue_peers_filter (items : list Pod) :
  Kueue_peers items = peerOf <$> filter isLive items.
Proof.
  induction items as [|p items IH]; [done|]. simpl.
  destruct (decide (isLive p)) as [Hl|Hn].
  - rewrite filter_cons_True by done. rewrite fmap_cons, <- IH.
    unfold isLive in Hl. by destruct (pod_Phase p), Hl.
  - rewrite filter_cons_False by done. rewrite <- IH.
    unfold isLive in Hn. destruct (pod_Phase p); try done; exfalso; apply Hn; auto.
Qed.

(** X12. What [DiscoverPeers] of the Kueue discoverer returns.  It never
    returns a gang together with an error.  It returns an error exactly
    when the pod can be handled and listing the pods fails.  It returns a
    gang exactly when the pod can be handled, the listing succeeds and at
    least one listed pod is running or pending; the peers are then those
    pods, in listing order, and the expected count is their number, at
    least one.  A pod that cannot be handled gives [(nil, nil)] whatever
    the client answers. *)
Theorem Kueue_DiscoverPeers_outcome kubeClient ctx pod :
  let listing :=
    kubeClient ctx (pod_Namespace pod) KueueWorkloadNameLabel
      (default ""%string (kueueWorkload pod)) in
  match Kueue_DiscoverPeers kubeClient ctx pod with
  | (Some g, None) =>
      Kueue_CanHandle pod = true /\
      exists items,
        listing = inl items /\
        Peers g = peerOf <$> filter isLive items /\
        Peers g <> [] /\
        ExpectedMinCount g = length (Peers g) /\
        (1 <= ExpectedMinCount g)%nat /\
        GangID g = Kueue_ExtractGangID pod
  | (None, Some err) =>
      Kueue_CanHandle pod = true /\ exists e, listing = inr e
  | (None, None) =>
      Kueue_CanHandle pod = false \/
      exists items, listing = inl items /\ filter isLive items = []
  | (Some _, Some _) => False
  end.
Proof.
  intros listing. unfold Kueue_DiscoverPeers.
  destruct (Kueue_CanHandle pod) eqn:Hc; simpl; [|by left].
  assert (Hl : kubeClient ctx (pod_Namespace pod) KueueWorkloadNameLabel
                 (default ""%string (default ∅ (pod_Labels pod) !! KueueWorkloadNameLabel))
               = listing).
  { unfold listing, kueueWorkload. by destruct (pod_Labels pod). }
  rewrite Hl. destruct listing as [items|e]; [|by eauto].
  rewrite Kueue_peers_filter.
  destruct (peerOf <$> filter isLive items) as [|peer peers] eqn:Hp.
  - right. exists items. split; [done|]. by apply fmap_nil_inv in Hp.
  - simpl. split; [done|]. exists items. repeat split; try done. lia.
Qed.

End KueueMore.

(** ** Volcano discoverers *)

Section VolcanoMore.
Import gang gang_members.
Context {Ctx : Type}.
Implicit Types (pod : Pod) (ctx : Ctx) (kubeClient : NamespaceLister Ctx)
  (dynamicClient : PodGroupClient Ctx).

Lemma Volcano_peers_filter podGroupName (items : list Pod) :
  Volcano_peers podGroupName items = peerOf <$> filter (inPodGroup podGroupName) items.
Proof.
  induction items as [|p items IH]; [done|]. simpl.
  destruct (pod_Annotations p) as [annotations|] eqn:Ha; simpl.
  - destruct (decide (default ""%string (annotations !! VolcanoPodGroupAnnotation)
                      <> podGroupName)) as [Hne|Heq].
    + rewrite filter_cons_False; [done|]. unfold inPodGroup, index_string.
      rewrite Ha. simpl. tauto.
    + apply dec_stable in Heq.
      destruct (decide (isLive p)) as [Hl|Hn].
      * rewrite filter_cons_True.
        -- rewrite fmap_cons, <- IH. unfold isLive in Hl.
           by destruct (pod_Phase p), Hl.
        -- unfold inPodGroup, index_string. rewrite Ha. simpl. eauto.
      * rewrite filter_cons_False.
        -- unfold isLive in Hn.
           destruct (pod_Phase p); try done; exfalso; apply Hn; auto.
        -- unfold inPodGroup. tauto.
  - rewrite filter_cons_False; [done|]. unfold inPodGroup. rewrite Ha.
    intros [[? [=]] _].
Qed.

Lemma getPodGroupMinMember_error dynamicClient ctx namespace name :
  (getPodGroupMinMember dynamicClient ctx namespace name).2 <> None ->
  (getPodGroupMinMember dynamicClient ctx namespace name).1 = 0%Z.
Proof.
  unfold getPodGroupMinMember. destruct dynamicClient as [get|]; [|done].
  destruct (get ctx namespace name) as [[minMember| |err]|err]; done.
Qed.

(** X13. What [DiscoverPeers] of the Volcano discoverer (package gang)
    returns.  It never returns a gang together with an error, and its only
    error is a failed pod listing: a failed PodGroup lookup (nil client,
    failed Get, ill-typed field) is never an error of discovery.  A gang is
    returned exactly when the pod can be handled, the listing succeeds and
    some listed pod is a live member of the pod group; its peers are
    those pods in listing order, and its expected count is the PodGroup's
    [minMember] when the lookup gave a non-zero one and the number of
    peers otherwise, hence never zero. *)
Theorem Volcano_DiscoverPeers_outcome kubeClient dynamicClient ctx pod :
  let podGroupName := index_string (pod_Annotations pod) VolcanoPodGroupAnnotation in
  let lookup := getPodGroupMinMember dynamicClient ctx (pod_Namespace pod) podGroupName in
  let listing := kubeClient ctx (pod_Namespace pod) in
  (lookup.2 <> None -> lookup.1 = 0%Z) /\
  match Volcano_DiscoverPeers kubeClient dynamicClient ctx pod with
  | (Some g, None) =>
      Volcano_CanHandle pod = true /\
      exists items,
        listing = inl items /\
        gi_Peers g = peerOf <$> filter (inPodGroup podGroupName) items /\
        gi_Peers g <> [] /\
        gi_ExpectedMinCount g =
          (if decide (lookup.1 = 0%Z) then Z.of_nat (length (gi_Peers g))
           else lookup.1) /\
        gi_ExpectedMinCount g <> 0%Z /\
        gi_GangID g = Volcano_ExtractGangID pod
  | (None, Some err) =>
      Volcano_CanHandle pod = true /\ exists e, listing = inr e
  | (None, None) =>
      Volcano_CanHandle pod = false \/
      exists items, listing = inl items /\ filter (inPodGroup podGroupName) items = []
  | (Some _, Some _) => False
  end.
Proof.
  intros podGroupName lookup listing.
  split; [apply getPodGroupMinMember_error|].
  unfold Volcano_DiscoverPeers.
  destruct (Volcano_CanHandle pod) eqn:Hc; simpl; [|by left].
  fold podGroupName. fold lookup. fold listing.
  destruct listing as [items|e]; [|by eauto].
  rewrite Volcano_peers_filter.
  destruct (peerOf <$> filter (inPodGroup podGroupName) items) as [|peer peers] eqn:Hp.
  - right. exists items. split; [done|]. by apply fmap_nil_inv in Hp.
  - simpl. split; [done|]. exists items. repeat split; try done.
    destruct (decide (lookup.1 = 0%Z)); [lia|done].
Qed.

(** X14. The two generations of the Volcano discoverer on the gang ID.
    The new one (package discoverer) takes the pod-group name from the
    pod-group annotation, else from the group-name annotation, else from
    the job-name label, empty values counting as absent, and is coherent:
    it can handle a pod exactly when it extracts a non-empty gang ID,
    which is "volcano-<namespace>-<name>".  The old one (package gang) can
    handle a pod whose pod-group annotation is present but empty, for which
    it extracts the empty gang ID; whenever the old one extracts a
    non-empty gang ID, the new one extracts the same. *)
Theorem Volcano_gang_id_generations pod :
  let fromGroup := index_string (pod_Annotations pod) VolcanoPodGroupAnnotation in
  let fromName := index_string (pod_Annotations pod) discoverer.SchedulingGroupNameAnnotation in
  let fromJob := index_string (pod_Labels pod) discoverer.VolcanoJobNameLabel in
  discoverer.getPodGroupName pod =
    (if decide (fromGroup <> ""%string) then fromGroup
     else if decide (fromName <> ""%string) then fromName
     else fromJob) /\
  (discoverer.CanHandle pod = true <-> discoverer.ExtractGangID pod <> ""%string) /\
  (discoverer.CanHandle pod = true ->
   discoverer.ExtractGangID pod =
     ("volcano-" +:+ pod_Namespace pod +:+ "-" +:+ discoverer.getPodGroupName pod)%string) /\
  (Volcano_CanHandle pod = true /\ Volcano_ExtractGangID pod = ""%string <->
   pod_Annotations pod ≫= (.!! VolcanoPodGroupAnnotation) = Some ""%string) /\
  (Volcano_ExtractGangID pod <> ""%string ->
   Volcano_CanHandle pod = true /\
   discoverer.ExtractGangID pod = Volcano_ExtractGangID pod).
Proof.
  intros fromGroup fromName fromJob.
  assert (Hname : discoverer.getPodGroupName pod =
    (if decide (fromGroup <> ""%string) then fromGroup
     else if decide (fromName <> ""%string) then fromName
     else fromJob)).
  { unfold discoverer.getPodGroupName, fromGroup, fromName, fromJob, index_string.
    destruct (pod_Annotations pod) as [annotations|];
      destruct (pod_Labels pod) as [labels|]; simpl;
      repeat case_decide; try done; try (exfalso; tauto);
      try (symmetry; by apply dec_stable). }
  split; [done|].
  assert (Hcoh : discoverer.CanHandle pod = true <->
                 discoverer.ExtractGangID pod <> ""%string).
  { unfold discoverer.CanHandle, discoverer.ExtractGangID.
    rewrite bool_decide_eq_true.
    destruct (decide (discoverer.getPodGroupName pod = ""%string)) as [->|Hne].
    - tauto.
    - split; [intros _; discriminate|done]. }
  split; [done|]. split.
  { unfold discoverer.CanHandle, discoverer.ExtractGangID.
    rewrite bool_decide_eq_true. intros Hne. by rewrite decide_False. }
  assert (Hold : Volcano_ExtractGangID pod <> ""%string ->
    Volcano_CanHandle pod = true /\ fromGroup <> ""%string /\
    Volcano_ExtractGangID pod =
      ("volcano-" +:+ pod_Namespace pod +:+ "-" +:+ fromGroup)%string).
  { unfold Volcano_ExtractGangID, Volcano_CanHandle, fromGroup, index_string.
    destruct (pod_Annotations pod) as [annotations|]; simpl; [|done].
    destruct (annotations !! VolcanoPodGroupAnnotation) as [name|]; simpl; [|done].
    destruct (decide (name = ""%string)); [done|]. auto. }
  split.
  - unfold Volcano_CanHandle, Volcano_ExtractGangID.
    destruct (pod_Annotations pod) as [annotations|]; simpl.
    + destruct (annotations !! VolcanoPodGroupAnnotation) as [name|]; simpl.
      * destruct (decide (name = ""%string)) as [->|Hne].
        -- split; eauto.
        -- split; [intros [_ ?]; discriminate|intros [= ->]; done].
      * split; [by intros [[=] _]|discriminate].
    + split; [by intros [[=] _]|discriminate].
  - intros Hne. destruct (Hold Hne) as (Hc & Hg & Hid). split; [done|].
    rewrite Hid. unfold discoverer.ExtractGangID. rewrite Hname.
    destruct (decide (fromGroup <> ""%string)); [|done].
    by rewrite decide_False by done.
Qed.

Lemma peersOf_filter podGroupName (items : list Pod) :
  discoverer.peersOf podGroupName items =
  peerOf <$> filter (discoverer.inNamedGroup podGroupName) items.
Proof.
  induction items as [|p items IH]; [done|]. simpl.
  destruct (decide (discoverer.getPodGroupName p <> podGroupName)) as [Hne|Heq].
  - rewrite filter_cons_False; [done|]. unfold discoverer.inNamedGroup. tauto.
  - apply dec_stable in Heq.
    destruct (decide (isLive p)) as [Hl|Hn].
    + rewrite filter_cons_True by done.
      rewrite fmap_cons, <- IH. unfold isLive in Hl.
      by destruct (pod_Phase p), Hl.
    + rewrite filter_cons_False by (unfold discoverer.inNamedGroup; tauto).
      unfold isLive in Hn.
      destruct (pod_Phase p); try done; exfalso; apply Hn; auto.
Qed.

(** X15. What [DiscoverPeers] of the Volcano discoverer (package
    discoverer) returns.  Its only error is a failed pod listing, and it
    never returns a gang together with an error.  A gang is returned
    exactly when the pod has a pod-group name, the listing succeeds and
    some listed pod with the same pod-group name is running or pending;
    the peers are those pods in listing order, the gang ID is the pod's,
    and the expected count is never zero.  In particular a running or
    pending pod that the listing contains is a peer of its own gang. *)
Theorem discoverer_DiscoverPeers_outcome kubeClient dynamicClient ctx pod :
  let podGroupName := discoverer.getPodGroupName pod in
  let lookup := getPodGroupMinMember dynamicClient ctx (pod_Namespace pod) podGroupName in
  let listing := kubeClient ctx (pod_Namespace pod) in
  match discoverer.DiscoverPeers kubeClient dynamicClient ctx pod with
  | (Some g, None) =>
      discoverer.CanHandle pod = true /\
      exists items,
        listing = inl items /\
        gi_Peers g = peerOf <$> filter (discoverer.inNamedGroup podGroupName) items /\
        gi_Peers g <> [] /\
        gi_ExpectedMinCount g =
          (if decide (lookup.1 = 0%Z) then Z.of_nat (length (gi_Peers g))
           else lookup.1) /\
        gi_ExpectedMinCount g <> 0%Z /\
        gi_GangID g = discoverer.ExtractGangID pod
  | (None, Some err) =>
      discoverer.CanHandle pod = true /\ exists e, listing = inr e
  | (None, None) =>
      discoverer.CanHandle pod = false \/
      exists items,
        listing = inl items /\
        filter (discoverer.inNamedGroup podGroupName) items = [] /\
        (pod ∈ items -> ~ isLive pod)
  | (Some _, Some _) => False
  end.
Proof.
  intros podGroupName lookup listing.
  unfold discoverer.DiscoverPeers, discoverer.CanHandle.
  fold podGroupName. fold lookup. fold listing.
  destruct (decide (podGroupName = ""%string)) as [He|Hne].
  - left. by rewrite bool_decide_eq_false_2 by tauto.
  - rewrite bool_decide_eq_true_2 by done.
    destruct listing as [items|e]; [|by eauto].
    rewrite peersOf_filter.
    destruct (peerOf <$> filter (discoverer.inNamedGroup podGroupName) items)
      as [|peer peers] eqn:Hp.
    + right. exists items. split; [done|].
      apply fmap_nil_inv in Hp. split; [done|].
      intros Hin Hl.
      assert (pod ∈ filter (discoverer.inNamedGroup podGroupName) items) as Hf
        by (apply list_elem_of_filter; by split).
      rewrite Hp in Hf. by apply elem_of_nil in Hf.
    + simpl. split; [done|]. exists items. repeat split; try done.
      destruct (decide (lookup.1 = 0%Z)); [lia|done].
Qed.

End VolcanoMore.

(** ** strconv.Atoi and the label discoverer *)

Section AtoiMore.
Import strconv_int.

Lemma toInt64_small (z : Z) : (- 2 ^ 63 <= z < 2 ^ 63)%Z -> toInt64 z = z.
Proof.
  intros Hz. unfold toInt64.
  rewrite Z.mod_small; lia.
Qed.

Lemma isDigit_byte (ch : ascii) :
  (9 <? (N_of_ascii ch + 256 - 48) mod 256) = negb (isDigit ch).
Proof.
  unfold isDigit. pose proof (N_ascii_bounded ch) as Hb.
  set (c := N_of_ascii ch) in *.
  destruct (N.leb_spec 48 c) as [H48|H48]; simpl.
  - replace ((c + 256 - 48) mod 256) with (c - 48).
    + destruct (N.leb_spec c 57); simpl; lia.
    + apply N.mod_unique with 1; lia.
  - rewrite N.mod_small by lia. lia.
Qed.

Lemma digit_byte_value (ch : ascii) :
  isDigit ch = true -> (N_of_ascii ch + 256 - 48) mod 256 = N_of_ascii ch - 48.
Proof.
  unfold isDigit. intros Hd. symmetry. apply N.mod_unique with 1; lia.
Qed.

Lemma Atoi_loop_spec (s : string) : forall n : N,
  ((Z.of_N n + 1) * 10 ^ Z.of_nat (String.length s) <= 2 ^ 63)%Z ->
  Atoi_loop s (Z.of_N n) =
  if allDigits s then inl (Z.of_N (decimalValue n s)) else inr strconv.ErrSyntax.
Proof.
  induction s as [|ch s IH]; intros n Hn; simpl; [done|].
  rewrite isDigit_byte. destruct (isDigit ch) eqn:Hd; simpl; [|done].
  rewrite digit_byte_value by done.
  assert (Hd' : N_of_ascii ch - 48 <= 9) by (unfold isDigit in Hd; lia).
  simpl String.length in Hn. rewrite Nat2Z.inj_succ, Z.pow_succ_r in Hn by lia.
  assert (Hp : (0 < 10 ^ Z.of_nat (String.length s))%Z) by (apply Z.pow_pos_nonneg; lia).
  rewrite toInt64_small by nia.
  replace (Z.of_N n * 10 + Z.of_N (N_of_ascii ch - 48))%Z
    with (Z.of_N (n * 10 + (N_of_ascii ch - 48))) by lia.
  apply IH. nia.
Qed.

Lemma decimalValue_lt (s : string) : forall acc,
  allDigits s = true ->
  (Z.of_N (decimalValue acc s) < (Z.of_N acc + 1) * 10 ^ Z.of_nat (String.length s))%Z.
Proof.
  induction s as [|ch s IH]; intros acc Hd; simpl in *.
  - lia.
  - apply andb_true_iff in Hd as [Hch Hd]. unfold isDigit in Hch.
    specialize (IH (acc * 10 + (N_of_ascii ch - 48)) Hd).
    rewrite Nat2Z.inj_succ, Z.pow_succ_r by lia.
    assert (Hp : (0 < 10 ^ Z.of_nat (String.length s))%Z) by (apply Z.pow_pos_nonneg; lia).
    nia.
Qed.

Lemma pow10_le_18 (n : nat) : (n <= 18)%nat -> (10 ^ Z.of_nat n <= 2 ^ 63)%Z.
Proof.
  intros Hn. etrans; [apply (Z.pow_le_mono_r 10 _ 18); lia|]. by vm_compute.
Qed.

Lemma ParseUint_loop_digits cutoff maxVal (s : string) : forall n,
  allDigits s = true ->
  strconv.ParseUint_loop 10 cutoff maxVal s n <> inr strconv.ErrSyntax.
Proof.
  induction s as [|ch s IH]; intros n Hd; simpl in *; [discriminate|].
  apply andb_true_iff in Hd as [Hch Hd]. unfold isDigit in Hch.
  rewrite Hch. simpl.
  replace (10 <=? N_of_ascii ch - 48) with false by lia.
  destruct (cutoff <=? n); [discriminate|].
  destruct (_ || _); [discriminate|]. by apply IH.
Qed.

Lemma ParseInt_spec (s : string) (z : Z) :
  ParseInt s 10 0 = inl z <-> parsesAsInt64 s = Some z.
Proof.
  unfold ParseInt, parsesAsInt64.
  destruct s as [|first rest]; [done|].
  change (if 0 =? 0 then 64 else 0) with 64.
  set (digits := if Ascii.eqb first "+" || Ascii.eqb first "-" then rest else String first rest).
  change (strconv.wrap64 (N.shiftl 1 (64 - 1))) with 9223372036854775808.
  change (strconv.wrap64 (N.shiftl 1 64 - 1)) with 18446744073709551615.
  change (2 ^ 63)%Z with 9223372036854775808%Z.
  clearbody digits.
  destruct (strconv.ParseUint digits 10 64) as [un|[]] eqn:E.
  - apply ParseUint_decimal in E.
    assert (Hun : un < 2 ^ 64) by (by eapply parsesAsUint64_bound).
    change (2 ^ 64) with 18446744073709551616 in Hun.
    unfold parsesAsUint64 in E. destruct digits as [|d ds]; [done|].
    generalize dependent (String d ds). intros digits E.
    destruct (allDigits digits); simpl in E; [|done].
    destruct (decimalValue 0 digits <? 2 ^ 64); [|done].
    injection E as <-. set (un := decimalValue 0 digits) in *.
    destruct (Ascii.eqb first "-"); simpl.
    + destruct (N.ltb_spec 9223372036854775808 un).
      * replace (Z.of_N un <=? 9223372036854775808)%Z with false by lia.
        by split.
      * replace (Z.of_N un <=? 9223372036854775808)%Z with true by lia.
        assert (Hn : toInt64 (- toInt64 (Z.of_N un)) = (- Z.of_N un)%Z).
        { destruct (decide (un = 9223372036854775808)) as [->|Hne].
          - by vm_compute.
          - rewrite (toInt64_small (Z.of_N _)) by lia. apply toInt64_small. lia. }
        rewrite Hn. split; congruence.
    + destruct (N.leb_spec 9223372036854775808 un).
      * replace (Z.of_N un <? 9223372036854775808)%Z with false by lia.
        by split.
      * replace (Z.of_N un <? 9223372036854775808)%Z with true by lia.
        rewrite toInt64_small by lia. split; congruence.
  - (* syntax error *)
    split; [done|].
    destruct digits as [|d ds]; [done|].
    destruct (allDigits (String d ds)) eqn:Hd; [|done].
    exfalso. revert E. by apply ParseUint_loop_digits.
  - (* range error *)
    split; [by destruct (Ascii.eqb first "-")|].
    destruct digits as [|d ds]; [done|].
    destruct (allDigits (String d ds)) eqn:Hd; [|done].
    intros Hsome. exfalso.
    assert (Hnone : forall v, parsesAsUint64 (String d ds) <> Some v).
    { intros v Hv. apply ParseUint_decimal in Hv. congruence. }
    unfold parsesAsUint64 in Hnone. rewrite Hd in Hnone. cbv beta iota zeta in Hnone.
    destruct (N.ltb_spec (decimalValue 0 (String d ds)) (2 ^ 64)) as [Hlt|Hge].
    + exact (Hnone _ eq_refl).
    + change (2 ^ 64) with 18446744073709551616 in Hge.
      cbv zeta in Hsome.
      destruct (Ascii.eqb first "-").
      * destruct (Z.leb_spec (Z.of_N (decimalValue 0 (String d ds))) 9223372036854775808); [lia|done].
      * destruct (Z.ltb_spec (Z.of_N (decimalValue 0 (String d ds))) 9223372036854775808); [lia|done].
Qed.

Lemma Atoi_spec (s : string) (z : Z) :
  Atoi s = inl z <-> parsesAsInt64 s = Some z.
Proof.
  destruct s as [|first rest]; [apply ParseInt_spec|].
  unfold Atoi. case_bool_decide as Hlen; [|apply ParseInt_spec].
  unfold parsesAsInt64.
  replace (Ascii.eqb first "-" || Ascii.eqb first "+")
    with (Ascii.eqb first "+" || Ascii.eqb first "-") by apply orb_comm.
  set (signed := Ascii.eqb first "+" || Ascii.eqb first "-").
  set (digits := if signed then rest else String first rest).
  assert (Hdl : (String.length digits <= 18)%nat).
  { subst digits. simpl in Hlen. destruct signed; simpl; lia. }
  assert (Hneg : Ascii.eqb first "-" = true -> signed = true).
  { subst signed. intros ->. apply orb_true_r. }
  cbv zeta.
  destruct digits as [|d ds] eqn:Hdig.
  { assert (signed = true) as -> by (subst digits; by destruct signed).
    simpl. by split. }
  rewrite <- Hdig in *.
  replace (signed && bool_decide (String.length digits < 1)%nat) with false
    by (rewrite Hdig; by destruct signed).
  pose proof (Atoi_loop_spec digits 0) as HL.
  change (Z.of_N 0) with 0%Z in HL.
  rewrite HL by (pose proof (pow10_le_18 _ Hdl); lia). clear HL.
  assert (Hdig' : digits <> ""%string) by (by rewrite Hdig).
  clearbody digits. clear Hdig.
  destruct digits as [|d' ds']; [done|].
  generalize dependent (String d' ds'). intros digits Hdl _.
  destruct (allDigits digits) eqn:Hd; [|by split].
  pose proof (decimalValue_lt digits 0 Hd) as Hv.
  pose proof (pow10_le_18 _ Hdl) as Hp.
  change (2 ^ 63)%Z with 9223372036854775808%Z in *.
  set (v := Z.of_N (decimalValue 0 digits)) in *.
  assert (0 <= v)%Z by lia.
  destruct (Ascii.eqb first "-").
  - rewrite toInt64_small by lia.
    replace (v <=? 9223372036854775808)%Z with true by lia. split; congruence.
  - replace (v <? 9223372036854775808)%Z with true by lia. split; congruence.
Qed.

End AtoiMore.

Section LabelMore.
Import gang gang_members gang_labels.
Context {Ctx : Type}.
Implicit Types (pod : Pod) (ctx : Ctx) (l : LabelDiscoverer Ctx).

Lemma Label_peers_filter (items : list Pod) :
  Label_peers items = peerOf <$> filter isLive items.
Proof.
  induction items as [|p items IH]; [done|]. simpl.
  destruct (decide (isLive p)) as [Hl|Hn].
  - rewrite filter_cons_True by done. rewrite fmap_cons, <- IH.
    unfold isLive in Hl. by destruct (pod_Phase p), Hl.
  - rewrite filter_cons_False by done. rewrite <- IH.
    unfold isLive in Hn. destruct (pod_Phase p); try done; exfalso; apply Hn; auto.
Qed.

Lemma Label_expectedCount_spec l pod :
  Label_expectedCount l pod =
    match parsesAsInt64 (index_string (pod_Labels pod) (GangSizeLabel (config l))) with
    | Some size => if (0 <? size)%Z then size else 0%Z
    | None => 0%Z
    end.
Proof.
  unfold Label_expectedCount.
  set (sizeStr := index_string _ _).
  destruct (decide (sizeStr <> ""%string)) as [Hne|He].
  - destruct (strconv_int.Atoi sizeStr) as [size|err] eqn:E.
    + apply Atoi_spec in E. by rewrite E.
    + destruct (parsesAsInt64 sizeStr) as [size|] eqn:P; [|done].
      apply Atoi_spec in P. congruence.
  - apply dec_stable in He. by rewrite He.
Qed.

Lemma Label_expectedCount_nonneg l pod : (0 <= Label_expectedCount l pod)%Z.
Proof.
  unfold Label_expectedCount. case_decide; [|done].
  destruct (strconv_int.Atoi _) as [size|]; [|done].
  destruct (Z.ltb_spec 0 size); lia.
Qed.

(** X16. The size label of the label discoverer.  The expected count read
    from the pod is the value of the size label when that label is an
    optionally signed decimal numeral (digits only after the sign) whose
    value lies between 1 and 2^63-1, and 0 in every other case: label or
    label map absent, empty value, other characters, zero, negative or
    out-of-range value.  It is never negative. *)
Theorem Label_size_label_rule l pod :
  let sizeStr := index_string (pod_Labels pod) (GangSizeLabel (config l)) in
  Label_expectedCount l pod =
    match parsesAsInt64 sizeStr with
    | Some size => if (0 <? size)%Z then size else 0%Z
    | None => 0%Z
    end /\
  (0 <= Label_expectedCount l pod < 2 ^ 63)%Z /\
  (Label_expectedCount l pod <> 0%Z ->
   exists first rest,
     sizeStr = String first rest /\
     let digits := if Ascii.eqb first "+" then rest else sizeStr in
     allDigits digits = true /\
     Label_expectedCount l pod = Z.of_N (decimalValue 0 digits)).
Proof.
  intros sizeStr. rewrite Label_expectedCount_spec. fold sizeStr.
  unfold parsesAsInt64.
  destruct sizeStr as [|first rest]; [split_and!; (done || lia)|].
  set (digits := if Ascii.eqb first "+" || Ascii.eqb first "-" then rest
                 else String first rest).
  change (2 ^ 63)%Z with 9223372036854775808%Z.
  destruct digits as [|d ds] eqn:Hdig; [split_and!; (done || lia)|].
  rewrite <- Hdig. clear Hdig d ds.
  destruct (allDigits digits) eqn:Hd; [|split_and!; (done || lia)].
  cbv zeta.
  destruct (Ascii.eqb first "-") eqn:Hm.
  - destruct (Z.leb_spec (Z.of_N (decimalValue 0 digits)) 9223372036854775808).
    + replace (0 <? - Z.of_N (decimalValue 0 digits))%Z with false by lia.
      split_and!; (done || lia).
    + split_and!; (done || lia).
  - destruct (Z.ltb_spec (Z.of_N (decimalValue 0 digits)) 9223372036854775808);
      [|split_and!; (done || lia)].
    destruct (Z.ltb_spec 0 (Z.of_N (decimalValue 0 digits)));
      [|split_and!; (done || lia)].
    split_and!; [done|lia|lia|]. intros _. exists first, rest. split; [done|].
    subst digits. rewrite orb_false_r in Hd |- *.
    by destruct (Ascii.eqb first "+").
Qed.

(** X17. What [DiscoverPeers] of the label discoverer returns.  It never
    returns a gang together with an error, and its only error is a failed
    pod listing; a malformed size label is never an error.  A gang is
    returned exactly when the pod carries the gang label, the listing
    succeeds and some listed pod is running or pending; its peers are those
    pods in listing order, its expected count is the size label's count
    when that is not zero and the number of peers otherwise, hence at
    least one. *)
Theorem Label_DiscoverPeers_outcome l ctx pod :
  let gangLabelValue := index_string (pod_Labels pod) (GangIDLabel (config l)) in
  let listing :=
    kubeClient l ctx (pod_Namespace pod) (GangIDLabel (config l)) gangLabelValue in
  match Label_DiscoverPeers l ctx pod with
  | (Some g, None) =>
      Label_CanHandle l pod = true /\
      exists items,
        listing = inl items /\
        gi_Peers g = peerOf <$> filter isLive items /\
        gi_Peers g <> [] /\
        gi_ExpectedMinCount g =
          (if decide (Label_expectedCount l pod = 0%Z)
           then Z.of_nat (length (gi_Peers g))
           else Label_expectedCount l pod) /\
        (1 <= gi_ExpectedMinCount g)%Z /\
        gi_GangID g = Label_ExtractGangID l pod
  | (None, Some err) =>
      Label_CanHandle l pod = true /\ exists e, listing = inr e
  | (None, None) =>
      Label_CanHandle l pod = false \/
      exists items, listing = inl items /\ filter isLive items = []
  | (Some _, Some _) => False
  end.
Proof.
  intros gangLabelValue listing. unfold Label_DiscoverPeers.
  destruct (Label_CanHandle l pod) eqn:Hc; simpl; [|by left].
  fold gangLabelValue. fold listing.
  destruct listing as [items|e]; [|by eauto].
  rewrite Label_peers_filter.
  destruct (peerOf <$> filter isLive items) as [|peer peers] eqn:Hp.
  - right. exists items. split; [done|]. by apply fmap_nil_inv in Hp.
  - simpl. split; [done|]. exists items. repeat split; try done.
    pose proof (Label_expectedCount_nonneg l pod) as Hb.
    destruct (decide (Label_expectedCount l pod = 0%Z)); lia.
Qed.

(** X18. For the label discoverer, [CanHandle] tests that the gang label
    is present and [ExtractGangID] that its value is not empty: the gang
    ID is "labels-<namespace>-<value>" for a non-empty value and empty
    otherwise.  A non-empty gang ID implies [CanHandle]; a pod whose gang
    label is present but empty can be handled and has the empty gang
    ID. *)
Theorem Label_gang_id l pod :
  let value := pod_Labels pod ≫= (.!! GangIDLabel (config l)) in
  (Label_CanHandle l pod = true <-> is_Some value) /\
  Label_ExtractGangID l pod =
    match value with
    | Some v =>
        if decide (v = ""%string) then ""%string
        else ("labels-" +:+ pod_Namespace pod +:+ "-" +:+ v)%string
    | None => ""%string
    end /\
  (Label_ExtractGangID l pod <> ""%string -> Label_CanHandle l pod = true) /\
  (Label_CanHandle l pod = true /\ Label_ExtractGangID l pod = ""%string <->
   value = Some ""%string).
Proof.
  intros value. subst value.
  unfold Label_CanHandle, Label_ExtractGangID.
  destruct (pod_Labels pod) as [labels|]; simpl.
  - destruct (labels !! GangIDLabel (config l)) as [v|] eqn:E; simpl.
    + destruct (decide (v = ""%string)) as [->|Hne].
      * split_and!; [by eauto|done|done|]. split; [done|by eauto].
      * split_and!; [by eauto|done|done|].
        split; [intros [_ ?]; discriminate|intros [= ->]; done].
    + split_and!; [|done|done|].
      * split; [discriminate|by intros [? [=]]].
      * split; [by intros [[=] _]|discriminate].
  - split_and!; [|done|done|].
    + split; [discriminate|by intros [? [=]]].
    + split; [by intros [[=] _]|discriminate].
Qed.

(** X19. [NewLabelDiscoverer] never leaves a label key empty: each key of
    the given configuration is kept when it is not empty and replaced by
    its default otherwise, independently of the other key.  Building a
    discoverer from the configuration of a built one changes nothing, and
    the empty configuration gives the default one. *)
Theorem NewLabelDiscoverer_keys (client : PodLister Ctx) (cfg : LabelDiscovererConfig) :
  let built := config (NewLabelDiscoverer client cfg) in
  GangIDLabel built =
    (if decide (GangIDLabel cfg = ""%string) then DefaultGangIDLabel
     else GangIDLabel cfg) /\
  GangSizeLabel built =
    (if decide (GangSizeLabel cfg = ""%string) then DefaultGangSizeLabel
     else GangSizeLabel cfg) /\
  GangIDLabel built <> ""%string /\
  GangSizeLabel built <> ""%string /\
  NewLabelDiscoverer client built = NewLabelDiscoverer client cfg /\
  config (NewLabelDiscoverer client {| GangIDLabel := ""; GangSizeLabel := "" |})
    = DefaultLabelDiscovererConfig.
Proof.
  intros built. subst built.
  destruct cfg as [idl szl]. unfold NewLabelDiscoverer. simpl.
  destruct (decide (idl = ""%string)) as [->|Hi];
    destruct (decide (szl = ""%string)) as [->|Hs]; simpl;
    repeat (rewrite ?decide_False by done; simpl).
  all: split_and!; try done.
  all: destruct (decide (idl = ""%string)); [done|]; simpl.
  all: by repeat case_decide.
Qed.

End LabelMore.

(** ** The workloadRef discoverer *)

Section WorkloadRefMore.
Import gang gang_members workloadref.
Context {Ctx : Type}.
Implicit Types (pod p q : WorkloadPod) (ctx : Ctx)
  (kubeClient : WorkloadPodLister Ctx) (workloads : WorkloadClient Ctx).

Lemma workloadref_peersOf_filter workloadName podGroup (items : list WorkloadPod) :
  workloadref.peersOf workloadName podGroup items =
  (fun p : WorkloadPod => peerOf p) <$> filter (inWorkload workloadName podGroup) items.
Proof.
  induction items as [|p items IH]; [done|]. simpl.
  destruct (decide (getWorkloadRefName p <> workloadName)) as [Hne|Heq].
  { rewrite filter_cons_False; [done|]. unfold inWorkload. tauto. }
  apply dec_stable in Heq.
  destruct (decide (podGroup <> ""%string /\ getWorkloadRefPodGroup p <> podGroup))
    as [Hg|Hg].
  { rewrite filter_cons_False; [done|]. unfold inWorkload. tauto. }
  assert (Hg' : podGroup = ""%string \/ getWorkloadRefPodGroup p = podGroup).
  { destruct (decide (podGroup = ""%string)); [by left|].
    destruct (decide (getWorkloadRefPodGroup p = podGroup)); [by right|].
    exfalso. apply Hg. by split. }
  destruct (decide (isLive p)) as [Hl|Hn].
  - rewrite filter_cons_True by done.
    rewrite fmap_cons, <- IH. unfold isLive in Hl.
    by destruct (pod_Phase p), Hl.
  - rewrite filter_cons_False by (unfold inWorkload; tauto).
    unfold isLive in Hn.
    destruct (pod_Phase p); try done; exfalso; apply Hn; auto.
Qed.

Lemma getWorkloadMinCount_loop_spec podGroup (podGroups : list WorkloadPodGroup) :
  getWorkloadMinCount_loop podGroup podGroups =
  default 0%Z (head (omap pg_Gang (filter (groupMatches podGroup) podGroups))).
Proof.
  induction podGroups as [|pg rest IH]; [done|]. simpl.
  destruct (decide (podGroup <> ""%string /\ pg_Name pg <> podGroup)) as [Hs|Hs].
  - rewrite filter_cons_False; [done|]. unfold groupMatches. tauto.
  - rewrite filter_cons_True.
    + simpl. by destruct (pg_Gang pg).
    + unfold groupMatches.
      destruct (decide (podGroup = ""%string)); [by left|].
      destruct (decide (pg_Name pg = podGroup)); [by right|].
      exfalso. apply Hs. by split.
Qed.

(** X20. [getWorkloadMinCount] returns the [MinCount] of the first pod
    group, in the Workload's order, that both matches (any pod group when
    none is asked for, the one of that name otherwise) and has a gang
    policy; pod groups without a gang policy are passed over, also when no
    pod group is asked for.  It returns 0 without error when there is no
    such pod group, and 0 with an error exactly when the Workload cannot
    be fetched. *)
Theorem getWorkloadMinCount_first_gang_policy workloads ctx namespace name podGroup :
  match workloads ctx namespace name with
  | inl podGroups =>
      getWorkloadMinCount workloads ctx namespace name podGroup =
        (default 0%Z (head (omap pg_Gang (filter (groupMatches podGroup) podGroups))),
         None) /\
      (forall skipped pg rest minCount,
         podGroups = skipped ++ pg :: rest ->
         Forall (fun g => ~ groupMatches podGroup g \/ pg_Gang g = None) skipped ->
         groupMatches podGroup pg -> pg_Gang pg = Some minCount ->
         (getWorkloadMinCount workloads ctx namespace name podGroup).1 = minCount) /\
      (Forall (fun g => ~ groupMatches podGroup g \/ pg_Gang g = None) podGroups ->
       (getWorkloadMinCount workloads ctx namespace name podGroup).1 = 0%Z)
  | inr err =>
      (getWorkloadMinCount workloads ctx namespace name podGroup).1 = 0%Z /\
      (getWorkloadMinCount workloads ctx namespace name podGroup).2 <> None
  end.
Proof.
  unfold getWorkloadMinCount.
  destruct (workloads ctx namespace name) as [podGroups|err]; [|done].
  rewrite getWorkloadMinCount_loop_spec. simpl.
  assert (Hskip : forall skipped tail,
    Forall (fun g => ~ groupMatches podGroup g \/ pg_Gang g = None) skipped ->
    omap pg_Gang (filter (groupMatches podGroup) (skipped ++ tail)) =
    omap pg_Gang (filter (groupMatches podGroup) tail)).
  { intros skipped tail Hall. induction Hall as [|g skipped Hg _ IH]; [done|].
    simpl. destruct (decide (groupMatches podGroup g)) as [Hm|Hm].
    - rewrite filter_cons_True by done. simpl.
      destruct Hg as [Hg|Hg]; [done|]. by rewrite Hg.
    - by rewrite filter_cons_False. }
  split_and!; [done| |].
  - intros skipped pg rest minCount -> Hall Hm Hgang.
    rewrite Hskip by done. rewrite filter_cons_True by done. simpl.
    by rewrite Hgang.
  - intros Hall. rewrite <- (app_nil_r podGroups). by rewrite Hskip.
Qed.

(** X21. What [DiscoverPeers] of the workloadRef discoverer returns.  Its
    only error is a failed pod listing; a failed Workload lookup is not an
    error of discovery, and no gang comes together with an error.  A gang
    is returned exactly when the pod has a workloadRef with a non-empty
    name, the listing succeeds and some listed pod of the same workload
    (and of the same pod group, when the pod names one) is running or
    pending; the peers are those pods in listing order, and the expected
    count is the Workload's count when the lookup gave a non-zero one and
    the number of peers otherwise, hence never zero. *)
Theorem WorkloadRef_DiscoverPeers_outcome kubeClient workloads ctx pod :
  let workloadName := getWorkloadRefName pod in
  let podGroup := getWorkloadRefPodGroup pod in
  let lookup :=
    getWorkloadMinCount workloads ctx (pod_Namespace pod) workloadName podGroup in
  let listing := kubeClient ctx (pod_Namespace pod) in
  (lookup.2 <> None -> lookup.1 = 0%Z) /\
  match DiscoverPeers kubeClient workloads ctx pod with
  | (Some g, None) =>
      CanHandle pod = true /\
      exists items,
        listing = inl items /\
        gi_Peers g =
          (fun p : WorkloadPod => peerOf p) <$> filter (inWorkload workloadName podGroup) items /\
        gi_Peers g <> [] /\
        gi_ExpectedMinCount g =
          (if decide (lookup.1 = 0%Z) then Z.of_nat (length (gi_Peers g))
           else lookup.1) /\
        gi_ExpectedMinCount g <> 0%Z /\
        gi_GangID g = ExtractGangID pod
  | (None, Some err) =>
      CanHandle pod = true /\ exists e, listing = inr e
  | (None, None) =>
      CanHandle pod = false \/
      exists items,
        listing = inl items /\
        filter (inWorkload workloadName podGroup) items = [] /\
        (pod ∈ items -> ~ isLive pod)
  | (Some _, Some _) => False
  end.
Proof.
  intros workloadName podGroup lookup listing. split.
  { unfold lookup, getWorkloadMinCount.
    by destruct (workloads ctx (pod_Namespace pod) workloadName). }
  unfold DiscoverPeers.
  destruct (CanHandle pod) eqn:Hc; simpl; [|by left].
  fold workloadName. fold podGroup. fold lookup. fold listing.
  destruct listing as [items|e]; [|by eauto].
  rewrite workloadref_peersOf_filter.
  destruct ((fun p : WorkloadPod => peerOf p) <$> filter (inWorkload workloadName podGroup) items)
    as [|peer peers] eqn:Hp.
  - right. exists items. split; [done|].
    apply fmap_nil_inv in Hp. split; [done|].
    intros Hin Hl.
    assert (pod ∈ filter (inWorkload workloadName podGroup) items) as Hf.
    { apply list_elem_of_filter. split; [|done].
      unfold inWorkload. split_and!; [done|by right|done]. }
    rewrite Hp in Hf. by apply elem_of_nil in Hf.
  - simpl. split; [done|]. exists items. repeat split; try done.
    destruct (decide (lookup.1 = 0%Z)); [lia|done].
Qed.

Lemma append_length (a b : string) :
  String.length (a +:+ b) = (String.length a + String.length b)%nat.
Proof. induction a as [|ch a IH]; simpl; [done|]. by rewrite IH. Qed.

(** X22. Gang IDs of the workloadRef discoverer.  A pod can be handled
    exactly when its gang ID is not empty.  The ID is
    "kubernetes-<namespace>-<workload>", followed by "-<podGroup>" when
    the pod names a pod group; it does not separate the two readings of a
    dash: a pod of workload "<w>-<g>" without pod group and a pod of
    workload "<w>" in pod group "<g>" of the same namespace have the same
    gang ID, although their workloads differ. *)
Theorem WorkloadRef_gang_id p q (w g : string) :
  (CanHandle p = true <-> ExtractGangID p <> ""%string) /\
  (pod_Namespace p = pod_Namespace q ->
   wp_WorkloadRef p = Some {| wr_Name := w +:+ "-" +:+ g; wr_PodGroup := "" |} ->
   wp_WorkloadRef q = Some {| wr_Name := w; wr_PodGroup := g |} ->
   w <> ""%string -> g <> ""%string ->
   ExtractGangID p = ExtractGangID q /\
   ExtractGangID p <> ""%string /\
   getWorkloadRefName p <> getWorkloadRefName q).
Proof.
  split.
  - unfold CanHandle, ExtractGangID. rewrite bool_decide_eq_true.
    destruct (decide (getWorkloadRefName p = ""%string)) as [->|Hne]; [tauto|].
    split; [intros _|done]. by case_decide.
  - intros Hns Hp Hq Hw Hg.
    unfold ExtractGangID, getWorkloadRefName, getWorkloadRefPodGroup.
    rewrite Hp, Hq, Hns. simpl.
    assert (Hwg : (w +:+ "-" +:+ g)%string <> ""%string).
    { intros He. apply (f_equal String.length) in He.
      rewrite !append_length in He. simpl in He. lia. }
    rewrite (decide_False (P := (w +:+ "-" +:+ g)%string = ""%string)) by done.
    rewrite (decide_False (P := w = ""%string)) by done.
    rewrite (decide_True (P := g <> ""%string)) by done.
    split_and!.
    + by rewrite <- !append_assoc.
    + intros He. apply (f_equal String.length) in He.
      rewrite !append_length in He. simpl in He. lia.
    + intros He. apply (f_equal String.length) in He.
      rewrite !append_length in He. simpl in He. lia.
Qed.

Lemma filter_length_lt {A} (P Q : A -> Prop) `{!forall x, Decision (P x)}
    `{!forall x, Decision (Q x)} (l : list A) (x : A) :
  (forall y, P y -> Q y) -> x ∈ l -> Q x -> ~ P x ->
  (length (filter P l) < length (filter Q l))%nat.
Proof.
  intros Himp Hin HQ HP.
  assert (Hle : forall l', (length (filter P l') <= length (filter Q l'))%nat).
  { induction l' as [|y l' IH]; [done|].
    destruct (decide (P y)) as [Hy|Hy].
    - rewrite !filter_cons_True by auto. simpl. lia.
    - rewrite (filter_cons_False P) by done.
      destruct (decide (Q y)).
      + rewrite filter_cons_True by done. simpl. lia.
      + by rewrite filter_cons_False. }
  induction Hin as [x l|x y l Hin IH].
  - rewrite filter_cons_False, filter_cons_True by done. simpl.
    specialize (Hle l). lia.
  - destruct (decide (P y)) as [Hy|Hy].
    + rewrite !filter_cons_True by auto. simpl. specialize (IH HQ HP). lia.
    + rewrite (filter_cons_False P) by done.
      specialize (IH HQ HP).
      destruct (decide (Q y)).
      * rewrite filter_cons_True by done. simpl. lia.
      * by rewrite filter_cons_False.
Qed.

(** X23. Discovery by workloadRef depends on the pod it starts from.  Let
    a listing contain two running or pending pods of one namespace and one
    workload, [p] without pod group and [q] with one.  Starting from [p]
    the gang holds both pods; starting from [q] it holds only the pods of
    [q]'s pod group, strictly fewer, and not [p]. *)
Theorem WorkloadRef_peers_depend_on_start kubeClient workloads ctx p q
    (items : list WorkloadPod) :
  kubeClient ctx (pod_Namespace p) = inl items ->
  pod_Namespace q = pod_Namespace p ->
  p ∈ items -> q ∈ items -> isLive p -> isLive q ->
  getWorkloadRefName p <> ""%string ->
  getWorkloadRefName q = getWorkloadRefName p ->
  getWorkloadRefPodGroup p = ""%string ->
  getWorkloadRefPodGroup q <> ""%string ->
  exists gp gq,
    (DiscoverPeers kubeClient workloads ctx p).1 = Some gp /\
    (DiscoverPeers kubeClient workloads ctx q).1 = Some gq /\
    peerOf p ∈ gi_Peers gp /\ peerOf q ∈ gi_Peers gp /\
    peerOf q ∈ gi_Peers gq /\
    gi_Peers gq =
      (fun x : WorkloadPod => peerOf x) <$>
        filter (inWorkload (getWorkloadRefName q) (getWorkloadRefPodGroup q)) items /\
    ~ inWorkload (getWorkloadRefName q) (getWorkloadRefPodGroup q) p /\
    (length (gi_Peers gq) < length (gi_Peers gp))%nat.
Proof.
  intros Hlist Hns Hp Hq Hlp Hlq Hname Hsame Hgp Hgq.
  assert (Hpp : inWorkload (getWorkloadRefName p) (getWorkloadRefPodGroup p) p).
  { unfold inWorkload. split_and!; [done|by left|done]. }
  assert (Hpq : inWorkload (getWorkloadRefName p) (getWorkloadRefPodGroup p) q).
  { unfold inWorkload. split_and!; [done|by left|done]. }
  assert (Hqq : inWorkload (getWorkloadRefName q) (getWorkloadRefPodGroup q) q).
  { unfold inWorkload. split_and!; [done|by right|done]. }
  assert (Hqp : ~ inWorkload (getWorkloadRefName q) (getWorkloadRefPodGroup q) p).
  { unfold inWorkload. intros (_ & [He|He] & _); [done|]. congruence. }
  assert (Hin : forall (x : WorkloadPod) n g,
    x ∈ items -> inWorkload n g x ->
    peerOf x ∈ (fun y : WorkloadPod => peerOf y) <$> filter (inWorkload n g) items).
  { intros x n g Hx Hw. apply (list_elem_of_fmap_2 (fun y : WorkloadPod => peerOf y)).
    apply list_elem_of_filter. by split. }
  unfold DiscoverPeers, CanHandle.
  rewrite Hsame, Hns, Hlist.
  rewrite bool_decide_eq_true_2 by done. simpl.
  rewrite !workloadref_peersOf_filter.
  pose proof (Hin p _ _ Hp Hpp) as Hp1.
  pose proof (Hin q _ _ Hq Hpq) as Hq1.
  pose proof (Hin q _ _ Hq Hqq) as Hq2.
  rewrite Hsame in Hq2, Hqp.
  assert (Hlt : (length (filter (inWorkload (getWorkloadRefName p) (getWorkloadRefPodGroup q)) items)
                 < length (filter (inWorkload (getWorkloadRefName p) (getWorkloadRefPodGroup p)) items))%nat).
  { apply (filter_length_lt _ _ items p); try done.
    intros y (Hn & _ & Hl). unfold inWorkload. split_and!; [done|by left|done]. }
  destruct ((fun x : WorkloadPod => peerOf x) <$>
              filter (inWorkload (getWorkloadRefName p) (getWorkloadRefPodGroup p)) items)
    as [|a la] eqn:Ea; [by apply elem_of_nil in Hp1|].
  destruct ((fun x : WorkloadPod => peerOf x) <$>
              filter (inWorkload (getWorkloadRefName p) (getWorkloadRefPodGroup q)) items)
    as [|b lb] eqn:Eb; [by apply elem_of_nil in Hq2|].
  eexists _, _. simpl. split_and!; try done.
  apply (f_equal length) in Ea, Eb. rewrite length_fmap in Ea, Eb.
  simpl in *. lia.
Qed.

End WorkloadRefMore.

Section WorkloadRefExample.
Import gang gang_members workloadref.

Lemma WorkloadRef_peers_depend_on_start_witness :
  let mk (name group : string) : WorkloadPod :=
    {| wp_Pod := {| pod_Name := name; pod_Namespace := "ml"; pod_Labels := None;
                    pod_Annotations := None; pod_NodeName := "node-1";
                    pod_Phase := PodRunning; pod_PodIP := "10.0.0.1" |};
       wp_WorkloadRef := Some {| wr_Name := "train"; wr_PodGroup := group |} |} in
  let kubeClient : WorkloadPodLister unit :=
    fun _ _ => inl [mk "launcher" ""; mk "worker-0" "workers"]%string in
  let workloads : WorkloadClient unit := fun _ _ _ => inr "not found"%string in
  exists gp gq,
    (DiscoverPeers kubeClient workloads tt (mk "launcher" ""%string)).1 = Some gp /\
    (DiscoverPeers kubeClient workloads tt (mk "worker-0" "workers"%string)).1 = Some gq /\
    (length (gi_Peers gq) < length (gi_Peers gp))%nat.
Proof.
  intros mk kubeClient workloads.
  destruct (WorkloadRef_peers_depend_on_start kubeClient workloads tt
              (mk "launcher" ""%string) (mk "worker-0" "workers"%string)
              [mk "launcher" ""; mk "worker-0" "workers"]%string)
    as (gp & gq & Hp & Hq & _ & _ & _ & _ & _ & Hlt).
  - reflexivity.
  - reflexivity.
  - apply list_elem_of_here.
  - apply list_elem_of_further, list_elem_of_here.
  - left. reflexivity.
  - left. reflexivity.
  - discriminate.
  - reflexivity.
  - reflexivity.
  - discriminate.
  - exists gp, gq. split_and!; assumption.
Defined.

End WorkloadRefExample.

(** ** The Azure provider ID *)

Section AzureMore.
Import azure.
Local Arguments String.append : simpl nomatch.

Lemma Split_nonempty (s : string) (sep : ascii) : Split s sep <> [].
Proof.
  destruct s as [|ch s]; simpl; [done|].
  destruct (Ascii.eqb ch sep); [done|]. by destruct (Split s sep).
Qed.

Lemma Split_length (s : string) (sep : ascii) :
  length (Split s sep) = S (countByte sep s).
Proof.
  induction s as [|ch s IH]; simpl; [done|].
  destruct (Ascii.eqb ch sep); simpl; [by rewrite IH|].
  pose proof (Split_nonempty s sep).
  destruct (Split s sep); [done|]. simpl in *. lia.
Qed.

Lemma Split_free (s : string) (sep : ascii) :
  freeOf sep s = true -> Split s sep = [s].
Proof.
  induction s as [|ch s IH]; simpl; [done|].
  intros [Hch Hs]%andb_true_iff. apply negb_true_iff in Hch.
  rewrite Hch, IH by done. done.
Qed.

Lemma Split_app (a b : string) (sep : ascii) :
  Split (a +:+ String sep b) sep = Split a sep ++ Split b sep.
Proof.
  induction a as [|ch a IH]; simpl.
  - by rewrite Ascii.eqb_refl.
  - destruct (Ascii.eqb ch sep); [by rewrite IH|].
    rewrite IH. pose proof (Split_nonempty a sep).
    by destruct (Split a sep).
Qed.

Lemma Split_pieces_free (s : string) (sep : ascii) :
  Forall (fun piece => freeOf sep piece = true) (Split s sep).
Proof.
  induction s as [|ch s IH]; simpl; [by repeat constructor|].
  destruct (Ascii.eqb ch sep) eqn:Hch; [by constructor|].
  destruct (Split s sep) as [|piece pieces]; [by repeat constructor; simpl; rewrite Hch|].
  inversion IH as [|? ? Hp Hps]; subst. constructor; [|done].
  simpl. by rewrite Hch, Hp.
Qed.

Lemma default_last_cons {A} (d x : A) (l : list A) :
  default d (last (x :: l)) = default x (last l).
Proof.
  revert d x. induction l as [|y l IH]; intros d x; [done|].
  change (last (x :: y :: l)) with (last (y :: l)).
  by rewrite (IH d y), (IH x y).
Qed.

Lemma followers_cons key part next rest :
  followers key (part :: next :: rest) =
  (if decide (part = key) then [next] else []) ++ followers key (next :: rest).
Proof. unfold followers. simpl. by destruct (decide (part = key)). Qed.

Lemma parseAzureProviderID_loop_last (parts : list string) : forall resourceGroup vmName,
  parseAzureProviderID_loop parts resourceGroup vmName =
  (default resourceGroup (last (followers "resourceGroups" parts)),
   default vmName (last (followers "virtualMachines" parts))).
Proof.
  induction parts as [|part rest IH]; intros resourceGroup vmName; [done|].
  destruct rest as [|next rest].
  - done.
  - change (parseAzureProviderID_loop (part :: next :: rest) resourceGroup vmName)
      with (parseAzureProviderID_loop (next :: rest)
              (if decide (part = "resourceGroups"%string) then next else resourceGroup)
              (if decide (part = "virtualMachines"%string) then next else vmName)).
    rewrite IH, !followers_cons.
    destruct (decide (part = "resourceGroups"%string));
      destruct (decide (part = "virtualMachines"%string)); simpl app;
      by rewrite ?default_last_cons.
Qed.

Lemma followers_elem_of key parts x :
  x ∈ followers key parts -> x ∈ parts.
Proof.
  unfold followers. intros ([a b] & Hin & Hf)%list_elem_of_omap.
  simpl in Hf. destruct (decide (a = key)); [|done]. injection Hf as ->.
  apply elem_of_zip_r in Hin. destruct parts; [done|]. by right.
Qed.

(** X24. What [parseAzureProviderID] returns.  It fails with "invalid
    provider ID format" exactly when the provider ID has fewer than eight
    slashes.  Otherwise the resource group is the piece that follows the
    last "resourceGroups" piece which is not the final piece, and the VM
    name the piece that follows the last such "virtualMachines" piece; it
    fails with "could not extract" when either is missing or empty.  A
    successful parse never returns an empty name or one that holds a
    slash. *)
Theorem parseAzureProviderID_outcome (providerID : string) :
  let parts := Split providerID "/" in
  let group := default ""%string (last (followers "resourceGroups" parts)) in
  let vm := default ""%string (last (followers "virtualMachines" parts)) in
  match parseAzureProviderID providerID with
  | inl (resourceGroup, vmName) =>
      (8 <= countByte "/" providerID)%nat /\
      resourceGroup = group /\ vmName = vm /\
      resourceGroup <> ""%string /\ vmName <> ""%string /\
      resourceGroup ∈ parts /\ vmName ∈ parts /\
      freeOf "/" resourceGroup = true /\ freeOf "/" vmName = true
  | inr err =>
      ((countByte "/" providerID < 8)%nat /\
       err = ("invalid provider ID format: " +:+ providerID)%string) \/
      ((8 <= countByte "/" providerID)%nat /\
       (group = ""%string \/ vm = ""%string) /\
       err = ("could not extract resource group or VM name from provider ID: "
                +:+ providerID)%string)
  end.
Proof.
  intros parts group vm. unfold parseAzureProviderID. fold parts.
  assert (Hlen : length parts = S (countByte "/" providerID)) by apply Split_length.
  case_bool_decide as Hshort.
  { left. split; [lia|done]. }
  rewrite parseAzureProviderID_loop_last. fold group. fold vm.
  destruct (decide (group = ""%string)) as [Hg|Hg].
  { rewrite (bool_decide_eq_true_2 _ Hg). simpl. right. split_and!; [lia|by left|done]. }
  destruct (decide (vm = ""%string)) as [Hv|Hv].
  { rewrite (bool_decide_eq_true_2 _ Hv), orb_true_r. right.
    split_and!; [lia|by right|done]. }
  rewrite (bool_decide_eq_false_2 _ Hg), (bool_decide_eq_false_2 _ Hv). simpl.
  assert (Hgin : group ∈ parts).
  { unfold group in *. destruct (last (followers "resourceGroups" parts)) as [x|] eqn:E;
      [|done].
    simpl. by eapply followers_elem_of, last_Some_elem_of. }
  assert (Hvin : vm ∈ parts).
  { unfold vm in *. destruct (last (followers "virtualMachines" parts)) as [x|] eqn:E;
      [|done].
    simpl. by eapply followers_elem_of, last_Some_elem_of. }
  pose proof (Split_pieces_free providerID "/") as Hfree.
  rewrite Forall_forall in Hfree.
  split_and!; try done; [lia|by apply Hfree|by apply Hfree].
Qed.

Lemma parseAzureProviderID_loop_app (xs ys : list string) : forall resourceGroup vmName,
  exists resourceGroup' vmName',
    parseAzureProviderID_loop (xs ++ ys) resourceGroup vmName =
    parseAzureProviderID_loop ys resourceGroup' vmName'.
Proof.
  induction xs as [|x xs IH]; intros resourceGroup vmName; [by eauto|].
  simpl. apply IH.
Qed.

(** X25. Parsing a provider ID of the documented form.  For a prefix with
    at least two slashes and slash-free, non-empty names,
    "<prefix>/resourceGroups/<rg>/providers/Microsoft.Compute/virtualMachines/<vm>"
    parses to [(rg, vm)], whatever the prefix holds, with one exception: a
    resource group that is itself called "resourceGroups" parses to
    "providers".  In particular the resource ID that
    [createMaintenanceEvent] writes parses back to its two names. *)
Theorem parseAzureProviderID_documented_form (pre rg vm : string) :
  (2 <= countByte "/" pre)%nat ->
  freeOf "/" rg = true -> freeOf "/" vm = true ->
  rg <> ""%string -> vm <> ""%string ->
  parseAzureProviderID
    (pre +:+ "/resourceGroups/" +:+ rg
         +:+ "/providers/Microsoft.Compute/virtualMachines/" +:+ vm)
  = inl (if decide (rg = "resourceGroups"%string) then "providers"%string else rg, vm) /\
  parseAzureProviderID (eventResourceID rg vm)
  = inl (if decide (rg = "resourceGroups"%string) then "providers"%string else rg, vm).
Proof.
  intros Hpre Hrg Hvm Hrg0 Hvm0.
  assert (Hgen : forall p : string, (2 <= countByte "/" p)%nat ->
    parseAzureProviderID
      (p +:+ "/resourceGroups/" +:+ rg
         +:+ "/providers/Microsoft.Compute/virtualMachines/" +:+ vm)
    = inl (if decide (rg = "resourceGroups"%string) then "providers"%string else rg, vm)).
  { intros p Hp. unfold parseAzureProviderID.
    change (p +:+ "/resourceGroups/" +:+ rg
              +:+ "/providers/Microsoft.Compute/virtualMachines/" +:+ vm)%string
      with (p +:+ String "/" ("resourceGroups" +:+ String "/" (rg +:+ String "/"
              ("providers" +:+ String "/" ("Microsoft.Compute" +:+ String "/"
                ("virtualMachines" +:+ String "/" vm))))))%string.
    rewrite !Split_app.
    rewrite (Split_free rg), (Split_free vm) by done.
    rewrite (Split_free "resourceGroups"), (Split_free "providers"),
      (Split_free "Microsoft.Compute"), (Split_free "virtualMachines") by reflexivity.
    rewrite bool_decide_eq_false_2
      by (rewrite !length_app, Split_length; simpl; lia).
    destruct (parseAzureProviderID_loop_app (Split p "/")
                (["resourceGroups"; rg; "providers"; "Microsoft.Compute";
                  "virtualMachines"; vm]%string) ""%string ""%string)
      as (r0 & v0 & Hloop).
    simpl app in Hloop |- *. rewrite Hloop. simpl.
    destruct (decide (rg = "resourceGroups"%string)) as [->|Hne]; simpl.
    - by rewrite (bool_decide_eq_false_2 _ Hvm0).
    - destruct (decide (rg = "virtualMachines"%string)); simpl;
        by rewrite (bool_decide_eq_false_2 _ Hrg0), (bool_decide_eq_false_2 _ Hvm0). }
  split; [by apply Hgen|].
  apply (Hgen "/subscriptions/unknown"%string). simpl. lia.
Qed.

Lemma parseAzureProviderID_documented_form_witness :
  parseAzureProviderID
    "azure:///subscriptions/0000/resourceGroups/rg-1/providers/Microsoft.Compute/virtualMachines/vm-7"
  = inl ("rg-1"%string, "vm-7"%string).
Proof.
  refine (proj1 (parseAzureProviderID_documented_form
                   "azure:///subscriptions/0000" "rg-1" "vm-7" _ _ _ _ _)).
  - simpl. lia.
  - reflexivity.
  - reflexivity.
  - discriminate.
  - discriminate.
Defined.

End AzureMore.
